(** * Excitation signals: a shallow embedding of [excitation_signal.py]

    The class [ExcitationSignal] builds multi-channel test signals: a flat
    amplitude on a frequency band, random phases, an inverse FFT, a peak
    normalisation, a rejection loop on the first two samples, and a tiling
    of every trial.

    The embedding follows the Python file function by function.

    - NumPy arrays are lists ([list F], [list (list F)], ...); indexing
      that NumPy checks is checked here and raises the same exception.
    - Exceptions are the constructors of [exn]; a computation returns
      [Ok v], [Raise e], or [OutOfFuel] when the [while] loop of
      [get_one_feasible_signal] is still running after [fuel] rounds.
    - The scalar type is a parameter ([Arith F]): the functions are written
      once and read at two instances.  [float64] is IEEE binary64 with the
      correctly rounded operations that Python and NumPy use; [real] is the
      same program read in exact arithmetic, where the trigonometric
      functions and the discrete Fourier transform have a definition.
    - [np.exp], [np.fft.ifft] are library code ([NumLib F]); the global
      generator behind [np.random.rand] is the stream [draws] of the
      numbers it will hand out, read through a cursor.
    - Sizes ([N], [m], [p], [nr_inputs]) are natural numbers; [self.eps],
      read by the search, is its argument [eps]. *)

From Stdlib Require Import ZArith List String Floats Uint63 Reals Lra Lia Bool.
From stdpp Require Import base option list.
Import ListNotations.

Unset Default Proof Using.

(** ** Exceptions and results *)

Inductive exn : Set :=
| IndexError
| ValueError
| ZeroDivisionError
| UnboundLocalError.

Inductive res (A : Type) : Type :=
| Ok (a : A)
| Raise (e : exn)
| OutOfFuel.

Arguments Ok {A} a.
Arguments Raise {A} e.
Arguments OutOfFuel {A}.

#[export] Instance res_ret : MRet res := fun A a => Ok a.

#[export] Instance res_bind : MBind res := fun A B k r =>
  match r with
  | Ok a => k a
  | Raise e => Raise e
  | OutOfFuel => OutOfFuel
  end.

(** ** Scalars *)

(** The operations the program applies to its numbers: the conversion of
    an integer, [np.pi], [+ - * /], [np.abs], and the comparisons [<],
    [<=], [==] as booleans. *)
Class Arith (F : Type) : Type := {
  of_int : Z -> F;
  pi : F;
  fadd : F -> F -> F;
  fsub : F -> F -> F;
  fmul : F -> F -> F;
  fdiv : F -> F -> F;
  fabs : F -> F;
  flt : F -> F -> bool;
  fle : F -> F -> bool;
  feq : F -> F -> bool
}.

Infix "⊕" := fadd (at level 50, left associativity).
Infix "⊖" := fsub (at level 50, left associativity).
Infix "⊗" := fmul (at level 40, left associativity).
Infix "⊘" := fdiv (at level 40, left associativity).
(** [x > y], [x >= y] and [x == y] *)
Notation "x ≻ y" := (flt y x) (at level 70, no associativity).
Notation "x ≽ y" := (fle y x) (at level 70, no associativity).
Notation "x ≗ y" := (feq x y) (at level 70, no associativity).

(** [np.exp(1j * x)] as a pair (real part, imaginary part), and
    [np.fft.ifft] on an array of such pairs. *)
Class NumLib (F : Type) : Type := {
  cexp_j : F -> F * F;
  ifft : list (F * F) -> list (F * F)
}.

(** [np.fft.ifft] returns as many points as it is given. *)
Class NumLibLaws (F : Type) `{NumLib F} : Prop := {
  ifft_length : forall U : list (F * F), length (ifft U) = length U
}.

(** What the loop tests use of the order: [x >= y] excludes [y > x]. *)
Class OrderLaws (F : Type) `{Arith F} : Prop := {
  fle_not_flt : forall a b : F, fle a b = true -> flt b a = false
}.

(** ** NumPy array primitives *)

Section Arrays.
Context {A : Type}.

(** [l[i]] for a non-negative index. *)
Definition getitem (l : list A) (i : nat) : res A :=
  match l !! i with
  | Some x => Ok x
  | None => Raise IndexError
  end.

(** An integer index into an axis of length [n]: negative indices count
    from the end, anything outside [-n, n) is an [IndexError]. *)
Definition norm_index (n : nat) (j : Z) : res nat :=
  if (0 <=? j)%Z && (j <? Z.of_nat n)%Z then Ok (Z.to_nat j)
  else if (- Z.of_nat n <=? j)%Z && (j <? 0)%Z then Ok (Z.to_nat (Z.of_nat n + j))
  else Raise IndexError.

(** [l[j] = x] *)
Definition setitem (l : list A) (j : Z) (x : A) : res (list A) :=
  i ← norm_index (length l) j; Ok (<[i := x]> l).

(** [l[js] = x] for an integer index array [js]. *)
Fixpoint setitems (l : list A) (js : list Z) (x : A) : res (list A) :=
  match js with
  | [] => Ok l
  | j :: js' => l' ← setitem l j x; setitems l' js' x
  end.

(** [np.tile(u, (1, 1, p))]: every row of the last axis [p] times. *)
Definition np_tile_last (u : list (list (list A))) (p : nat) : list (list (list A)) :=
  map (map (fun row => concat (replicate p row))) u.

(** [us.reshape(nr_inputs, -1)] of a three-dimensional array whose first
    axis has length [nr_inputs]: NumPy cannot infer the second axis of an
    empty array with [nr_inputs = 0] and raises [ValueError]. *)
Definition reshape_rows (us : list (list (list A))) : res (list (list A)) :=
  match us with
  | [] => Raise ValueError
  | _ => Ok (map (@concat A) us)
  end.

(** [arr[:, i, :] = X] *)
Definition set_trial (arr : list (list (list A))) (i : nat) (X : list (list A))
  : list (list (list A)) :=
  zip_with (fun chan row => <[i := row]> chan) arr X.
End Arrays.

(** [np.arange(lo, hi)] *)
Definition arange (lo hi : Z) : list Z :=
  map (fun k => (lo + Z.of_nat k)%Z) (seq 0 (Z.to_nat (hi - lo))).

(** [np.where(b)[0]]: the positions that hold [True], in order. *)
Fixpoint np_where_from (k : nat) (b : list bool) : list nat :=
  match b with
  | [] => []
  | x :: b' => if x then k :: np_where_from (S k) b' else np_where_from (S k) b'
  end.

Definition np_where (b : list bool) : list nat := np_where_from 0 b.

(** An array of shape [(nr_inputs, m, N)]. *)
Definition shape3 {A : Type} (u : list (list (list A))) (nr_inputs m N : nat) : Prop :=
  length u = nr_inputs /\
  Forall (fun chan => length chan = m /\ Forall (fun row => length row = N) chan) u.

(** An array of shape [(nr_inputs, N)]. *)
Definition shape2 {A : Type} (u : list (list A)) (nr_inputs N : nat) : Prop :=
  length u = nr_inputs /\ Forall (fun row => length row = N) u.

(** ** The class ExcitationSignal *)

Record ExcitationSignal (F : Type) : Type := {
  freq_range : F * F;
  f : F;
  N : nat;
  amp : F;
  eps : F;
  df : F;
  T : F;
  t_stamp : list F;
  f_stamp : list F;
  idx : nat * nat
}.

Arguments freq_range {F} _.
Arguments f {F} _.
Arguments N {F} _.
Arguments amp {F} _.
Arguments eps {F} _.
Arguments df {F} _.
Arguments T {F} _.
Arguments t_stamp {F} _.
Arguments f_stamp {F} _.
Arguments idx {F} _.

Section Model.
Context {F : Type} `{Arith F}.

Definition zero : F := of_int 0.
Definition of_nat (n : nat) : F := of_int (Z.of_nat n).
Definition isnan (x : F) : bool := negb (x ≗ x).

Definition get_freq_index (freq_range : F * F) (f_stamp : list F) : res (nat * nat) :=
  lo ← getitem (np_where (map (fun x => x ≗ freq_range.1) f_stamp)) 0;
  hi ← getitem (np_where (map (fun x => x ≗ freq_range.2) f_stamp)) 0;
  Ok (lo, hi).

Definition get_freq_stamp (f : F) (N : nat) : list F :=
  map (fun i => of_int i ⊘ of_nat N ⊗ f) (arange 0 (Z.of_nat N)).

Definition get_time_stamp (f : F) (N : nat) : list F :=
  map (fun i => of_int i ⊘ f) (arange 0 (Z.of_nat N)).

(** Python's scalar division raises on a zero divisor. *)
Definition get_total_time (df : F) : res F :=
  if df ≗ zero then Raise ZeroDivisionError else Ok (of_int 1 ⊘ df).

Definition get_sampling_interval (f : F) (N : nat) : res F :=
  if decide (N = 0) then Raise ZeroDivisionError else Ok (f ⊘ of_nat N).

Definition initialization (freq_range : F * F) (f : F) (N : nat)
  : res (F * F * list F * list F * (nat * nat)) :=
  df ← get_sampling_interval f N;
  T ← get_total_time df;
  let t_stamp := get_time_stamp f N in
  let f_stamp := get_freq_stamp f N in
  idx ← get_freq_index freq_range f_stamp;
  Ok (df, T, t_stamp, f_stamp, idx).

(** [ExcitationSignal(freq_range, f, N, amp, eps)] *)
Definition init (freq_range : F * F) (f : F) (N : nat) (amp eps : F)
  : res (ExcitationSignal F) :=
  '(df, T, t_stamp, f_stamp, idx) ← initialization freq_range f N;
  Ok {| freq_range := freq_range; f := f; N := N; amp := amp; eps := eps;
        df := df; T := T; t_stamp := t_stamp; f_stamp := f_stamp; idx := idx |}.

Definition _get_frequency_amplitude (N : nat) (amp : F) (idx : Z * Z) : res (list F) :=
  let U_amp := replicate N zero in
  let idx_vector := arange idx.1 (idx.2 + 1) in
  U_amp ← setitems U_amp idx_vector amp;
  setitem U_amp 0 zero.

Section Random.
(** The numbers [np.random.rand] returns, in the order it returns them. *)
Variable draws : nat -> F.

(** [np.random.rand(N) * 2 * np.pi], reading [N] numbers at the cursor. *)
Definition _get_random_phase (N : nat) (pos : nat) : list F * nat :=
  (map (fun k => draws (pos + k) ⊗ of_int 2 ⊗ pi) (seq 0 N), pos + N).
End Random.

(** [np.abs(u)] and [np.max]: the reduction keeps the accumulator when
    it is not smaller or is NaN, so a NaN anywhere gives NaN; an empty
    array has no maximum. *)
Definition np_maximum (a b : F) : F :=
  if (a ≽ b) || isnan a then a else b.

Definition np_max (l : list F) : res F :=
  match l with
  | [] => Raise ValueError
  | x :: t => Ok (foldl np_maximum x t)
  end.

Definition _get_normalization (u : list F) : res (list F) :=
  M ← np_max (map fabs u); Ok (map (fun x => x ⊘ M) u).
End Model.

Section Signals.
Context {F : Type} `{Arith F} `{NumLib F}.
Variable draws : nat -> F.

(** [U_amp * np.exp(1j * U_phase)], elementwise on two arrays of the same
    length. *)
Definition _get_complex_signal (U_amp U_phase : list F) : list (F * F) :=
  zip_with (fun a ph => (a ⊗ (cexp_j ph).1, a ⊗ (cexp_j ph).2)) U_amp U_phase.

Definition get_frequency_signal (N : nat) (amp : F) (idx : Z * Z) (pos : nat)
  : res (list (F * F) * list F * list F * nat) :=
  U_amp ← _get_frequency_amplitude N amp idx;
  let '(U_phase, pos') := _get_random_phase draws N pos in
  let U := _get_complex_signal U_amp U_phase in
  Ok (U, U_amp, U_phase, pos').

(** [np.real(np.fft.ifft(U))] *)
Definition get_time_signal (U : list (F * F)) : list F :=
  map fst (ifft U).

(** The signal of one channel: the normalised real inverse transform of
    [U_amp * exp(j * U_phase)]. *)
Definition channel_signal (U_amp U_phase : list F) : res (list F) :=
  _get_normalization (get_time_signal (_get_complex_signal U_amp U_phase)).

(** [np.abs(u[0] - u[1])] *)
Definition first_step (u : list F) : res F :=
  u0 ← getitem u 0; u1 ← getitem u 1; Ok (fabs (u0 ⊖ u1)).

(** One round of the [while] body: a fresh signal and its [diff]. *)
Definition attempt (N : nat) (amp : F) (idx : Z * Z) (pos : nat)
  : res (list F * list F * F * nat) :=
  '(U, U_amp, U_phase, pos') ← get_frequency_signal N amp idx pos;
  u ← _get_normalization (get_time_signal U);
  diff ← first_step u;
  Ok (U_amp, U_phase, diff, pos').

(** The [while diff > self.eps] loop.  [last] holds [U_amp, U_phase] once
    the body has run; they are unbound before. *)
Fixpoint feasible_loop (fuel : nat) (eps : F) (N : nat) (amp : F) (idx : Z * Z)
    (diff : F) (last : option (list F * list F)) (pos : nat)
  : res (list F * list F * nat) :=
  if diff ≻ eps then
    match fuel with
    | O => OutOfFuel
    | S fuel' =>
        '(U_amp, U_phase, diff', pos') ← attempt N amp idx pos;
        feasible_loop fuel' eps N amp idx diff' (Some (U_amp, U_phase)) pos'
    end
  else
    match last with
    | Some (U_amp, U_phase) => Ok (U_amp, U_phase, pos)
    | None => Raise UnboundLocalError
    end.

Definition get_one_feasible_signal (fuel : nat) (eps : F) (N : nat) (amp : F)
    (idx : Z * Z) (pos : nat) : res (list F * list F * nat) :=
  feasible_loop fuel eps N amp idx (of_int 1000) None pos.

(** Every search of the run comes back with a pair. *)
Definition search_returns (fuel : nat) (eps : F) (N : nat) (amp : F) (idx : Z * Z) : Prop :=
  forall pos, exists U_amp U_phase pos',
    get_one_feasible_signal fuel eps N amp idx pos = Ok (U_amp, U_phase, pos').

(** [2 * np.pi * i / nr_inputs] *)
Definition phase_shift (i nr_inputs : nat) : F :=
  of_int 2 ⊗ pi ⊗ of_nat i ⊘ of_nat nr_inputs.

(** The phase row of channel [i]: [_U_phase + phase_shift]. *)
Definition shifted (nr_inputs i : nat) (U_phase0 : list F) : list F :=
  map (fun x => x ⊕ phase_shift i nr_inputs) U_phase0.

(** The three arrays [get_signals] fills, row by row. *)
Definition banks : Type := list (list F) * list (list F) * list (list F).

(** The body of [for i in range(nr_inputs)] in mode ['orthogonal']. *)
Definition orthogonal_row (nr_inputs : nat) (_U_amp _U_phase : list F)
    (b : banks) (i : nat) : res banks :=
  let '(U_amp, U_phase, u) := b in
  let U_amp := <[i := _U_amp]> U_amp in
  let U_phase := <[i := map (fun x => x ⊕ phase_shift i nr_inputs) _U_phase]> U_phase in
  a ← getitem U_amp i;
  ph ← getitem U_phase i;
  let U := _get_complex_signal a ph in
  row ← _get_normalization (get_time_signal U);
  Ok (U_amp, U_phase, <[i := row]> u).

Fixpoint orthogonal_rows (nr_inputs : nat) (_U_amp _U_phase : list F)
    (b : banks) (ks : list nat) : res banks :=
  match ks with
  | [] => Ok b
  | i :: ks' =>
      b' ← orthogonal_row nr_inputs _U_amp _U_phase b i;
      orthogonal_rows nr_inputs _U_amp _U_phase b' ks'
  end.

(** The body of [for i in range(nr_inputs)] in mode ['random']. *)
Definition random_row (fuel : nat) (eps : F) (N : nat) (amp : F) (idx : Z * Z)
    (st : banks * nat) (i : nat) : res (banks * nat) :=
  let '(U_amp, U_phase, u, pos) := st in
  '(a, ph, pos') ← get_one_feasible_signal fuel eps N amp idx pos;
  let U_amp := <[i := a]> U_amp in
  let U_phase := <[i := ph]> U_phase in
  a ← getitem U_amp i;
  ph ← getitem U_phase i;
  let U := _get_complex_signal a ph in
  row ← _get_normalization (get_time_signal U);
  Ok (U_amp, U_phase, <[i := row]> u, pos').

Fixpoint random_rows (fuel : nat) (eps : F) (N : nat) (amp : F) (idx : Z * Z)
    (st : banks * nat) (ks : list nat) : res (banks * nat) :=
  match ks with
  | [] => Ok st
  | i :: ks' =>
      st' ← random_row fuel eps N amp idx st i;
      random_rows fuel eps N amp idx st' ks'
  end.

Definition get_signals (fuel : nat) (eps : F) (N : nat) (amp : F) (nr_inputs : nat)
    (idx : Z * Z) (mode : string) (pos : nat) : res (banks * nat) :=
  let U_amp := replicate nr_inputs (replicate N zero) in
  let U_phase := replicate nr_inputs (replicate N zero) in
  let u := replicate nr_inputs (replicate N zero) in
  if String.eqb mode "orthogonal" then
    '(_U_amp, _U_phase, pos') ← get_one_feasible_signal fuel eps N amp idx pos;
    b ← orthogonal_rows nr_inputs _U_amp _U_phase (U_amp, U_phase, u) (seq 0 nr_inputs);
    Ok (b, pos')
  else if String.eqb mode "random" then
    random_rows fuel eps N amp idx (U_amp, U_phase, u, pos) (seq 0 nr_inputs)
  else Ok (U_amp, U_phase, u, pos).

(** [get_repeat_signals(u, p)] *)
Definition get_repeat_signals {A : Type} (u : list (list (list A))) (p : nat)
  : res (list (list A)) :=
  let us := np_tile_last u p in
  reshape_rows us.

(** The three three-dimensional arrays [get_multi_signals] fills. *)
Definition banks3 : Type :=
  list (list (list F)) * list (list (list F)) * list (list (list F)).

(** [for i in tqdm(range(m))] *)
Fixpoint trials (fuel : nat) (self : ExcitationSignal F) (nr_inputs : nat)
    (mode : string) (st : banks3 * nat) (ks : list nat) : res (banks3 * nat) :=
  match ks with
  | [] => Ok st
  | i :: ks' =>
      let '(U_amp, U_phase, u, pos) := st in
      '(a, ph, x, pos') ← get_signals fuel (eps self) (N self) (amp self) nr_inputs
                            (Z.of_nat (idx self).1, Z.of_nat (idx self).2) mode pos;
      trials fuel self nr_inputs mode
        (set_trial U_amp i a, set_trial U_phase i ph, set_trial u i x, pos') ks'
  end.

Definition get_multi_signals (fuel : nat) (self : ExcitationSignal F) (m p nr_inputs : nat)
    (mode : string) (pos : nat)
  : res (list (list (list F)) * list (list (list F)) * list (list (list F))
         * list (list F) * nat) :=
  let U_amp := replicate nr_inputs (replicate m (replicate (N self) zero)) in
  let U_phase := replicate nr_inputs (replicate m (replicate (N self) zero)) in
  let u := replicate nr_inputs (replicate m (replicate (N self) zero)) in
  '(U_amp, U_phase, u, pos') ←
    trials fuel self nr_inputs mode (U_amp, U_phase, u, pos) (seq 0 m);
  us ← get_repeat_signals u p;
  Ok (U_amp, U_phase, u, us, pos').
End Signals.

(** ** The scalars of the program: IEEE binary64 *)

Module Float64.
(** An integer as the nearest binary64 number (integers below [2^63] in
    absolute value, which covers every array index and size). *)
Definition of_Z (z : Z) : float :=
  match z with
  | Z0 => 0%float
  | Zpos _ => PrimFloat.of_uint63 (Uint63.of_Z z)
  | Zneg p => (- PrimFloat.of_uint63 (Uint63.of_Z (Zpos p)))%float
  end.

(** [np.pi] *)
Definition np_pi : float := 0x1.921fb54442d18p+1%float.

#[global] Instance arith : Arith float := {|
  of_int := of_Z;
  pi := np_pi;
  fadd := PrimFloat.add;
  fsub := PrimFloat.sub;
  fmul := PrimFloat.mul;
  fdiv := PrimFloat.div;
  fabs := PrimFloat.abs;
  flt := PrimFloat.ltb;
  fle := PrimFloat.leb;
  feq := PrimFloat.eqb
|}.

(** [np.isfinite] *)
Definition is_finite (x : float) : bool :=
  negb (PrimFloat.is_nan x) && negb (PrimFloat.is_infinity x).

(** The default tolerance [eps=1e-1]. *)
Definition eps_default : float := 0x1.999999999999ap-4%float.
End Float64.

(** ** Spec floats of magnitude at most one *)

Module SF64.
Open Scope Z_scope.

(** [1.0] *)
Definition SF_one : spec_float := S754_finite false 4503599627370496 (-52).

(** A non-negative finite value. *)
Definition nonneg_finite (z : spec_float) : Prop :=
  z = S754_zero false \/ exists m e, z = S754_finite false m e.

(** A value of sign [s] and magnitude at most one. *)
Definition le_one (s : bool) (z : spec_float) : Prop :=
  z = S754_zero s \/
  exists m e, z = S754_finite s m e /\ (e < -52 \/ (e = -52 /\ Zpos m <= 2 ^ 52)).

(** Zero, a positive finite number or [+inf]. *)
Definition nonneg (z : spec_float) : Prop :=
  match z with
  | S754_zero false | S754_finite false _ _ | S754_infinity false => True
  | _ => False
  end.

(** [2^e] as a real number, for any integer [e]. *)
Definition bpow (e : Z) : R := powerRZ 2 e.

(** The value of a positive finite number. *)
Definition fval (m : positive) (e : Z) : R := (IZR (Zpos m) * bpow e)%R.

(** The real number [v] lies in the cell [[m, m + 1) * 2^e] at the place
    that the location [l] names: on [m], below, at or above the middle. *)
Definition located (v : R) (m e : Z) (l : location) : Prop :=
  match l with
  | loc_Exact => v = (IZR m * bpow e)%R
  | loc_Inexact Lt =>
      (IZR m * bpow e < v)%R /\ (2 * v < (2 * IZR m + 1) * bpow e)%R
  | loc_Inexact Eq => (2 * v = (2 * IZR m + 1) * bpow e)%R
  | loc_Inexact Gt =>
      ((2 * IZR m + 1) * bpow e < 2 * v)%R /\ (v < (IZR m + 1) * bpow e)%R
  end.

(** The end of a rounding to nearest of a non-negative value: a carry into
    bit 54 is shifted out and the result is packed. *)
Definition pack (m2 E : Z) : spec_float :=
  let '(mrs'', e'') := shr_fexp prec emax m2 E loc_Exact in
  match shr_m mrs'' with
  | Z0 => S754_zero false
  | Zpos m => if e'' <=? emax - prec then S754_finite false m e'' else S754_infinity false
  | _ => S754_nan
  end.
End SF64.

(** ** The same program in exact arithmetic *)

Module Real.
Definition ltb (x y : R) : bool := if Rlt_dec x y then true else false.
Definition leb (x y : R) : bool := if Rle_dec x y then true else false.
Definition eqb (x y : R) : bool := if Req_dec_T x y then true else false.

(** Division is [Rdiv], which is total: [x / 0 = 0], where NumPy returns
    NaN or an infinity.  This instance therefore reads the program only
    where no division by zero occurs: the properties stated in exact
    arithmetic that go through [_get_normalization] are about signals that
    are not identically zero. *)
#[global] Instance arith : Arith R := {|
  of_int := IZR;
  pi := PI;
  fadd := Rplus;
  fsub := Rminus;
  fmul := Rmult;
  fdiv := Rdiv;
  fabs := Rabs;
  flt := ltb;
  fle := leb;
  feq := eqb
|}.

Definition cmul (a b : R * R) : R * R :=
  (a.1 * b.1 - a.2 * b.2, a.1 * b.2 + a.2 * b.1)%R.

Definition cadd (a b : R * R) : R * R := (a.1 + b.1, a.2 + b.2)%R.

(** [exp(j x) = cos x + j sin x] *)
Definition cis (x : R) : R * R := (cos x, sin x).

(** The inverse discrete Fourier transform,
    [x[t] = 1/n * sum_k U[k] * exp(2 pi j k t / n)]. *)
Definition idft (U : list (R * R)) : list (R * R) :=
  let n := length U in
  map (fun t =>
         let s := foldr cadd (0, 0)%R
                    (imap (fun k z =>
                             cmul z (cis (2 * PI * INR k * INR t / INR n))) U) in
         (s.1 / INR n, s.2 / INR n)%R)
      (seq 0 n).

#[global] Instance numlib : NumLib R := {| cexp_j := cis; ifft := idft |}.
End Real.

(** ** Finite sums of real numbers *)

(** [f 0 + f 1 + ... + f (n - 1)] *)
Fixpoint real_sum (n : nat) (f : nat -> R) : R :=
  match n with
  | O => 0%R
  | S n' => (real_sum n' f + f n')%R
  end.

(** ** A run on four points, in exact arithmetic *)

Module Example.
Open Scope R_scope.

(** [exp(j m pi/2)] for a natural number [m]. *)
Fixpoint quarter (m : nat) : R * R :=
  match m with
  | O => (1, 0)
  | S m' => (- (quarter m').2, (quarter m').1)
  end.

(** The generator hands out [0, 1/2, 0, 0, 0, ...]: the random phases of
    the first signal are [0, pi, 0, 0]. *)
Definition draws_ex (k : nat) : R := match k with 1%nat => 1 / 2 | _ => 0 end.
Definition U_amp_ex : list R := [0; 1; 1; 0].
Definition U_phase_ex : list R := [0 * 2 * PI; 1 / 2 * 2 * PI; 0 * 2 * PI; 0 * 2 * PI].

(** The synthesizer of the run: [f = 4], [N = 4], band [(1, 2)]. *)
Definition self_ex (eps0 : R) : ExcitationSignal R :=
  {| freq_range := (1, 2); f := 4; N := 4; amp := 1; eps := eps0;
     df := 1; T := 1; t_stamp := get_time_stamp 4 4;
     f_stamp := get_freq_stamp 4 4; idx := (1%nat, 2%nat) |}.
End Example.

(** * Properties *)

(** ** Blocks of a concatenation *)

Section Blocks.
Context {A : Type}.
Implicit Types (l row : list A) (ls : list (list A)).

Lemma length_concat_uniform ls L :
  Forall (fun b => length b = L) ls -> length (concat ls) = length ls * L.
Proof.
  induction 1 as [|b ls Hb _ IH]; simpl; [done|].
  rewrite length_app, IH, Hb. lia.
Qed.

Lemma concat_block ls L j b :
  Forall (fun b => length b = L) ls ->
  ls !! j = Some b ->
  take L (drop (j * L) (concat ls)) = b.
Proof.
  intros Hall. revert j b.
  induction Hall as [|b0 ls Hb0 _ IH]; intros j b Hj; [done|].
  destruct j as [|j]; simpl in *.
  - injection Hj as ->. rewrite drop_0, take_app_length'; done.
  - rewrite drop_app_ge by lia.
    replace (L + j * L - length b0) with (j * L) by lia. by apply IH.
Qed.

Lemma take_drop_within l a n L :
  a + n <= L -> take n (drop a l) = take n (drop a (take L l)).
Proof.
  intros Hle. rewrite !take_drop_commute, take_take.
  by replace (Nat.min (a + n) L) with (a + n) by lia.
Qed.

Lemma Forall_replicate_length p row :
  Forall (fun b => length b = length row) (replicate p row).
Proof. induction p; simpl; constructor; auto. Qed.

Lemma length_tile p row : length (concat (replicate p row)) = p * length row.
Proof.
  rewrite (length_concat_uniform _ (length row)), length_replicate; [done|].
  apply Forall_replicate_length.
Qed.

Lemma tile_block p row k :
  k < p -> take (length row) (drop (k * length row) (concat (replicate p row))) = row.
Proof.
  intros Hk. apply concat_block; [apply Forall_replicate_length|].
  by apply lookup_replicate_2.
Qed.
End Blocks.

Section Repeat.
Context {A : Type}.
Implicit Types (u : list (list (list A))) (chan : list (list A)).

Lemma tiled_channel_length chan m N p :
  length chan = m -> Forall (fun row => length row = N) chan ->
  length (concat (map (fun row => concat (replicate p row)) chan)) = m * p * N.
Proof.
  intros Hm Hrows.
  rewrite (length_concat_uniform _ (p * N)), length_map; [lia|].
  apply Forall_map. eapply Forall_impl; [exact Hrows|].
  intros row Hrow. simpl. by rewrite length_tile, Hrow.
Qed.

Lemma tiled_channel_block chan N p j k trial :
  Forall (fun row => length row = N) chan ->
  chan !! j = Some trial -> k < p ->
  take N (drop (j * p * N + k * N)
            (concat (map (fun row => concat (replicate p row)) chan))) = trial.
Proof.
  intros Hrows Hj Hk.
  assert (HN : length trial = N).
  { eapply Forall_lookup_1 in Hrows; eauto. }
  set (big := concat _).
  assert (Hblk : take (p * N) (drop (j * (p * N)) big) = concat (replicate p trial)).
  { apply concat_block.
    - apply Forall_map. eapply Forall_impl; [exact Hrows|].
      intros row Hrow. simpl. by rewrite length_tile, Hrow.
    - by rewrite list_lookup_fmap, Hj. }
  replace (j * p * N + k * N) with (j * (p * N) + k * N) by lia.
  rewrite <- drop_drop.
  rewrite (take_drop_within _ _ _ (p * N)) by nia.
  rewrite Hblk, <- HN. by apply tile_block.
Qed.
End Repeat.

(** ** get_repeat_signals *)

(** C3: for an array [u] of shape [(nr_inputs, m, N)], [get_repeat_signals]
    returns (whenever [nr_inputs] is not zero) an array [us] with one row
    per channel, every row of length [m*p*N], and the slice
    [us[c, j*p*N + k*N : j*p*N + (k+1)*N]] is [u[c, j, :]] for every
    channel [c], trial [j] and repeat [k < p]. *)
Theorem get_repeat_signals_blocks {A : Type} (u : list (list (list A)))
    (nr_inputs m N p : nat) :
  shape3 u nr_inputs m N ->
  (nr_inputs <> 0 -> exists us, get_repeat_signals u p = Ok us) /\
  (forall us, get_repeat_signals u p = Ok us ->
     length us = nr_inputs /\
     (forall c row, us !! c = Some row -> length row = m * p * N) /\
     (forall c j k chan trial,
        u !! c = Some chan -> chan !! j = Some trial -> k < p ->
        exists row, us !! c = Some row /\
                    take N (drop (j * p * N + k * N) row) = trial)).
Proof.
  intros [Hnr Hshape]. unfold get_repeat_signals, reshape_rows, np_tile_last.
  split.
  - intros Hne. destruct u; [simpl in Hnr; congruence|]. eauto.
  - intros us Hus.
    assert (Heq : us = map (fun chan => concat (map (fun row => concat (replicate p row)) chan)) u).
    { destruct u; [discriminate|]. injection Hus as <-.
      by rewrite <- list_fmap_compose. }
    subst us. clear Hus. split; [by rewrite length_map|]. split.
    + intros c row Hc. rewrite list_lookup_fmap in Hc.
      destruct (u !! c) as [chan|] eqn:Hchan; [|done]. injection Hc as <-.
      eapply Forall_lookup_1 in Hshape as [Hm Hrows]; [|exact Hchan].
      by apply tiled_channel_length.
    + intros c j k chan trial Hchan Hj Hk.
      eexists. split; [by rewrite list_lookup_fmap, Hchan|].
      eapply Forall_lookup_1 in Hshape as [Hm Hrows]; [|exact Hchan].
      by apply tiled_channel_block.
Qed.

(** The statement of C3 at a two-channel, two-trial array. *)
Lemma get_repeat_signals_blocks_witness :
  shape3 [[[1; 2]; [3; 4]]; [[5; 6]; [7; 8]]] 2 2 2 /\
  ((2 <> 0 -> exists us, get_repeat_signals [[[1; 2]; [3; 4]]; [[5; 6]; [7; 8]]] 3 = Ok us) /\
   (forall us, get_repeat_signals [[[1; 2]; [3; 4]]; [[5; 6]; [7; 8]]] 3 = Ok us ->
     length us = 2 /\
     (forall c row, us !! c = Some row -> length row = 2 * 3 * 2) /\
     (forall c j k chan trial,
        [[[1; 2]; [3; 4]]; [[5; 6]; [7; 8]]] !! c = Some chan ->
        chan !! j = Some trial -> k < 3 ->
        exists row, us !! c = Some row /\
                    take 2 (drop (j * 3 * 2 + k * 2) row) = trial))).
Proof.
  assert (Hs : shape3 [[[1; 2]; [3; 4]]; [[5; 6]; [7; 8]]] 2 2 2).
  { split; [reflexivity|]. repeat constructor. }
  split; [exact Hs|].
  exact (get_repeat_signals_blocks [[[1; 2]; [3; 4]]; [[5; 6]; [7; 8]]] 2 2 2 3 Hs).
Defined.

(** ** Index assignment *)

Section SetItems.
Context {A : Type}.
Implicit Types (l : list A) (x : A).

Lemma norm_index_nat n j : j < n -> norm_index n (Z.of_nat j) = Ok j.
Proof.
  intros Hj. unfold norm_index.
  replace (0 <=? Z.of_nat j)%Z with true by (symmetry; apply Z.leb_le; lia).
  replace (Z.of_nat j <? Z.of_nat n)%Z with true by (symmetry; apply Z.ltb_lt; lia).
  simpl. by rewrite Nat2Z.id.
Qed.

Lemma setitem_nat l j x : j < length l -> setitem l (Z.of_nat j) x = Ok (<[j := x]> l).
Proof. intros Hj. unfold setitem. by rewrite norm_index_nat. Qed.

(** Assigning [x] at the indices [lo, lo+1, ..., lo+n-1], all in range. *)
Lemma setitems_range l lo n x :
  lo + n <= length l ->
  exists l', setitems l (map Z.of_nat (seq lo n)) x = Ok l' /\
             length l' = length l /\
             forall i, l' !! i = if decide (lo <= i < lo + n) then Some x else l !! i.
Proof.
  revert l lo. induction n as [|n IH]; intros l lo Hle.
  - exists l. repeat split; [done..|]. intros i. case_decide; [lia|done].
  - simpl. rewrite setitem_nat by lia. simpl.
    destruct (IH (<[lo := x]> l) (S lo)) as (l' & Hl' & Hlen & Hlook).
    { rewrite length_insert. lia. }
    exists l'. split; [done|]. split; [by rewrite Hlen, length_insert|].
    intros i. rewrite Hlook.
    destruct (decide (i = lo)) as [->|Hne].
    + rewrite decide_False by lia. rewrite decide_True by lia.
      apply list_lookup_insert_eq. lia.
    + rewrite list_lookup_insert_ne by done.
      repeat case_decide; try done; lia.
Qed.

Lemma arange_nat (lo hi : nat) :
  arange (Z.of_nat lo) (Z.of_nat hi + 1) = map Z.of_nat (seq lo (S hi - lo)).
Proof.
  unfold arange.
  replace (Z.to_nat (Z.of_nat hi + 1 - Z.of_nat lo)) with (S hi - lo) by lia.
  generalize (S hi - lo) as n. intros n.
  apply list_eq. intros i. rewrite !list_lookup_fmap.
  destruct (decide (i < n)) as [Hi|Hi].
  - rewrite !lookup_seq_lt by done. simpl. f_equal. lia.
  - rewrite !lookup_seq_ge by lia. done.
Qed.
End SetItems.

(** ** The amplitude array *)

Section Amplitude.
Context {F : Type} `{Arith F}.

Lemma frequency_amplitude_spec (N : nat) (amp : F) (lo hi : Z) :
  (0 <= lo)%Z -> (lo <= hi)%Z -> (hi < Z.of_nat N)%Z ->
  exists U_amp,
    _get_frequency_amplitude N amp (lo, hi) = Ok U_amp /\
    length U_amp = N /\
    forall i, i < N ->
      U_amp !! i = Some (if decide (i = 0) then zero
                         else if decide (lo <= Z.of_nat i <= hi)%Z then amp
                         else zero).
Proof.
  intros Hlo Hle Hhi. unfold _get_frequency_amplitude. simpl.
  rewrite <- (Z2Nat.id lo), <- (Z2Nat.id hi) by lia.
  rewrite arange_nat.
  destruct (setitems_range (replicate N zero) (Z.to_nat lo)
              (S (Z.to_nat hi) - Z.to_nat lo) amp) as (l' & Hl' & Hlen & Hlook).
  { rewrite length_replicate. lia. }
  rewrite Hl'. simpl. rewrite length_replicate in Hlen.
  rewrite (setitem_nat l' 0) by lia.
  eexists. split; [done|]. split; [by rewrite length_insert|].
  intros i Hi. destruct (decide (i = 0)) as [->|Hne].
  - apply list_lookup_insert_eq. lia.
  - rewrite list_lookup_insert_ne by done. rewrite Hlook.
    rewrite !Z2Nat.id by lia.
    destruct (decide (lo <= Z.of_nat i <= hi)%Z).
    + rewrite decide_True by lia. done.
    + rewrite decide_False by lia. by apply lookup_replicate_2.
Qed.
End Amplitude.

Section Search.
Context {F : Type} `{Arith F} `{NumLib F}.
Variable draws : nat -> F.

Lemma attempt_inv N amp idx pos U_amp U_phase diff pos' :
  attempt draws N amp idx pos = Ok (U_amp, U_phase, diff, pos') ->
  _get_frequency_amplitude N amp idx = Ok U_amp /\
  U_phase = (_get_random_phase draws N pos).1 /\
  pos' = pos + N /\
  exists u, _get_normalization
              (get_time_signal (_get_complex_signal U_amp U_phase)) = Ok u /\
            first_step u = Ok diff.
Proof.
  unfold attempt, get_frequency_signal. intros Hat.
  destruct (_get_frequency_amplitude N amp idx) as [A| |]; simpl in Hat; try done.
  destruct (_get_normalization _) as [u| |] eqn:Hu; simpl in Hat; try done.
  destruct (first_step u) as [d| |] eqn:Hd; simpl in Hat; try done.
  injection Hat as <- <- <- <-. split; [done|]. split; [done|]. split; [done|].
  exists u. split; [exact Hu|exact Hd].
Qed.

(** What the loop returns was produced by its last round, and that round
    ended the loop. *)
Lemma feasible_loop_inv fuel eps N amp idx diff last pos U_amp U_phase pos' :
  feasible_loop draws fuel eps N amp idx diff last pos = Ok (U_amp, U_phase, pos') ->
  (last = Some (U_amp, U_phase) /\ pos' = pos /\ (diff ≻ eps) = false) \/
  (exists pos0 d, attempt draws N amp idx pos0 = Ok (U_amp, U_phase, d, pos') /\
                  pos <= pos0 /\ (d ≻ eps) = false).
Proof.
  revert diff last pos. induction fuel as [|fuel IH]; intros diff last pos; simpl.
  - destruct (diff ≻ eps) eqn:Hd; [done|].
    destruct last as [[A P]|]; [|done]. intros [= <- <- <-]. by left.
  - destruct (diff ≻ eps) eqn:Hd.
    + destruct (attempt draws N amp idx pos) as [[[[A P] d] p1]| |] eqn:Hat;
        simpl; try done.
      intros Hloop. right. apply IH in Hloop as [(Hlast & -> & Hd')|(pos0 & d0 & Hat0 & Hle & Hd0)].
      * injection Hlast as <- <-. by exists pos, d.
      * exists pos0, d0. split; [done|]. split; [|done].
        apply attempt_inv in Hat as (_ & _ & -> & _). lia.
    + destruct last as [[A P]|]; [|done]. intros [= <- <- <-]. by left.
Qed.

Lemma get_one_feasible_signal_inv fuel eps N amp idx pos U_amp U_phase pos' :
  get_one_feasible_signal draws fuel eps N amp idx pos = Ok (U_amp, U_phase, pos') ->
  exists pos0 d, attempt draws N amp idx pos0 = Ok (U_amp, U_phase, d, pos') /\
                 pos <= pos0 /\ (d ≻ eps) = false.
Proof.
  unfold get_one_feasible_signal. intros Hloop.
  apply feasible_loop_inv in Hloop as [(Hlast & _)|Hex]; [done|exact Hex].
Qed.
End Search.

(** C6: for [0 <= idx_lo <= idx_hi < N], [_get_frequency_amplitude] returns
    an array of length [N] that is [0] at index [0], [amp] on the band
    [idx_lo..idx_hi] apart from index [0], and [0] elsewhere; it depends on
    [(N, amp, idx)] only, and every round of the feasibility search, and the
    pair the search returns, carry this same array. *)
Theorem frequency_amplitude_band {F : Type} `{Arith F} `{NumLib F}
    (N : nat) (amp : F) (idx_lo idx_hi : Z) :
  (0 <= idx_lo)%Z -> (idx_lo <= idx_hi)%Z -> (idx_hi < Z.of_nat N)%Z ->
  exists U_amp,
    _get_frequency_amplitude N amp (idx_lo, idx_hi) = Ok U_amp /\
    length U_amp = N /\
    U_amp !! 0 = Some zero /\
    (forall i, i < N ->
       U_amp !! i = Some (if decide (i = 0) then zero
                          else if decide (idx_lo <= Z.of_nat i <= idx_hi)%Z then amp
                          else zero)) /\
    (forall draws pos A P d pos',
       attempt draws N amp (idx_lo, idx_hi) pos = Ok (A, P, d, pos') -> A = U_amp) /\
    (forall draws fuel eps pos A P pos',
       get_one_feasible_signal draws fuel eps N amp (idx_lo, idx_hi) pos = Ok (A, P, pos') ->
       A = U_amp).
Proof.
  intros Hlo Hle Hhi.
  destruct (frequency_amplitude_spec N amp idx_lo idx_hi Hlo Hle Hhi)
    as (U_amp & HU & Hlen & Hlook).
  exists U_amp. split; [done|]. split; [done|]. split.
  { rewrite Hlook by lia. done. }
  split; [done|]. split.
  - intros draws pos A P d pos' Hat.
    apply attempt_inv in Hat as (HA & _). congruence.
  - intros draws fuel eps pos A P pos' Hs.
    apply get_one_feasible_signal_inv in Hs as (pos0 & d & Hat & _).
    apply attempt_inv in Hat as (HA & _). congruence.
Qed.

(** The statement of C6 at [N = 8], [amp = 100], band [(0, 5)], in exact
    arithmetic. *)
Lemma frequency_amplitude_band_witness :
  exists U_amp : list R,
    _get_frequency_amplitude 8 100%R (0, 5)%Z = Ok U_amp /\
    length U_amp = 8 /\
    U_amp !! 0 = Some zero /\
    (forall i, i < 8 ->
       U_amp !! i = Some (if decide (i = 0) then zero
                          else if decide (0 <= Z.of_nat i <= 5)%Z then 100%R
                          else zero)) /\
    (forall draws pos A P d pos',
       attempt draws 8 100%R (0, 5)%Z pos = Ok (A, P, d, pos') -> A = U_amp) /\
    (forall draws fuel eps pos A P pos',
       get_one_feasible_signal draws fuel eps 8 100%R (0, 5)%Z pos = Ok (A, P, pos') ->
       A = U_amp).
Proof.
  apply (frequency_amplitude_band (F := R) 8 100%R 0 5); lia.
Defined.

(** ** Looking a value up in the stamp *)

(** [np.where(b)[0][0]] is the first position that holds [True]; it raises
    [IndexError] exactly when there is none. *)
Lemma np_where_from_first (k : nat) (b : list bool) :
  match getitem (np_where_from k b) 0 with
  | Ok i => exists i', i = k + i' /\ b !! i' = Some true /\
                       forall j, j < i' -> b !! j = Some false
  | Raise e => e = IndexError /\ forall j, b !! j <> Some true
  | OutOfFuel => False
  end.
Proof.
  revert k. induction b as [|x b IH]; intros k; simpl.
  - split; [done|]. intros j. by rewrite lookup_nil.
  - destruct x; simpl.
    + exists 0. split; [lia|]. split; [done|]. intros j Hj. lia.
    + specialize (IH (S k)). destruct (getitem (np_where_from (S k) b) 0) as [i|e|].
      * destruct IH as (i' & -> & Hi & Hbefore). exists (S i').
        split; [lia|]. split; [done|].
        intros [|j] Hj; [done|]. simpl. apply Hbefore. lia.
      * destruct IH as [-> Hnone]. split; [done|].
        intros [|j]; [done|]. simpl. apply Hnone.
      * done.
Qed.

Lemma np_where_first (b : list bool) :
  match getitem (np_where b) 0 with
  | Ok i => b !! i = Some true /\ forall j, j < i -> b !! j = Some false
  | Raise e => e = IndexError /\ forall j, b !! j <> Some true
  | OutOfFuel => False
  end.
Proof.
  pose proof (np_where_from_first 0 b) as Hfirst. unfold np_where.
  destruct (getitem (np_where_from 0 b) 0) as [i|e|]; [|done..].
  destruct Hfirst as (i' & -> & Hi & Hbefore). done.
Qed.

Section Lookup.
Context {F : Type} `{Arith F}.
Implicit Types (f_stamp : list F) (v : F).

Lemma where_eq_found f_stamp v i :
  getitem (np_where (map (fun x => x ≗ v) f_stamp)) 0 = Ok i ->
  exists x, f_stamp !! i = Some x /\ (x ≗ v) = true /\
            forall j y, j < i -> f_stamp !! j = Some y -> (y ≗ v) = false.
Proof.
  intros Hget. pose proof (np_where_first (map (fun x => x ≗ v) f_stamp)) as Hfirst.
  rewrite Hget in Hfirst. destruct Hfirst as [Hi Hbefore].
  rewrite list_lookup_fmap in Hi.
  destruct (f_stamp !! i) as [x|] eqn:Hx; [|done]. injection Hi as Hi.
  exists x. split; [done|]. split; [done|].
  intros j y Hj Hy. specialize (Hbefore j Hj).
  rewrite list_lookup_fmap, Hy in Hbefore. by injection Hbefore.
Qed.

Lemma where_eq_absent f_stamp v :
  (forall x, x ∈ f_stamp -> (x ≗ v) = false) ->
  getitem (np_where (map (fun x => x ≗ v) f_stamp)) 0 = Raise IndexError.
Proof.
  intros Habs. pose proof (np_where_first (map (fun x => x ≗ v) f_stamp)) as Hfirst.
  destruct (getitem _ 0) as [i|e|]; [|by destruct Hfirst as [-> _]|done].
  destruct Hfirst as [Hi _]. rewrite list_lookup_fmap in Hi.
  destruct (f_stamp !! i) as [x|] eqn:Hx; [|done]. injection Hi as Hi.
  rewrite Habs in Hi; [done|]. by eapply list_elem_of_lookup_2.
Qed.

Lemma where_eq_present f_stamp v x :
  x ∈ f_stamp -> (x ≗ v) = true ->
  exists i, getitem (np_where (map (fun x => x ≗ v) f_stamp)) 0 = Ok i.
Proof.
  intros Hin Hx. pose proof (np_where_first (map (fun x => x ≗ v) f_stamp)) as Hfirst.
  destruct (getitem _ 0) as [i|e|]; [by exists i| |done].
  destruct Hfirst as [_ Hnone]. apply list_elem_of_lookup_1 in Hin as [j Hj].
  exfalso. apply (Hnone j). by rewrite list_lookup_fmap, Hj, <- Hx.
Qed.
End Lookup.

(** C4: when [get_freq_index] returns [(i_lo, i_hi)], the stamp holds a
    value equal ([==]) to [f_lo] at [i_lo] and one equal to [f_hi] at
    [i_hi]; when an endpoint equals no entry of the stamp the call raises
    (the [IndexError] of the subscript [[0]] on an empty result, the failure
    that the specification names ConfigurationError) and returns no index;
    and when both endpoints are present it does return. *)
Theorem get_freq_index_exact {F : Type} `{Arith F} (f_lo f_hi : F) (f_stamp : list F) :
  (forall i_lo i_hi,
     get_freq_index (f_lo, f_hi) f_stamp = Ok (i_lo, i_hi) ->
     exists x y, f_stamp !! i_lo = Some x /\ (x ≗ f_lo) = true /\
                 f_stamp !! i_hi = Some y /\ (y ≗ f_hi) = true) /\
  ((forall x, x ∈ f_stamp -> (x ≗ f_lo) = false) \/
   (forall x, x ∈ f_stamp -> (x ≗ f_hi) = false) ->
   get_freq_index (f_lo, f_hi) f_stamp = Raise IndexError) /\
  ((exists x, x ∈ f_stamp /\ (x ≗ f_lo) = true) ->
   (exists y, y ∈ f_stamp /\ (y ≗ f_hi) = true) ->
   exists i_lo i_hi, get_freq_index (f_lo, f_hi) f_stamp = Ok (i_lo, i_hi)).
Proof.
  unfold get_freq_index. simpl. split; [|split].
  - intros i_lo i_hi Hget.
    destruct (getitem (np_where (map (fun x => x ≗ f_lo) f_stamp)) 0) as [lo| |] eqn:Hlo;
      simpl in Hget; try done.
    destruct (getitem (np_where (map (fun x => x ≗ f_hi) f_stamp)) 0) as [hi| |] eqn:Hhi;
      simpl in Hget; try done.
    injection Hget as -> ->.
    apply where_eq_found in Hlo as (x & Hx & Hxe & _).
    apply where_eq_found in Hhi as (y & Hy & Hye & _).
    by exists x, y.
  - intros [Habs|Habs].
    + by rewrite (where_eq_absent f_stamp f_lo Habs).
    + rewrite (where_eq_absent f_stamp f_hi Habs).
      by destruct (getitem (np_where (map (fun x => x ≗ f_lo) f_stamp)) 0) as [lo|e|] eqn:Hlo;
        simpl; [|pose proof (np_where_first (map (fun x => x ≗ f_lo) f_stamp)) as Hf;
                 rewrite Hlo in Hf; destruct Hf as [-> _]
               |pose proof (np_where_first (map (fun x => x ≗ f_lo) f_stamp)) as Hf;
                 rewrite Hlo in Hf].
  - intros (x & Hx & Hxe) (y & Hy & Hye).
    destruct (where_eq_present f_stamp f_lo x Hx Hxe) as [lo ->].
    destruct (where_eq_present f_stamp f_hi y Hy Hye) as [hi ->].
    by exists lo, hi.
Qed.

(** The statement of C4 on the stamp of the default configuration
    ([f = 100], [N = 100]): the band [(0, 5)] is found at [(0, 5)], and the
    endpoint [7.0], which the stamp does not hold, raises. *)
Lemma get_freq_index_exact_witness :
  (exists x y, get_freq_stamp 100%float 100 !! 0 = Some x /\ (x ≗ 0%float) = true /\
               get_freq_stamp 100%float 100 !! 5 = Some y /\ (y ≗ 5%float) = true) /\
  get_freq_index (0, 7)%float (get_freq_stamp 100%float 100) = Raise IndexError.
Proof.
  split.
  - apply (proj1 (get_freq_index_exact 0%float 5%float (get_freq_stamp 100%float 100)) 0 5).
    vm_compute. reflexivity.
  - apply (proj1 (proj2 (get_freq_index_exact 0%float 7%float (get_freq_stamp 100%float 100)))).
    right. apply Forall_forall. vm_compute. repeat constructor.
Defined.

(** ** Construction *)

Section Construction.
Context {F : Type} `{Arith F}.

Lemma length_arange (lo hi : Z) : length (arange lo hi) = Z.to_nat (hi - lo).
Proof. unfold arange. by rewrite length_map, length_seq. Qed.

Lemma lookup_arange_0 (n i : nat) :
  i < n -> arange 0 (Z.of_nat n) !! i = Some (Z.of_nat i).
Proof.
  intros Hi. unfold arange. rewrite list_lookup_fmap, lookup_seq_lt by lia. done.
Qed.

Lemma length_get_freq_stamp (f : F) (N : nat) : length (get_freq_stamp f N) = N.
Proof. unfold get_freq_stamp. rewrite length_map, length_arange. lia. Qed.

Lemma length_get_time_stamp (f : F) (N : nat) : length (get_time_stamp f N) = N.
Proof. unfold get_time_stamp. rewrite length_map, length_arange. lia. Qed.

(** What the constructor computes, entry by entry: the stamps are
    [(i / N) * f] and [i / f], evaluated in this order. *)
Lemma init_inv (fr : F * F) (f0 : F) (N0 : nat) (amp0 eps0 : F) (self : ExcitationSignal F) :
  init fr f0 N0 amp0 eps0 = Ok self ->
  N self = N0 /\ f self = f0 /\ freq_range self = fr /\
  amp self = amp0 /\ eps self = eps0 /\
  N0 <> 0 /\
  df self = f0 ⊘ of_nat N0 /\
  T self = of_int 1 ⊘ df self /\
  t_stamp self = get_time_stamp f0 N0 /\
  f_stamp self = get_freq_stamp f0 N0 /\
  get_freq_index fr (f_stamp self) = Ok (idx self).
Proof.
  unfold init, initialization, get_sampling_interval, get_total_time.
  destruct (decide (N0 = 0)) as [|HN]; simpl; [done|].
  destruct (f0 ⊘ of_nat N0 ≗ zero); simpl; [done|].
  destruct (get_freq_index fr (get_freq_stamp f0 N0)) as [i| |] eqn:Hidx; simpl; [|done..].
  intros [= <-]. simpl. by repeat split.
Qed.

Lemma stamps_lookup (f0 : F) (N0 i : nat) :
  i < N0 ->
  get_freq_stamp f0 N0 !! i = Some (of_nat i ⊘ of_nat N0 ⊗ f0) /\
  get_time_stamp f0 N0 !! i = Some (of_nat i ⊘ f0).
Proof.
  intros Hi. unfold get_freq_stamp, get_time_stamp.
  by rewrite !list_lookup_fmap, lookup_arange_0.
Qed.
End Construction.

(** When [get_freq_index] returns, both lookups have returned. *)
Lemma get_freq_index_inv {F : Type} `{Arith F} (f_lo f_hi : F) (f_stamp : list F)
    (i_lo i_hi : nat) :
  get_freq_index (f_lo, f_hi) f_stamp = Ok (i_lo, i_hi) ->
  getitem (np_where (map (fun x => x ≗ f_lo) f_stamp)) 0 = Ok i_lo /\
  getitem (np_where (map (fun x => x ≗ f_hi) f_stamp)) 0 = Ok i_hi.
Proof.
  unfold get_freq_index. cbn [fst snd].
  destruct (getitem (np_where (map (fun x => x ≗ f_lo) f_stamp)) 0) as [lo| |];
    cbn [mbind res_bind]; [|done..].
  destruct (getitem (np_where (map (fun x => x ≗ f_hi) f_stamp)) 0) as [hi| |];
    cbn [mbind res_bind]; [|done..].
  by intros [= <- <-].
Qed.

(** After a successful construction both indices of the band lie in
    [[0, N)] and the frequency stamp holds values equal to [f_lo] and
    [f_hi] there. *)
Lemma init_idx_bounds {F : Type} `{Arith F} (f_lo f_hi f0 : F) (N0 : nat)
    (amp0 eps0 : F) (self : ExcitationSignal F) :
  init (f_lo, f_hi) f0 N0 amp0 eps0 = Ok self ->
  (idx self).1 < N0 /\ (idx self).2 < N0 /\
  exists x y, f_stamp self !! (idx self).1 = Some x /\ (x ≗ f_lo) = true /\
              f_stamp self !! (idx self).2 = Some y /\ (y ≗ f_hi) = true.
Proof.
  intros Hinit. apply init_inv in Hinit as (_ & _ & _ & _ & _ & _ & _ & _ & _ & Hst & Hidx).
  destruct (idx self) as [lo hi]. simpl.
  apply get_freq_index_inv in Hidx as [Hlo Hhi].
  apply where_eq_found in Hlo as (x & Hx & Hxe & _).
  apply where_eq_found in Hhi as (y & Hy & Hye & _).
  assert (Hlen : length (f_stamp self) = N0) by (rewrite Hst; apply length_get_freq_stamp).
  split; [|split].
  - apply lookup_lt_Some in Hx. lia.
  - apply lookup_lt_Some in Hy. lia.
  - by exists x, y.
Qed.

(** ** The stamps *)

(** In exact arithmetic the frequency stamp is [i * (f / N)], as the
    docstring of [get_freq_stamp] has it. *)
Lemma get_freq_stamp_real (f0 : R) (N0 i : nat) :
  i < N0 -> get_freq_stamp f0 N0 !! i = Some (of_nat i ⊗ (f0 ⊘ of_nat N0)).
Proof.
  intros Hi. destruct (stamps_lookup f0 N0 i Hi) as [-> _]. f_equal.
  simpl. unfold Rdiv. ring.
Qed.

(** C7 on the default configuration [f = 100.0], [N = 100], in binary64.
    The time stamp, [df] and [T] are as stated, but the frequency stamp is
    computed as [(i / N) * f]: at [i = 7] this is [7.000000000000001], not
    [7 * (f / N) = 7.0], and the band endpoint [7.0] is then absent from
    the stamp. *)
Theorem get_freq_stamp_rounding :
  get_freq_stamp 100%float 100 !! 7 = Some 0x1.c000000000001p+2%float /\
  of_nat 7 ⊗ (100%float ⊘ of_nat 100) = 7%float /\
  (0x1.c000000000001p+2%float ≗ 7%float) = false /\
  get_time_stamp 100%float 100 !! 7 = Some (of_nat 7 ⊘ 100%float) /\
  get_sampling_interval 100%float 100 = Ok (100%float ⊘ of_nat 100) /\
  get_total_time 1%float = Ok (1 ⊘ 1)%float /\
  get_freq_index (0, 7)%float (get_freq_stamp 100%float 100) = Raise IndexError.
Proof. repeat split; vm_compute; reflexivity. Qed.

(** ** The order on scalars *)

Lemma SFcompare_antisym (x y : spec_float) :
  SFcompare y x = option_map CompOpp (SFcompare x y).
Proof.
  destruct x as [sx|sx| |sx mx ex], y as [sy|sy| |sy my ey]; simpl; try done;
    try (by destruct sx); try (by destruct sy); try (by destruct sx, sy).
  f_equal. destruct sx, sy; simpl; try done.
  - rewrite (Z.compare_antisym ey ex).
    destruct (ey ?= ex)%Z; simpl; try done.
    by rewrite (Pos.compare_cont_antisym mx my Eq).
  - rewrite (Z.compare_antisym ey ex).
    destruct (ey ?= ex)%Z; simpl; try done.
    by rewrite (Pos.compare_cont_antisym mx my Eq).
Qed.

#[global] Instance float64_order : OrderLaws float.
Proof.
  constructor. intros a b. simpl. rewrite FloatAxioms.leb_spec, FloatAxioms.ltb_spec.
  unfold SFleb, SFltb. rewrite (SFcompare_antisym (Prim2SF a) (Prim2SF b)).
  by destruct (SFcompare (Prim2SF a) (Prim2SF b)) as [[]|].
Qed.

#[global] Instance real_order : OrderLaws R.
Proof.
  constructor. intros a b. simpl. unfold Real.leb, Real.ltb.
  destruct (Rle_dec a b), (Rlt_dec b a); try done. lra.
Qed.

(** ** The sentinel of the feasibility search *)

Section Sentinel.
Context {F : Type} `{Arith F} `{NumLib F}.
Variable draws : nat -> F.

Lemma setitem_raise {A : Type} (l : list A) (j : Z) (x : A) (e : exn) :
  setitem l j x = Raise e -> e = IndexError.
Proof.
  unfold setitem, norm_index.
  destruct (_ && _); simpl; [done|]. destruct (_ && _); simpl; [done|]. congruence.
Qed.

Lemma setitem_fuel {A : Type} (l : list A) (j : Z) (x : A) : setitem l j x <> OutOfFuel.
Proof.
  unfold setitem, norm_index.
  destruct (_ && _); simpl; [done|]. destruct (_ && _); simpl; done.
Qed.

Lemma setitems_raise {A : Type} (l : list A) (js : list Z) (x : A) (e : exn) :
  setitems l js x = Raise e -> e = IndexError.
Proof.
  revert l. induction js as [|j js IH]; intros l; simpl; [done|].
  destruct (setitem l j x) as [l'| |] eqn:Hs; simpl; [apply IH| |done].
  intros [= <-]. by eapply setitem_raise.
Qed.

Lemma setitems_fuel {A : Type} (l : list A) (js : list Z) (x : A) :
  setitems l js x <> OutOfFuel.
Proof.
  revert l. induction js as [|j js IH]; intros l; simpl; [done|].
  destruct (setitem l j x) as [l'| |] eqn:Hs; simpl; [apply IH|done|].
  by apply setitem_fuel in Hs.
Qed.

(** A round of the loop body raises nothing but [IndexError] (an index of
    the band or [u[1]] out of range) or [ValueError] (an empty array). *)
Lemma attempt_raise N amp idx pos e :
  attempt draws N amp idx pos = Raise e -> e = IndexError \/ e = ValueError.
Proof.
  unfold attempt, get_frequency_signal, _get_frequency_amplitude.
  destruct (setitems _ _ _) as [l| |] eqn:Hl; simpl.
  - destruct (setitem l 0 zero) as [l'| |] eqn:Hl'; simpl.
    + unfold _get_normalization, np_max.
      destruct (map fabs _) as [|x t]; simpl; [intros [= <-]; by right|].
      unfold first_step, getitem.
      destruct (_ !! 0) as [u0|]; simpl; [|intros [= <-]; by left].
      destruct (_ !! 1) as [u1|]; simpl; [done|intros [= <-]; by left].
    + intros [= <-]. left. by eapply setitem_raise.
    + done.
  - intros [= <-]. left. by eapply setitems_raise.
  - done.
Qed.

Lemma feasible_loop_bound fuel eps N amp idx diff A P pos :
  feasible_loop draws fuel eps N amp idx diff (Some (A, P)) pos <> Raise UnboundLocalError.
Proof.
  revert diff A P pos. induction fuel as [|fuel IH]; intros diff A P pos; simpl.
  - by destruct (diff ≻ eps).
  - destruct (diff ≻ eps); [|done].
    destruct (attempt draws N amp idx pos) as [[[[A' P'] d] p1]|e|] eqn:Hat; simpl.
    + apply IH.
    + intros [= ->]. apply attempt_raise in Hat as [?|?]; done.
    + done.
Qed.
End Sentinel.

(** C10: the loop starts from [diff = 1000.0].  With [eps >= 1000.0] its
    test fails at once, the body never runs and the [return] raises
    [UnboundLocalError], whatever the other arguments.  With [eps < 1000.0]
    the body runs at least once: the call is the first round followed by
    the rest of the loop, it never raises [UnboundLocalError], and a
    returned pair has consumed at least [N] random numbers. *)
Theorem feasibility_sentinel {F : Type} `{Arith F} `{NumLib F} `{!OrderLaws F}
    (draws : nat -> F) (eps : F) (N : nat) (amp : F) (idx : Z * Z) (pos : nat) :
  ((eps ≽ of_int 1000) = true ->
   forall fuel,
     get_one_feasible_signal draws fuel eps N amp idx pos = Raise UnboundLocalError) /\
  ((of_int 1000 ≻ eps) = true ->
   forall fuel,
     get_one_feasible_signal draws (S fuel) eps N amp idx pos =
       ('(U_amp, U_phase, diff, pos') ← attempt draws N amp idx pos;
        feasible_loop draws fuel eps N amp idx diff (Some (U_amp, U_phase)) pos') /\
     get_one_feasible_signal draws (S fuel) eps N amp idx pos <> Raise UnboundLocalError /\
     forall U_amp U_phase pos',
       get_one_feasible_signal draws (S fuel) eps N amp idx pos = Ok (U_amp, U_phase, pos') ->
       pos + N <= pos').
Proof.
  split.
  - intros Hge fuel. apply fle_not_flt in Hge.
    unfold get_one_feasible_signal. destruct fuel; simpl; by rewrite Hge.
  - intros Hlt fuel. unfold get_one_feasible_signal. simpl. rewrite Hlt.
    split; [done|]. split.
    + destruct (attempt draws N amp idx pos) as [[[[A' P'] d] p1]|e|] eqn:Hat; simpl.
      * apply feasible_loop_bound.
      * intros [= ->]. apply attempt_raise in Hat as [?|?]; done.
      * done.
    + intros U_amp U_phase pos' Hok.
      assert (Hs : get_one_feasible_signal draws (S fuel) eps N amp idx pos
                   = Ok (U_amp, U_phase, pos')).
      { unfold get_one_feasible_signal. simpl. by rewrite Hlt. }
      apply get_one_feasible_signal_inv in Hs as (pos0 & d & Hat & Hle & _).
      apply attempt_inv in Hat as (_ & _ & -> & _). lia.
Qed.

(** The statement of C10 in exact arithmetic, at [eps = 1000] and at
    [eps = 1/2]. *)
Lemma feasibility_sentinel_witness :
  (forall fuel,
     get_one_feasible_signal (fun _ => 0%R) fuel 1000%R 4 1%R (1, 2)%Z 0
     = Raise UnboundLocalError) /\
  (forall fuel,
     get_one_feasible_signal (fun _ => 0%R) (S fuel) (1 / 2)%R 4 1%R (1, 2)%Z 0
     <> Raise UnboundLocalError).
Proof.
  split.
  - apply (proj1 (feasibility_sentinel (F := R) (fun _ => 0%R) 1000%R 4 1%R (1, 2)%Z 0)).
    simpl. unfold Real.leb. destruct (Rle_dec 1000 1000); [reflexivity|lra].
  - intros fuel.
    apply (proj2 (feasibility_sentinel (F := R) (fun _ => 0%R) (1 / 2)%R 4 1%R (1, 2)%Z 0)).
    simpl. unfold Real.ltb. destruct (Rlt_dec (1 / 2) 1000); [reflexivity|lra].
Defined.

(** ** Shapes *)

#[global] Instance real_numlib_laws : NumLibLaws R.
Proof. constructor. intros U. simpl. unfold Real.idft. by rewrite length_map, length_seq. Qed.

Lemma get_repeat_signals_inv {A : Type} (u : list (list (list A))) (p : nat)
    (us : list (list A)) :
  get_repeat_signals u p = Ok us ->
  u <> [] /\ us = map (fun chan => concat (map (fun row => concat (replicate p row)) chan)) u.
Proof.
  unfold get_repeat_signals, reshape_rows, np_tile_last.
  destruct u as [|c u]; [done|]. intros [= <-]. split; [done|].
  by rewrite <- list_fmap_compose.
Qed.

Lemma shape2_replicate {A : Type} (nr N : nat) (x : A) :
  shape2 (replicate nr (replicate N x)) nr N.
Proof.
  split; [by rewrite length_replicate|].
  apply Forall_replicate. by rewrite length_replicate.
Qed.

Lemma shape2_insert {A : Type} (u : list (list A)) (nr N i : nat) (row : list A) :
  shape2 u nr N -> length row = N -> shape2 (<[i := row]> u) nr N.
Proof.
  intros [Hlen Hrows] Hrow. split; [by rewrite length_insert|].
  by apply Forall_insert.
Qed.

Lemma shape3_replicate {A : Type} (nr m N : nat) (x : A) :
  shape3 (replicate nr (replicate m (replicate N x))) nr m N.
Proof.
  split; [by rewrite length_replicate|].
  apply Forall_replicate. split; [by rewrite length_replicate|].
  apply Forall_replicate. by rewrite length_replicate.
Qed.

Lemma shape3_set_trial {A : Type} (arr : list (list (list A))) (X : list (list A))
    (nr m N i : nat) :
  shape3 arr nr m N -> shape2 X nr N -> shape3 (set_trial arr i X) nr m N.
Proof.
  intros [Hlen Hch] [HlenX HX]. unfold set_trial. split.
  - rewrite length_zip_with. lia.
  - apply Forall_lookup. intros c chan Hc.
    apply lookup_zip_with_Some in Hc as (chan0 & row & -> & Hchan0 & Hrow).
    eapply Forall_lookup_1 in Hch as [Hm Hrows]; [|exact Hchan0].
    eapply Forall_lookup_1 in HX; [|exact Hrow]. simpl in HX.
    split; [by rewrite length_insert|]. by apply Forall_insert.
Qed.

Section Lengths.
Context {F : Type} `{Arith F} `{NumLib F} `{!NumLibLaws F}.
Variable draws : nat -> F.

Lemma setitem_length {A : Type} (l l' : list A) (j : Z) (x : A) :
  setitem l j x = Ok l' -> length l' = length l.
Proof.
  unfold setitem. destruct (norm_index _ _) as [i| |]; simpl; [|done..].
  intros [= <-]. apply length_insert.
Qed.

Lemma setitems_length {A : Type} (l l' : list A) (js : list Z) (x : A) :
  setitems l js x = Ok l' -> length l' = length l.
Proof.
  revert l. induction js as [|j js IH]; intros l; simpl; [by intros [= <-]|].
  destruct (setitem l j x) as [l1| |] eqn:Hs; simpl; [|done..].
  intros Hrest. apply IH in Hrest. apply setitem_length in Hs. lia.
Qed.

Lemma frequency_amplitude_length N amp idx U_amp :
  _get_frequency_amplitude N amp idx = Ok U_amp -> length U_amp = N /\ 0 < N.
Proof.
  unfold _get_frequency_amplitude.
  destruct (setitems _ _ _) as [l| |] eqn:Hl; simpl; [|done..].
  intros Hset. apply setitems_length in Hl. rewrite length_replicate in Hl.
  pose proof (setitem_length _ _ _ _ Hset) as Hlen. split; [lia|].
  unfold setitem, norm_index in Hset. rewrite Hl in Hset.
  destruct N; [|lia]. by simpl in Hset.
Qed.

Lemma random_phase_length N pos : length (_get_random_phase draws N pos).1 = N.
Proof. simpl. by rewrite length_map, length_seq. Qed.

Lemma normalization_length (u u' : list F) :
  _get_normalization u = Ok u' -> length u' = length u.
Proof.
  unfold _get_normalization. destruct (np_max _) as [M| |]; simpl; [|done..].
  intros [= <-]. apply length_map.
Qed.

Lemma normalization_returns (u : list F) :
  u <> [] -> exists u', _get_normalization u = Ok u'.
Proof.
  intros Hu. unfold _get_normalization, np_max.
  destruct u as [|x t]; [done|]. simpl. eauto.
Qed.

Lemma time_signal_length (U_amp U_phase : list F) :
  length (get_time_signal (_get_complex_signal U_amp U_phase))
  = Nat.min (length U_amp) (length U_phase).
Proof.
  unfold get_time_signal, _get_complex_signal.
  by rewrite length_map, ifft_length, length_zip_with.
Qed.

Lemma channel_signal_length U_amp U_phase u N :
  length U_amp = N -> length U_phase = N ->
  channel_signal U_amp U_phase = Ok u -> length u = N.
Proof.
  intros HA HP Hu. apply normalization_length in Hu.
  rewrite Hu, time_signal_length. lia.
Qed.

Lemma channel_signal_returns U_amp U_phase N :
  length U_amp = N -> length U_phase = N -> 0 < N ->
  exists u, channel_signal U_amp U_phase = Ok u.
Proof.
  intros HA HP HN. apply normalization_returns.
  intros Hnil. apply (f_equal length) in Hnil.
  rewrite time_signal_length in Hnil. simpl in Hnil. lia.
Qed.

Lemma attempt_lengths N amp idx pos U_amp U_phase diff pos' :
  attempt draws N amp idx pos = Ok (U_amp, U_phase, diff, pos') ->
  length U_amp = N /\ length U_phase = N /\ 0 < N.
Proof.
  intros Hat. apply attempt_inv in Hat as (HA & -> & _ & _).
  apply frequency_amplitude_length in HA as [HA HN].
  split; [done|]. split; [apply random_phase_length|done].
Qed.

Lemma get_one_feasible_signal_lengths fuel eps N amp idx pos U_amp U_phase pos' :
  get_one_feasible_signal draws fuel eps N amp idx pos = Ok (U_amp, U_phase, pos') ->
  length U_amp = N /\ length U_phase = N /\ 0 < N.
Proof.
  intros Hs. apply get_one_feasible_signal_inv in Hs as (pos0 & d & Hat & _).
  by eapply attempt_lengths.
Qed.
End Lengths.

(** ** The channels of get_signals *)

Section Channels.
Context {F : Type} `{Arith F} `{NumLib F} `{!NumLibLaws F}.
Variable draws : nat -> F.

(** The [for] loop of mode ['orthogonal'] over the channels [a .. a+n-1]:
    it returns, sets exactly these rows, and leaves the others. *)
Lemma orthogonal_rows_seq nr A0 P0 N :
  length A0 = N -> length P0 = N -> 0 < N ->
  forall n a UA UP u,
    length UA = nr -> length UP = nr -> length u = nr -> a + n <= nr ->
    exists UA' UP' u',
      orthogonal_rows nr A0 P0 (UA, UP, u) (seq a n) = Ok (UA', UP', u') /\
      length UA' = nr /\ length UP' = nr /\ length u' = nr /\
      forall i,
        (a <= i < a + n ->
         UA' !! i = Some A0 /\ UP' !! i = Some (shifted nr i P0) /\
         exists row, u' !! i = Some row /\
                     channel_signal A0 (shifted nr i P0) = Ok row) /\
        (~ (a <= i < a + n) ->
         UA' !! i = UA !! i /\ UP' !! i = UP !! i /\ u' !! i = u !! i).
Proof.
  intros HA HP HN. induction n as [|n IH]; intros a UA UP u HUA HUP Hu Hle.
  - exists UA, UP, u. repeat split; try done; lia.
  - simpl. unfold getitem.
    rewrite !list_lookup_insert_eq by lia. simpl.
    destruct (channel_signal_returns A0 (shifted nr a P0) N) as [row Hrow];
      [done|by unfold shifted; rewrite length_map|done|].
    unfold channel_signal, shifted in Hrow. rewrite Hrow. simpl.
    destruct (IH (S a) (<[a := A0]> UA) (<[a := shifted nr a P0]> UP) (<[a := row]> u))
      as (UA' & UP' & u' & Hrows & HUA' & HUP' & Hu' & Hspec);
      [by rewrite length_insert..|lia|].
    exists UA', UP', u'. split; [exact Hrows|]. repeat split; try done.
    + destruct (decide (i = a)) as [->|Hne].
      * destruct (Hspec a) as [_ (-> & _)]; [lia|]. apply list_lookup_insert_eq. lia.
      * destruct (Hspec i) as [(-> & _) _]; [lia|done].
    + destruct (decide (i = a)) as [->|Hne].
      * destruct (Hspec a) as [_ (_ & -> & _)]; [lia|]. apply list_lookup_insert_eq. lia.
      * destruct (Hspec i) as [(_ & -> & _) _]; [lia|done].
    + destruct (decide (i = a)) as [->|Hne].
      * destruct (Hspec a) as [_ (_ & _ & ->)]; [lia|]. exists row.
        split; [apply list_lookup_insert_eq; lia|exact Hrow].
      * destruct (Hspec i) as [(_ & _ & Hr) _]; [lia|done].
    + destruct (Hspec i) as [_ (-> & _)]; [lia|]. apply list_lookup_insert_ne. lia.
    + destruct (Hspec i) as [_ (_ & -> & _)]; [lia|]. apply list_lookup_insert_ne. lia.
    + destruct (Hspec i) as [_ (_ & _ & ->)]; [lia|]. apply list_lookup_insert_ne. lia.
Qed.
End Channels.

(** Mode ['orthogonal']: one search, then every row is built from its
    result without another test. *)
Lemma get_signals_orthogonal_rows {F : Type} `{Arith F} `{NumLib F} `{!NumLibLaws F}
    (draws : nat -> F) (fuel : nat) (eps : F) (N : nat) (amp : F) (nr_inputs : nat)
    (idx : Z * Z) (pos : nat) (U_amp0 U_phase0 : list F) (pos' : nat) :
  get_one_feasible_signal draws fuel eps N amp idx pos = Ok (U_amp0, U_phase0, pos') ->
  exists U_amp U_phase u,
    get_signals draws fuel eps N amp nr_inputs idx "orthogonal" pos
      = Ok (U_amp, U_phase, u, pos') /\
    length U_amp = nr_inputs /\ length U_phase = nr_inputs /\ length u = nr_inputs /\
    forall i, i < nr_inputs ->
      U_amp !! i = Some U_amp0 /\
      U_phase !! i = Some (shifted nr_inputs i U_phase0) /\
      exists row, u !! i = Some row /\
                  channel_signal U_amp0 (shifted nr_inputs i U_phase0) = Ok row.
Proof.
  intros Hs. pose proof (get_one_feasible_signal_lengths _ _ _ _ _ _ _ _ _ _ Hs) as (HA & HP & HN).
  unfold get_signals. simpl. rewrite Hs. simpl.
  destruct (orthogonal_rows_seq nr_inputs U_amp0 U_phase0 N HA HP HN nr_inputs 0
              (replicate nr_inputs (replicate N zero))
              (replicate nr_inputs (replicate N zero))
              (replicate nr_inputs (replicate N zero)))
    as (UA & UP & u & Hrows & HUA & HUP & Hu & Hspec);
    [by rewrite length_replicate..|lia|].
  rewrite Hrows. simpl. exists UA, UP, u. split; [done|]. repeat split; try done.
  - destruct (Hspec i) as [(-> & _) _]; [lia|done].
  - destruct (Hspec i) as [(_ & -> & _) _]; [lia|done].
  - destruct (Hspec i) as [(_ & _ & Hrow) _]; [lia|done].
Qed.

(** C2: in mode ['orthogonal'], once the (single) feasibility search has
    returned the base pair [(U_amp0, U_phase0)], [get_signals] returns with
    the cursor of the generator where that one search left it; every
    amplitude row is [U_amp0], every phase row is
    [U_phase0[k] + 2*pi*i/nr_inputs] elementwise, and the time signal of
    channel [i] is the normalised real inverse transform of
    [U_amp0 * exp(j * U_phase[i])]. *)
Theorem get_signals_orthogonal {F : Type} `{Arith F} `{NumLib F} `{!NumLibLaws F}
    (draws : nat -> F) (fuel : nat) (eps : F) (N : nat) (amp : F) (nr_inputs : nat)
    (idx : Z * Z) (pos : nat) (U_amp0 U_phase0 : list F) (pos' : nat) :
  get_one_feasible_signal draws fuel eps N amp idx pos = Ok (U_amp0, U_phase0, pos') ->
  exists U_amp U_phase u,
    get_signals draws fuel eps N amp nr_inputs idx "orthogonal" pos
      = Ok (U_amp, U_phase, u, pos') /\
    length U_amp = nr_inputs /\ length U_phase = nr_inputs /\ length u = nr_inputs /\
    forall i, i < nr_inputs ->
      U_amp !! i = Some U_amp0 /\
      exists ph row,
        U_phase !! i = Some ph /\
        length ph = N /\
        (forall k x, U_phase0 !! k = Some x ->
           ph !! k = Some (x ⊕ of_int 2 ⊗ pi ⊗ of_nat i ⊘ of_nat nr_inputs)) /\
        u !! i = Some row /\
        _get_normalization (get_time_signal (_get_complex_signal U_amp0 ph)) = Ok row.
Proof.
  intros Hs. pose proof (get_one_feasible_signal_lengths _ _ _ _ _ _ _ _ _ _ Hs) as (HA & HP & HN).
  destruct (get_signals_orthogonal_rows draws fuel eps N amp nr_inputs idx pos _ _ _ Hs)
    as (UA & UP & u & Hget & HUA & HUP & Hu & Hspec).
  exists UA, UP, u. split; [done|]. split; [done|]. split; [done|]. split; [done|].
  intros i Hi. destruct (Hspec i Hi) as (HAi & HPi & row & Hrow & Hsig).
  split; [done|]. exists (shifted nr_inputs i U_phase0), row.
  split; [done|]. split; [by unfold shifted; rewrite length_map|]. split; [|by split].
  intros k x Hk. unfold shifted. by rewrite list_lookup_fmap, Hk.
Qed.

(** ** Exact arithmetic: four-point signals *)

Module RealEval.
Import Example.
Open Scope R_scope.

Lemma cis_quarter (m : nat) : Real.cis (INR m * (PI / 2)) = quarter m.
Proof.
  induction m as [|m IH].
  - simpl. unfold Real.cis. by rewrite Rmult_0_l, cos_0, sin_0.
  - rewrite S_INR.
    replace ((INR m + 1) * (PI / 2)) with (INR m * (PI / 2) + PI / 2) by lra.
    unfold Real.cis in *. rewrite cos_plus, sin_plus, cos_PI2, sin_PI2.
    simpl. rewrite <- IH. simpl. f_equal; lra.
Qed.

Lemma twiddle4 (k t : nat) : 2 * PI * INR k * INR t / INR 4 = INR (k * t) * (PI / 2).
Proof. rewrite mult_INR. simpl. field. Qed.

(** The real part of the four-point inverse transform. *)
Lemma get_time_signal4 (a0 b0 a1 b1 a2 b2 a3 b3 : R) :
  get_time_signal [(a0, b0); (a1, b1); (a2, b2); (a3, b3)] =
  [ (a0 + a1 + a2 + a3) / 4; (a0 - b1 - a2 + b3) / 4;
    (a0 - a1 + a2 - a3) / 4; (a0 + b1 - a2 - b3) / 4 ].
Proof.
  unfold get_time_signal, ifft, Real.numlib, Real.idft.
  cbn [length seq map imap foldr compose].
  rewrite !twiddle4, !cis_quarter.
  cbn [Nat.mul Nat.add quarter fst snd Real.cadd Real.cmul INR].
  repeat (apply (f_equal2 cons); [lra|]). reflexivity.
Qed.

(** Four-point signals whose phases are whole quarter turns. *)
Lemma time_signal_quarters (a0 a1 a2 a3 p0 p1 p2 p3 : R) (m0 m1 m2 m3 : nat) :
  p0 = INR m0 * (PI / 2) -> p1 = INR m1 * (PI / 2) ->
  p2 = INR m2 * (PI / 2) -> p3 = INR m3 * (PI / 2) ->
  get_time_signal (_get_complex_signal [a0; a1; a2; a3] [p0; p1; p2; p3]) =
  get_time_signal [ (a0 * (quarter m0).1, a0 * (quarter m0).2);
                    (a1 * (quarter m1).1, a1 * (quarter m1).2);
                    (a2 * (quarter m2).1, a2 * (quarter m2).2);
                    (a3 * (quarter m3).1, a3 * (quarter m3).2) ].
Proof.
  intros -> -> -> ->. unfold _get_complex_signal.
  cbn [zip_with cexp_j Real.numlib fmul Real.arith].
  by rewrite !cis_quarter.
Qed.

Lemma real_np_maximum (a b : R) : np_maximum a b = Rmax a b.
Proof.
  unfold np_maximum, isnan. cbn [fle feq Real.arith]. unfold Real.leb, Real.eqb, Rmax.
  destruct (Req_dec_T a a); [|done]. cbn [negb orb].
  destruct (Rle_dec b a), (Rle_dec a b); cbn [negb orb]; try done; lra.
Qed.

(** In exact arithmetic [np.max] is the largest entry. *)
Lemma real_foldl_max (t : list R) (x : R) :
  let M := foldl np_maximum x t in
  (M = x \/ M ∈ t) /\ x <= M /\ forall y, y ∈ t -> y <= M.
Proof.
  revert x. induction t as [|z t IH]; intros x; simpl.
  - split; [by left|]. split; [lra|]. intros y Hy. by apply elem_of_nil in Hy.
  - destruct (IH (np_maximum x z)) as (Hin & Hge & Hall).
    rewrite real_np_maximum in *.
    pose proof (Rmax_l x z). pose proof (Rmax_r x z).
    split; [|split].
    + destruct Hin as [->|Hin]; [|right; by right].
      unfold Rmax. destruct (Rle_dec x z); [right; by left|by left].
    + lra.
    + intros y Hy. apply elem_of_cons in Hy as [->|Hy]; [lra|by apply Hall].
Qed.

Lemma real_np_max_spec (l : list R) (M : R) :
  np_max l = Ok M <-> M ∈ l /\ forall y, y ∈ l -> y <= M.
Proof.
  destruct l as [|x t]; simpl.
  - split; [done|]. intros [Hin _]. by apply elem_of_nil in Hin.
  - pose proof (real_foldl_max t x) as (Hin & Hge & Hall). simpl in *. split.
    + intros [= <-]. split.
      * destruct Hin as [->|Hin]; [by left|by right].
      * intros y Hy. apply elem_of_cons in Hy as [->|Hy]; [done|by apply Hall].
    + intros [HM Hmax]. f_equal. apply Rle_antisym.
      * apply Hmax. destruct Hin as [->|Hin]; [by left|by right].
      * apply elem_of_cons in HM as [->|HM]; [done|by apply Hall].
Qed.
End RealEval.

(** ** Exact arithmetic: a run on four points *)

Module ExampleFacts.
Import RealEval Example.
Open Scope R_scope.

Lemma real_normalization_eval (t u : list R) (M : R) :
  M ∈ map Rabs t -> (forall y, y ∈ map Rabs t -> y <= M) ->
  u = map (fun x => x / M) t ->
  _get_normalization t = Ok u.
Proof.
  intros Hin Hmax ->. unfold _get_normalization.
  assert (Hmx : np_max (map fabs t) = Ok M) by (apply real_np_max_spec; by split).
  by rewrite Hmx.
Qed.

Ltac eval_Rabs := unfold Rabs; destruct (Rcase_abs _); lra.

Lemma base_signal : channel_signal U_amp_ex U_phase_ex = Ok [0; - (1 / 2); 1; - (1 / 2)].
Proof.
  unfold channel_signal, U_amp_ex, U_phase_ex.
  rewrite (time_signal_quarters _ _ _ _ _ _ _ _ 0 2 0 0) by (simpl; lra).
  rewrite get_time_signal4. cbn [quarter fst snd].
  apply (real_normalization_eval _ _ (1 / 2)).
  - cbn [map]. rewrite !elem_of_cons. right. right. left. eval_Rabs.
  - intros y. cbn [map]. rewrite !elem_of_cons, elem_of_nil.
    intros [->|[->|[->|[->|[]]]]]; eval_Rabs.
  - cbn [map]. repeat (apply (f_equal2 cons); [lra|]). reflexivity.
Qed.

Lemma channel0_signal :
  channel_signal U_amp_ex (shifted 4 0 U_phase_ex) = Ok [0; - (1 / 2); 1; - (1 / 2)].
Proof.
  unfold channel_signal, U_amp_ex, U_phase_ex, shifted, phase_shift, of_nat.
  cbn [map fadd fmul fdiv of_int pi Real.arith].
  change (Z.of_nat 0) with 0%Z. change (Z.of_nat 4) with 4%Z.
  rewrite (time_signal_quarters _ _ _ _ _ _ _ _ 0 2 0 0) by (simpl; lra).
  rewrite get_time_signal4. cbn [quarter fst snd].
  apply (real_normalization_eval _ _ (1 / 2)).
  - cbn [map]. rewrite !elem_of_cons. right. right. left. eval_Rabs.
  - intros y. cbn [map]. rewrite !elem_of_cons, elem_of_nil.
    intros [->|[->|[->|[->|[]]]]]; eval_Rabs.
  - cbn [map]. repeat (apply (f_equal2 cons); [lra|]). reflexivity.
Qed.

Lemma channel1_signal :
  channel_signal U_amp_ex (shifted 4 1 U_phase_ex) = Ok [0; 1; 0; - (1)].
Proof.
  unfold channel_signal, U_amp_ex, U_phase_ex, shifted, phase_shift, of_nat.
  cbn [map fadd fmul fdiv of_int pi Real.arith].
  change (Z.of_nat 1) with 1%Z. change (Z.of_nat 4) with 4%Z.
  rewrite (time_signal_quarters _ _ _ _ _ _ _ _ 1 3 1 1) by (simpl; lra).
  rewrite get_time_signal4. cbn [quarter fst snd].
  apply (real_normalization_eval _ _ (1 / 4)).
  - cbn [map]. rewrite !elem_of_cons. right. left. eval_Rabs.
  - intros y. cbn [map]. rewrite !elem_of_cons, elem_of_nil.
    intros [->|[->|[->|[->|[]]]]]; eval_Rabs.
  - cbn [map]. repeat (apply (f_equal2 cons); [lra|]). reflexivity.
Qed.

(** With [eps = 0.6] the first round of the search is accepted:
    [|u[0] - u[1]| = 1/2]. *)
Lemma example_search (fuel : nat) :
  get_one_feasible_signal draws_ex (S fuel) (6 / 10) 4 1 (1, 2)%Z 0
  = Ok (U_amp_ex, U_phase_ex, 4%nat).
Proof.
  unfold get_one_feasible_signal. cbn [feasible_loop].
  assert (Hsent : Real.ltb (6 / 10) 1000 = true).
  { unfold Real.ltb. destruct (Rlt_dec (6 / 10) 1000); [done|lra]. }
  cbn [flt of_int Real.arith]. rewrite Hsent.
  unfold attempt, get_frequency_signal.
  change (_get_frequency_amplitude 4 1 (1, 2)%Z) with (Ok U_amp_ex).
  cbn [mbind res_bind _get_random_phase seq map Nat.add draws_ex fst snd].
  change (_get_normalization _) with (channel_signal U_amp_ex U_phase_ex).
  rewrite base_signal.
  cbn [mbind res_bind first_step getitem lookup list_lookup fabs fsub Real.arith].
  assert (Hacc : Real.ltb (6 / 10) (Rabs (0 - - (1 / 2))) = false).
  { unfold Real.ltb. destruct (Rlt_dec _ _) as [Hlt|]; [|done].
    revert Hlt. eval_Rabs. }
  destruct fuel; cbn [feasible_loop flt Real.arith]; by rewrite Hacc.
Qed.
End ExampleFacts.

(** The statement of C2 on the four-point run, with four channels. *)
Lemma get_signals_orthogonal_witness :
  exists U_amp U_phase u,
    get_signals Example.draws_ex 1 (6 / 10)%R 4 1%R 4 (1, 2)%Z "orthogonal" 0
      = Ok (U_amp, U_phase, u, 4) /\
    length U_amp = 4 /\ length U_phase = 4 /\ length u = 4 /\
    forall i, i < 4 ->
      U_amp !! i = Some Example.U_amp_ex /\
      exists ph row,
        U_phase !! i = Some ph /\
        length ph = 4 /\
        (forall k x, Example.U_phase_ex !! k = Some x ->
           ph !! k = Some (x ⊕ of_int 2 ⊗ pi ⊗ of_nat i ⊘ of_nat 4)) /\
        u !! i = Some row /\
        _get_normalization (get_time_signal (_get_complex_signal Example.U_amp_ex ph)) = Ok row.
Proof.
  exact (get_signals_orthogonal Example.draws_ex 1 (6 / 10)%R 4 1%R 4 (1, 2)%Z 0
           Example.U_amp_ex Example.U_phase_ex 4 (ExampleFacts.example_search 0)).
Defined.

(** C1 on the four-point run in exact arithmetic, mode ['orthogonal'], four
    channels, [eps = 0.6]: the call returns; channel 0 is the accepted
    signal, with [|u[0] - u[1]| = 1/2 <= eps]; channel 1, shifted by a
    quarter turn and never tested, has [|u[0] - u[1]| = 1 > eps]. *)
Theorem get_signals_orthogonal_unchecked :
  exists U_amp U_phase u,
    get_signals Example.draws_ex 1 (6 / 10)%R 4 1%R 4 (1, 2)%Z "orthogonal" 0
      = Ok (U_amp, U_phase, u, 4) /\
    u !! 0 = Some [0; - (1 / 2); 1; - (1 / 2)]%R /\
    (Rabs (0 - - (1 / 2)) <= 6 / 10)%R /\
    u !! 1 = Some [0; 1; 0; - (1)]%R /\
    first_step [0; 1; 0; - (1)]%R = Ok (Rabs (0 - 1)) /\
    (Rabs (0 - 1) ≻ (6 / 10)%R) = true /\
    ~ (Rabs (0 - 1) <= 6 / 10)%R.
Proof.
  destruct (get_signals_orthogonal_rows Example.draws_ex 1 (6 / 10)%R 4 1%R 4 (1, 2)%Z 0
              _ _ _ (ExampleFacts.example_search 0))
    as (UA & UP & u & Hget & _ & _ & _ & Hspec).
  exists UA, UP, u. split; [exact Hget|].
  destruct (Hspec 0) as (_ & _ & row0 & Hrow0 & Hsig0); [lia|].
  destruct (Hspec 1) as (_ & _ & row1 & Hrow1 & Hsig1); [lia|].
  rewrite ExampleFacts.channel0_signal in Hsig0. injection Hsig0 as <-.
  rewrite ExampleFacts.channel1_signal in Hsig1. injection Hsig1 as <-.
  split; [exact Hrow0|]. split; [unfold Rabs; destruct (Rcase_abs _); lra|].
  split; [exact Hrow1|]. split; [reflexivity|].
  assert (Hone : Rabs (0 - 1) = 1%R) by (unfold Rabs; destruct (Rcase_abs _); lra).
  split.
  - cbn [flt Real.arith]. unfold Real.ltb. rewrite Hone.
    destruct (Rlt_dec (6 / 10) 1); [done|lra].
  - rewrite Hone. lra.
Qed.

(** ** Mode ['random'] and the shape of the result *)

Section RandomRows.
Context {F : Type} `{Arith F} `{NumLib F} `{!NumLibLaws F}.
Variable draws : nat -> F.

(** The [for] loop of mode ['random'] over the channels [a .. a+n-1]: every
    row it sets comes from a search of its own, and the signal stored for
    the channel is the one on which that search stopped. *)
Lemma random_rows_seq fuel eps N amp idx nr :
  forall n a UA UP u pos UA' UP' u' pos',
    length UA = nr -> length UP = nr -> length u = nr -> a + n <= nr ->
    random_rows draws fuel eps N amp idx (UA, UP, u, pos) (seq a n) = Ok (UA', UP', u', pos') ->
    length UA' = nr /\ length UP' = nr /\ length u' = nr /\
    forall i,
      (a <= i < a + n ->
       exists A P row d,
         UA' !! i = Some A /\ UP' !! i = Some P /\ u' !! i = Some row /\
         length A = N /\ length P = N /\
         channel_signal A P = Ok row /\
         first_step row = Ok d /\ (d ≻ eps) = false) /\
      (~ (a <= i < a + n) ->
       UA' !! i = UA !! i /\ UP' !! i = UP !! i /\ u' !! i = u !! i).
Proof.
  induction n as [|n IH]; intros a UA UP u pos UA' UP' u' pos' HUA HUP Hu Hle.
  - simpl. intros [= <- <- <- <-]. repeat split; try done; lia.
  - simpl.
    destruct (get_one_feasible_signal draws fuel eps N amp idx pos)
      as [[[A P] p1]| |] eqn:Hs; simpl; [|done..].
    unfold getitem. rewrite !list_lookup_insert_eq by lia. simpl.
    pose proof (get_one_feasible_signal_inv _ _ _ _ _ _ _ _ _ _ Hs)
      as (pos0 & d & Hat & _ & Hd).
    pose proof (attempt_lengths _ _ _ _ _ _ _ _ _ Hat) as (HA & HP & HN).
    apply attempt_inv in Hat as (_ & _ & _ & row & Hrow & Hstep).
    rewrite Hrow. simpl. intros Hrest.
    apply IH in Hrest as (HUA' & HUP' & Hu' & Hspec);
      [|by rewrite length_insert..|lia].
    split; [done|]. split; [done|]. split; [done|]. intros i. split.
    + intros Hi. destruct (decide (i = a)) as [->|Hne].
      * destruct (Hspec a) as [_ (-> & -> & ->)]; [lia|].
        exists A, P, row, d. rewrite !list_lookup_insert_eq by lia. done.
      * destruct (Hspec i) as [Hin _]. apply Hin. lia.
    + intros Hi. destruct (Hspec i) as [_ (-> & -> & ->)]; [lia|].
      rewrite !list_lookup_insert_ne by lia. done.
Qed.

Lemma shape2_lookup {A : Type} (u : list (list A)) (nr N : nat) :
  length u = nr ->
  (forall i, i < nr -> exists row, u !! i = Some row /\ length row = N) ->
  shape2 u nr N.
Proof.
  intros Hlen Hrows. split; [done|]. apply Forall_lookup. intros i row Hi.
  destruct (Hrows i) as (row' & Hrow' & Hlen'); [apply lookup_lt_Some in Hi; lia|].
  congruence.
Qed.

(** Whatever the mode, the three arrays that [get_signals] returns have
    shape [(nr_inputs, N)]. *)
Lemma get_signals_shape fuel eps N amp nr idx mode pos UA UP u pos' :
  get_signals draws fuel eps N amp nr idx mode pos = Ok (UA, UP, u, pos') ->
  shape2 UA nr N /\ shape2 UP nr N /\ shape2 u nr N.
Proof.
  unfold get_signals. destruct (String.eqb mode "orthogonal") eqn:Hmode.
  - apply String.eqb_eq in Hmode as ->.
    destruct (get_one_feasible_signal draws fuel eps N amp idx pos)
      as [[[A0 P0] p1]| |] eqn:Hs; simpl; [|done..].
    pose proof (get_one_feasible_signal_lengths _ _ _ _ _ _ _ _ _ _ Hs) as (HA & HP & HN).
    destruct (get_signals_orthogonal_rows draws fuel eps N amp nr idx pos _ _ _ Hs)
      as (UA0 & UP0 & u0 & Hget & HUA & HUP & Hu & Hspec).
    unfold get_signals in Hget. simpl in Hget. rewrite Hs in Hget. simpl in Hget.
    intros Hres. rewrite Hget in Hres. injection Hres as <- <- <- <-.
    repeat split; try done; apply Forall_lookup; intros i row Hi;
      pose proof (lookup_lt_Some _ _ _ Hi) as Hlt;
      destruct (Hspec i) as (HAi & HPi & row' & Hrow' & Hsig); try lia.
    + congruence.
    + rewrite HPi in Hi. injection Hi as <-. by unfold shifted; rewrite length_map.
    + rewrite Hrow' in Hi. injection Hi as <-.
      eapply channel_signal_length; [exact HA| |exact Hsig].
      by unfold shifted; rewrite length_map.
  - destruct (String.eqb mode "random").
    + intros Hrows.
      apply (random_rows_seq fuel eps N amp idx nr) in Hrows
        as (HUA & HUP & Hu & Hspec); [|by rewrite length_replicate..|lia].
      repeat split; try done; apply Forall_lookup; intros i row Hi;
        pose proof (lookup_lt_Some _ _ _ Hi) as Hlt;
        destruct (Hspec i) as [Hin _];
        destruct Hin as (A & P & r & d & HAi & HPi & Hri & HA & HP & Hsig & _); try lia.
      * congruence.
      * congruence.
      * rewrite Hri in Hi. injection Hi as <-.
        eapply channel_signal_length; [exact HA|exact HP|exact Hsig].
    + intros [= <- <- <- <-]. repeat split; try apply shape2_replicate.
Qed.
End RandomRows.

(** ** get_multi_signals *)

Section Trials.
Context {F : Type} `{Arith F} `{NumLib F} `{!NumLibLaws F}.
Variable draws : nat -> F.

Lemma random_rows_returns fuel eps N amp idx nr :
  search_returns draws fuel eps N amp idx ->
  forall n a UA UP u pos,
    length UA = nr -> length UP = nr -> length u = nr -> a + n <= nr ->
    exists st', random_rows draws fuel eps N amp idx (UA, UP, u, pos) (seq a n) = Ok st'.
Proof.
  intros Hsearch. induction n as [|n IH]; intros a UA UP u pos HUA HUP Hu Hle.
  - simpl. eauto.
  - simpl. destruct (Hsearch pos) as (A & P & p1 & Hs). rewrite Hs. simpl.
    unfold getitem. rewrite !list_lookup_insert_eq by lia. simpl.
    pose proof (get_one_feasible_signal_lengths _ _ _ _ _ _ _ _ _ _ Hs) as (HA & HP & HN).
    destruct (channel_signal_returns A P N HA HP HN) as [row Hrow].
    unfold channel_signal in Hrow. rewrite Hrow. simpl.
    apply IH; [by rewrite length_insert..|lia].
Qed.

Lemma get_signals_returns fuel eps N amp nr idx mode pos :
  search_returns draws fuel eps N amp idx ->
  exists r, get_signals draws fuel eps N amp nr idx mode pos = Ok r.
Proof.
  intros Hsearch. unfold get_signals. destruct (String.eqb mode "orthogonal") eqn:Hmode.
  - apply String.eqb_eq in Hmode as ->. destruct (Hsearch pos) as (A & P & p1 & Hs).
    destruct (get_signals_orthogonal_rows draws fuel eps N amp nr idx pos _ _ _ Hs)
      as (UA & UP & u & Hget & _).
    unfold get_signals in Hget. simpl in Hget. eauto.
  - destruct (String.eqb mode "random"); [|eauto].
    apply (random_rows_returns fuel eps N amp idx nr Hsearch);
      [by rewrite length_replicate..|lia].
Qed.

Lemma trials_shape fuel self nr mode m :
  forall ks UA UP u pos UA' UP' u' pos',
    trials draws fuel self nr mode (UA, UP, u, pos) ks = Ok (UA', UP', u', pos') ->
    shape3 UA nr m (N self) -> shape3 UP nr m (N self) -> shape3 u nr m (N self) ->
    shape3 UA' nr m (N self) /\ shape3 UP' nr m (N self) /\ shape3 u' nr m (N self).
Proof.
  induction ks as [|i ks IH]; intros UA UP u pos UA' UP' u' pos'; simpl.
  - intros [= <- <- <- <-]. done.
  - destruct (get_signals _ _ _ _ _ _ _ _ _) as [[[[a ph] x] p1]| |] eqn:Hget;
      simpl; [|done..].
    apply get_signals_shape in Hget as (Ha & Hph & Hx).
    intros Hrest HUA HUP Hu. eapply IH; [exact Hrest|by apply shape3_set_trial..].
Qed.

Lemma trials_returns fuel self nr mode :
  search_returns draws fuel (eps self) (N self) (amp self)
    (Z.of_nat (idx self).1, Z.of_nat (idx self).2) ->
  forall ks st, exists st', trials draws fuel self nr mode st ks = Ok st'.
Proof.
  intros Hsearch. induction ks as [|i ks IH]; intros [[[UA UP] u] pos]; simpl; [eauto|].
  destruct (get_signals_returns fuel (eps self) (N self) (amp self) nr
              (Z.of_nat (idx self).1, Z.of_nat (idx self).2) mode pos Hsearch)
    as [[[[a ph] x] p1] Hget].
  rewrite Hget. simpl. apply IH.
Qed.

End Trials.

(** *** Calls that fail *)

Section Failures.
Context {F : Type} `{Arith F} `{NumLib F} `{!NumLibLaws F}.
Variable draws : nat -> F.



End Failures.


(** ** Exact arithmetic: normalisation *)

Module RealNorm.
Import RealEval.
Open Scope R_scope.

Lemma real_np_max_abs_nonneg (t : list R) (M : R) :
  np_max (map Rabs t) = Ok M -> 0 <= M.
Proof.
  intros HM. apply real_np_max_spec in HM as [Hin _].
  apply list_elem_of_fmap in Hin as (y & -> & _). apply Rabs_pos.
Qed.

(** The entries of a normalised signal lie in [[-1, 1]]. *)
Lemma real_normalization_bound (t u : list R) :
  _get_normalization t = Ok u -> forall x, x ∈ u -> Rabs x <= 1.
Proof.
  unfold _get_normalization. destruct (np_max (map fabs t)) as [M| |] eqn:HM; simpl; [|done..].
  intros [= <-] x Hx. apply list_elem_of_fmap in Hx as (y & -> & Hy).
  pose proof (real_np_max_abs_nonneg t M HM) as HM0.
  apply real_np_max_spec in HM as [_ Hmax].
  assert (Hy' : Rabs y <= M) by (apply Hmax, list_elem_of_fmap; eauto).
  cbn [fdiv Real.arith]. destruct (Req_dec_T M 0) as [->|HMne].
  - assert (y = 0) as ->.
    { pose proof (Rabs_pos y). destruct (Req_dec_T y 0) as [|Hne]; [done|].
      apply Rabs_pos_lt in Hne. lra. }
    unfold Rdiv. rewrite Rmult_0_l, Rabs_R0. lra.
  - unfold Rdiv. rewrite Rabs_mult, Rabs_inv, (Rabs_pos_eq M) by done.
    apply (Rmult_le_reg_r M); [lra|]. rewrite Rmult_assoc, Rinv_l by done. lra.
Qed.

End RealNorm.

(** ** Runs that return *)

(** A round of the loop body returns when the band lies inside the array
    and there are at least two points. *)
Lemma attempt_returns {F : Type} `{Arith F} `{NumLib F} `{!NumLibLaws F}
    (draws : nat -> F) (N : nat) (amp : F) (lo hi : Z) (pos : nat) :
  (0 <= lo)%Z -> (lo <= hi)%Z -> (hi < Z.of_nat N)%Z -> 2 <= N ->
  exists U_amp U_phase u u0 u1,
    attempt draws N amp (lo, hi) pos = Ok (U_amp, U_phase, fabs (u0 ⊖ u1), pos + N) /\
    channel_signal U_amp U_phase = Ok u /\ u !! 0 = Some u0 /\ u !! 1 = Some u1.
Proof.
  intros Hlo Hle Hhi HN.
  destruct (frequency_amplitude_spec N amp lo hi Hlo Hle Hhi) as (A & HA & HlenA & _).
  unfold attempt, get_frequency_signal. rewrite HA. simpl.
  set (P := map _ (seq 0 N)).
  assert (HlenP : length P = N) by (unfold P; by rewrite length_map, length_seq).
  destruct (channel_signal_returns A P N HlenA HlenP) as [u Hu]; [lia|].
  pose proof (channel_signal_length A P u N HlenA HlenP Hu) as Hlenu.
  unfold channel_signal in Hu. rewrite Hu. simpl.
  destruct (lookup_lt_is_Some_2 u 0) as [u0 Hu0]; [lia|].
  destruct (lookup_lt_is_Some_2 u 1) as [u1 Hu1]; [lia|].
  unfold first_step, getitem. rewrite Hu0, Hu1. simpl.
  by exists A, P, u, u0, u1.
Qed.

(** In exact arithmetic two entries of a normalised signal differ by at
    most [2]: for [2 <= eps < 1000] the first round is accepted, whatever
    the random phases. *)
Lemma real_search_returns (draws : nat -> R) (fuel : nat) (eps : R) (N : nat) (amp : R)
    (lo hi : Z) :
  (2 <= eps < 1000)%R ->
  (0 <= lo)%Z -> (lo <= hi)%Z -> (hi < Z.of_nat N)%Z -> 2 <= N ->
  search_returns draws (S fuel) eps N amp (lo, hi).
Proof.
  intros Heps Hlo Hle Hhi HN pos.
  destruct (attempt_returns draws N amp lo hi pos Hlo Hle Hhi HN)
    as (A & P & u & u0 & u1 & Hat & Hu & Hu0 & Hu1).
  exists A, P, (pos + N). unfold get_one_feasible_signal. cbn [feasible_loop].
  assert (Hsent : (of_int 1000 ≻ eps) = true).
  { cbn [flt of_int Real.arith]. unfold Real.ltb.
    destruct (Rlt_dec eps 1000); [done|lra]. }
  rewrite Hsent, Hat. cbn [mbind res_bind].
  assert (Hacc : (fabs (u0 ⊖ u1) ≻ eps) = false).
  { cbn [flt fabs fsub Real.arith]. unfold Real.ltb.
    destruct (Rlt_dec eps (Rabs (u0 - u1))) as [Hlt|]; [|done].
    pose proof (RealNorm.real_normalization_bound _ u Hu u0
                  (list_elem_of_lookup_2 _ _ _ Hu0)) as H0.
    pose proof (RealNorm.real_normalization_bound _ u Hu u1
                  (list_elem_of_lookup_2 _ _ _ Hu1)) as H1.
    pose proof (Rabs_triang u0 (- u1)) as Htri. rewrite Rabs_Ropp in Htri.
    unfold Rminus in Hlt. lra. }
  destruct fuel; cbn [feasible_loop]; by rewrite Hacc.
Qed.



(** ** Mode ['random'] passes the test on every channel *)

Lemma get_signals_random_tested {F : Type} `{Arith F} `{NumLib F} `{!NumLibLaws F}
    (draws : nat -> F) (fuel : nat) (eps : F) (N : nat) (amp : F) (nr_inputs : nat)
    (idx : Z * Z) (pos : nat) (U_amp U_phase u : list (list F)) (pos' : nat) :
  get_signals draws fuel eps N amp nr_inputs idx "random" pos = Ok (U_amp, U_phase, u, pos') ->
  forall i, i < nr_inputs ->
    exists row d, u !! i = Some row /\ first_step row = Ok d /\ (d ≻ eps) = false.
Proof.
  unfold get_signals. simpl. intros Hrows i Hi.
  apply (random_rows_seq draws fuel eps N amp idx nr_inputs) in Hrows
    as (_ & _ & _ & Hspec); [|by rewrite length_replicate..|lia].
  destruct (Hspec i) as [Hin _].
  destruct Hin as (A & P & row & d & _ & _ & Hrow & _ & _ & _ & Hstep & Hd); [lia|].
  by exists row, d.
Qed.

(** In exact arithmetic this is the invariant of C1 for mode ['random']. *)
Lemma real_get_signals_random_feasible
    (draws : nat -> R) (fuel : nat) (eps : R) (N : nat) (amp : R) (nr_inputs : nat)
    (idx : Z * Z) (pos : nat) (U_amp U_phase u : list (list R)) (pos' : nat) :
  get_signals draws fuel eps N amp nr_inputs idx "random" pos = Ok (U_amp, U_phase, u, pos') ->
  forall i, i < nr_inputs ->
    exists row u0 u1, u !! i = Some row /\ row !! 0 = Some u0 /\ row !! 1 = Some u1 /\
                      (Rabs (u0 - u1) <= eps)%R.
Proof.
  intros Hget i Hi.
  destruct (get_signals_random_tested draws fuel eps N amp nr_inputs idx pos _ _ _ _ Hget i Hi)
    as (row & d & Hrow & Hstep & Hd).
  unfold first_step, getitem in Hstep.
  destruct (row !! 0) as [u0|] eqn:H0; simpl in Hstep; [|done].
  destruct (row !! 1) as [u1|] eqn:H1; simpl in Hstep; [|done].
  injection Hstep as <-. exists row, u0, u1. repeat split; try done.
  cbn [flt Real.arith] in Hd. unfold Real.ltb in Hd.
  destruct (Rlt_dec eps (Rabs (u0 - u1))); [done|lra].
Qed.

(** ** Binary64: division by the peak *)

Module Binary64.
Import SF64.
Open Scope Z_scope.

(** Right shifts of a mantissa. *)
Lemma iter_pos_iter {A : Type} (f : A -> A) (p : positive) (x : A) :
  SpecFloat.iter_pos f p x = Pos.iter f x p.
Proof.
  revert x. induction p as [p IH|p IH|]; intros x; simpl; [|by rewrite !IH|done].
  rewrite !IH. by rewrite <- !Pos.iter_swap.
Qed.

Lemma shr_m_shr_1 (mrs : shr_record) :
  0 <= shr_m mrs -> shr_m (shr_1 mrs) = shr_m mrs / 2.
Proof.
  destruct mrs as [m r s]. simpl. intros Hm.
  destruct m as [|[p|p|]|p]; cbn [shr_1 shr_m]; try done; try lia.
  - apply Z.div_unique with 1; lia.
  - apply Z.div_unique with 0; lia.
Qed.

Lemma shr_m_iter (p : positive) (mrs : shr_record) :
  0 <= shr_m mrs -> shr_m (SpecFloat.iter_pos shr_1 p mrs) = shr_m mrs / 2 ^ Zpos p.
Proof.
  intros Hm. rewrite iter_pos_iter.
  induction p as [|p IH] using Pos.peano_ind.
  - simpl. by rewrite shr_m_shr_1.
  - rewrite Pos.iter_succ, shr_m_shr_1, IH.
    + rewrite Pos2Z.inj_succ, Z.pow_succ_r by lia.
      rewrite Z.div_div by lia. f_equal. lia.
    + rewrite IH. apply Z.div_pos; lia.
Qed.

Lemma shr_1_double (z : Z) :
  0 < z -> shr_1 (Build_shr_record (2 * z) false false) = Build_shr_record z false false.
Proof. destruct z; try lia. done. Qed.

Lemma shr_iter_pow2 (p : positive) (a : Z) :
  Zpos p <= a ->
  SpecFloat.iter_pos shr_1 p (Build_shr_record (2 ^ a) false false)
  = Build_shr_record (2 ^ (a - Zpos p)) false false.
Proof.
  rewrite iter_pos_iter. induction p as [|p IH] using Pos.peano_ind; intros Ha.
  - simpl. replace (2 ^ a) with (2 * 2 ^ (a - 1)).
    + apply shr_1_double. lia.
    + rewrite <- Z.pow_succ_r by lia. f_equal. lia.
  - rewrite Pos.iter_succ, IH by lia.
    replace (2 ^ (a - Zpos p)) with (2 * 2 ^ (a - Zpos (Pos.succ p))).
    + apply shr_1_double. lia.
    + rewrite <- Z.pow_succ_r by lia. f_equal. lia.
Qed.

(** The number of binary digits. *)
Lemma digits2_pos_size (p : positive) : digits2_pos p = Pos.size p.
Proof. induction p; simpl; congruence. Qed.

Lemma Zdigits2_bounds (p : positive) :
  2 ^ (Zdigits2 (Zpos p) - 1) <= Zpos p < 2 ^ Zdigits2 (Zpos p).
Proof.
  change (Zdigits2 (Zpos p)) with (Zpos (digits2_pos p)). rewrite digits2_pos_size.
  pose proof (Pos.size_gt p) as Hgt. pose proof (Pos.size_le p) as Hle.
  apply Pos2Z.pos_lt_pos in Hgt. apply Pos2Z.pos_le_pos in Hle.
  rewrite Pos2Z.inj_pow in Hgt, Hle. change (Z.pos p~0) with (2 * Z.pos p) in Hle.
  split; [|exact Hgt].
  assert (2 ^ Zpos (Pos.size p) = 2 * 2 ^ (Zpos (Pos.size p) - 1)) as Heq.
  { rewrite <- Z.pow_succ_r by lia. f_equal. lia. }
  lia.
Qed.

Lemma Zdigits2_le (p : positive) (k : Z) : Zpos p < 2 ^ k -> Zdigits2 (Zpos p) <= k.
Proof.
  intros Hlt. destruct (Zdigits2_bounds p) as [Hlo _].
  destruct (Z_le_gt_dec (Zdigits2 (Zpos p)) k) as [|Hgt]; [done|].
  assert (2 ^ k <= 2 ^ (Zdigits2 (Zpos p) - 1)).
  { destruct (Z_lt_le_dec k 0).
    - rewrite (Z.pow_neg_r 2 k) by lia. apply Z.pow_nonneg. lia.
    - apply Z.pow_le_mono_r; lia. }
  lia.
Qed.

Lemma Zdigits2_ge (p : positive) (k : Z) : 0 <= k -> 2 ^ k <= Zpos p -> k < Zdigits2 (Zpos p).
Proof.
  intros Hk Hle. destruct (Zdigits2_bounds p) as [_ Hhi].
  destruct (Z_lt_le_dec k (Zdigits2 (Zpos p))) as [|Hge]; [done|].
  assert (2 ^ Zdigits2 (Zpos p) <= 2 ^ k) by (apply Z.pow_le_mono_r; lia).
  lia.
Qed.

(** The parameters of binary64. *)
Lemma fexp64 (e : Z) : fexp prec emax e = Z.max (e - 53) (-1074).
Proof. reflexivity. Qed.

Lemma bounded64 (m : positive) (e : Z) :
  SpecFloat.bounded prec emax m e = true ->
  Z.max (Zdigits2 (Zpos m) + e - 53) (-1074) = e /\ e <= 971.
Proof.
  unfold SpecFloat.bounded, canonical_mantissa. intros Hb.
  apply andb_true_iff in Hb as [Hc He].
  apply Z.eqb_eq in Hc. apply Z.leb_le in He.
  rewrite fexp64 in Hc. change (emax - prec) with 971 in He. done.
Qed.

Lemma Zdigits2_nonneg (q : Z) : 0 <= Zdigits2 q.
Proof. destruct q; simpl; lia. Qed.

Lemma Zdigits2_lt_pow (q k : Z) : 0 <= q -> 0 <= k -> q < 2 ^ k -> Zdigits2 q <= k.
Proof.
  intros Hq Hk Hlt. destruct q as [|p|p]; [simpl; lia| |lia]. by apply Zdigits2_le.
Qed.

Lemma lt_pow_Zdigits2 (q : Z) : 0 <= q -> q < 2 ^ Zdigits2 q.
Proof.
  intros Hq. destruct q as [|p|p]; [simpl; lia| |lia]. apply Zdigits2_bounds.
Qed.

Lemma Zdigits2_pow2 (k : Z) : 0 <= k -> Zdigits2 (2 ^ k) = k + 1.
Proof.
  intros Hk. pose proof (Z.pow_pos_nonneg 2 k ltac:(lia) Hk) as Hpos.
  destruct (2 ^ k) as [|p|p] eqn:Hp; try lia.
  apply Z.le_antisymm.
  - apply Zdigits2_le. rewrite <- Hp, Z.pow_add_r by lia. lia.
  - pose proof (Zdigits2_ge p k Hk). lia.
Qed.

Lemma shr_m_of_loc (q : Z) (l : location) : shr_m (shr_record_of_loc q l) = q.
Proof. by destruct l as [|[]]. Qed.

Lemma round_nearest_even_bounds (m : Z) (l : location) :
  m <= round_nearest_even m l <= m + 1.
Proof. destruct l as [|[]]; simpl; try lia. destruct (Z.even m); lia. Qed.

Lemma finish_round (s : bool) (m2 e1 : Z) :
  0 <= m2 <= 2 ^ 53 -> -1074 <= e1 <= -53 ->
  le_one s
    (let '(mrs'', e'') := shr_fexp prec emax m2 e1 loc_Exact in
     match shr_m mrs'' with
     | Z0 => S754_zero s
     | Zpos m => if e'' <=? emax - prec then S754_finite s m e'' else S754_infinity s
     | _ => S754_nan
     end).
Proof.
  intros Hm He. unfold shr_fexp. rewrite fexp64.
  destruct (Z.eq_dec m2 (2 ^ 53)) as [->|Hne].
  - rewrite (Zdigits2_pow2 53) by lia.
    replace (Z.max (53 + 1 + e1 - 53) (-1074) - e1) with 1 by lia.
    cbn [shr shr_record_of_loc]. rewrite (shr_iter_pow2 1 53) by lia.
    cbn [shr_m]. change (2 ^ (53 - 1)) with (Zpos 4503599627370496).
    cbv beta iota.
    replace (e1 + 1 <=? emax - prec) with true
      by (symmetry; apply Z.leb_le; change (emax - prec) with 971; lia).
    right. exists 4503599627370496%positive, (e1 + 1). split; [done|].
    change (2 ^ 52) with (Zpos 4503599627370496). lia.
  - assert (Hd : Zdigits2 m2 <= 53) by (apply Zdigits2_lt_pow; lia).
    pose proof (Zdigits2_nonneg m2) as Hd0.
    assert (Hn : Z.max (Zdigits2 m2 + e1 - 53) (-1074) - e1 <= 0) by lia.
    assert (Hshr : shr (shr_record_of_loc m2 loc_Exact) e1
                     (Z.max (Zdigits2 m2 + e1 - 53) (-1074) - e1)
                   = (shr_record_of_loc m2 loc_Exact, e1)).
    { unfold shr. destruct (Z.max _ _ - e1); try done; lia. }
    rewrite Hshr. cbn [shr_m shr_record_of_loc].
    destruct m2 as [|p|p]; [by left| |lia].
    replace (e1 <=? emax - prec) with true
      by (symmetry; apply Z.leb_le; change (emax - prec) with 971; lia).
    right. exists p, e1. split; [done|]. lia.
Qed.

(** Rounding a value below one. *)
Lemma round_below_one (s : bool) (q e' : Z) (loc : location) :
  0 <= q -> e' <= -53 -> q < 2 ^ (- e') ->
  le_one s (binary_round_aux prec emax s q e' loc).
Proof.
  intros Hq He Hlt. unfold binary_round_aux.
  pose proof (Zdigits2_nonneg q) as Hd0.
  assert (Hd : Zdigits2 q <= - e') by (apply Zdigits2_lt_pow; lia).
  pose proof (lt_pow_Zdigits2 q Hq) as Hqd.
  unfold shr_fexp at 1. rewrite fexp64.
  set (n1 := Z.max (Zdigits2 q + e' - 53) (-1074) - e').
  destruct (shr (shr_record_of_loc q loc) e' n1) as [mrs' e1] eqn:Hshr.
  assert (Hfacts : 0 <= shr_m mrs' < 2 ^ 53 /\ -1074 <= e1 <= -53).
  { unfold shr in Hshr. destruct n1 as [|p|p] eqn:Hn1.
    - injection Hshr as <- <-. rewrite shr_m_of_loc.
      assert (Zdigits2 q <= 53) by lia.
      assert (2 ^ Zdigits2 q <= 2 ^ 53) by (apply Z.pow_le_mono_r; lia). lia.
    - injection Hshr as <- <-. rewrite shr_m_iter, shr_m_of_loc by (by rewrite shr_m_of_loc).
      split; [|lia]. split; [apply Z.div_pos; lia|].
      apply Z.div_lt_upper_bound; [lia|].
      rewrite <- Z.pow_add_r by lia.
      assert (2 ^ Zdigits2 q <= 2 ^ (Z.pos p + 53)) by (apply Z.pow_le_mono_r; lia). lia.
    - injection Hshr as <- <-. rewrite shr_m_of_loc.
      assert (Zdigits2 q <= 53) by lia.
      assert (2 ^ Zdigits2 q <= 2 ^ 53) by (apply Z.pow_le_mono_r; lia). lia. }
  destruct Hfacts as [Hm1 He1].
  pose proof (round_nearest_even_bounds (shr_m mrs') (loc_of_shr_record mrs')) as Hr.
  apply finish_round; lia.
Qed.

(** Rounding one. *)
Lemma round_exactly_one (s : bool) (e' : Z) :
  e' <= -53 ->
  binary_round_aux prec emax s (2 ^ (- e')) e' loc_Exact
  = S754_finite s 4503599627370496 (-52).
Proof.
  intros He. unfold binary_round_aux. unfold shr_fexp at 1.
  rewrite fexp64, Zdigits2_pow2 by lia.
  replace (Z.max (- e' + 1 + e' - 53) (-1074) - e') with (- 52 - e') by lia.
  destruct (- 52 - e') as [|p|p] eqn:Hp; try lia.
  cbn [shr shr_record_of_loc]. rewrite shr_iter_pow2 by lia.
  replace (- e' - Z.pos p) with 52 by lia. replace (e' + Z.pos p) with (-52) by lia.
  reflexivity.
Qed.

Lemma new_location_0 (n : Z) : new_location n 0 = loc_Exact.
Proof. unfold new_location, new_location_even, new_location_odd. by destruct (Z.even n). Qed.

(** The quotient of two canonical magnitudes, numerator not above the
    denominator. *)
Lemma div_core_le (mx : positive) (ex : Z) (mM : positive) (eM : Z) :
  SpecFloat.bounded prec emax mx ex = true ->
  SpecFloat.bounded prec emax mM eM = true ->
  ex < eM \/ (ex = eM /\ Zpos mx <= Zpos mM) ->
  exists q e' loc,
    SFdiv_core_binary prec emax (Zpos mx) ex (Zpos mM) eM = (q, e', loc) /\
    0 <= q /\ e' <= -53 /\
    (q < 2 ^ (- e') \/ (q = 2 ^ (- e') /\ loc = loc_Exact)) /\
    (ex = eM -> mx = mM -> q = 2 ^ (- e') /\ loc = loc_Exact).
Proof.
  intros Hbx HbM Hle.
  apply bounded64 in Hbx as [Hcx Hex]. apply bounded64 in HbM as [HcM HeM].
  destruct (Zdigits2_bounds mx) as [Hx1 Hx2]. destruct (Zdigits2_bounds mM) as [HM1 HM2].
  pose proof (Zdigits2_nonneg (Zpos mx)) as Hdx0.
  pose proof (Zdigits2_nonneg (Zpos mM)) as HdM0.
  set (d1 := Zdigits2 (Zpos mx)) in *. set (d2 := Zdigits2 (Zpos mM)) in *.
  assert (Hd1 : d1 <= 53) by lia.
  assert (Hx53 : Zpos mx < 2 ^ 53).
  { assert (2 ^ d1 <= 2 ^ 53) by (apply Z.pow_le_mono_r; lia). lia. }
  assert (Harg : d1 + ex - (d2 + eM) <= 0).
  { destruct Hle as [Hlt|[-> Hm]].
    - assert (d2 = 53) by lia. lia.
    - assert (d1 <= d2); [|lia].
      destruct (Z_le_gt_dec d1 d2) as [|Hgt]; [done|].
      assert (2 ^ d2 <= 2 ^ (d1 - 1)) by (apply Z.pow_le_mono_r; lia). lia. }
  unfold SFdiv_core_binary. fold d1 d2. rewrite fexp64.
  set (e' := Z.min (Z.max (d1 + ex - (d2 + eM) - 53) (-1074)) (ex - eM)).
  assert (He' : e' <= -53) by lia.
  assert (Hs : 0 <= ex - eM - e') by lia.
  set (sh := ex - eM - e') in *.
  set (m' := match sh with Z.pos _ => Z.pos mx ≪ sh | 0 => Z.pos mx | Z.neg _ => 0 end).
  assert (Hm' : m' = Zpos mx * 2 ^ sh).
  { unfold m'. destruct sh as [|p|p] eqn:Hsh; [lia| |lia].
    by rewrite Z.shiftl_mul_pow2. }
  clearbody m'.
  pose proof (Z_div_mod m' (Zpos mM) ltac:(lia)) as Hdiv.
  destruct (Z.div_eucl m' (Z.pos mM)) as [q r]. destruct Hdiv as [Hqr Hr].
  assert (Hsh2 : 0 < 2 ^ sh) by (apply Z.pow_pos_nonneg; lia).
  assert (HB : 2 ^ (- e') = 2 ^ sh * 2 ^ (eM - ex)).
  { rewrite <- Z.pow_add_r by lia. f_equal. lia. }
  assert (Hupper : m' <= Zpos mM * 2 ^ (- e')).
  { rewrite Hm', HB. destruct Hle as [Hlt|[-> Hm]].
    - assert (HM52 : 2 ^ 52 <= Zpos mM).
      { assert (d2 = 53) as Hd2 by lia. rewrite Hd2 in HM1. exact HM1. }
      assert (2 ^ 1 <= 2 ^ (eM - ex)) by (apply Z.pow_le_mono_r; lia).
      change (2 ^ 1) with 2 in *. change (2 ^ 53) with (2 ^ 52 * 2) in Hx53.
      nia.
    - rewrite Z.sub_diag. change (2 ^ 0) with 1. nia. }
  assert (Hq0 : 0 <= q) by nia.
  assert (HqB : q <= 2 ^ (- e')) by nia.
  exists q, e', (new_location (Z.pos mM) r). split; [done|].
  split; [done|]. split; [done|]. split.
  - destruct (Z.eq_dec q (2 ^ (- e'))) as [Heq|Hne]; [right|left; lia].
    split; [done|]. assert (r = 0) as -> by nia. apply new_location_0.
  - intros -> ->. assert (Hsh53 : 2 ^ (- e') = 2 ^ sh).
    { f_equal. lia. }
    assert (q = 2 ^ sh) by nia. assert (r = 0) as -> by nia.
    split; [congruence|apply new_location_0].
Qed.

Lemma SFleb_finite (m1 : positive) (e1 : Z) (m2 : positive) (e2 : Z) :
  SFleb (S754_finite false m1 e1) (S754_finite false m2 e2) = true <->
  e1 < e2 \/ (e1 = e2 /\ Zpos m1 <= Zpos m2).
Proof.
  unfold SFleb, SFcompare.
  destruct (Z.compare_spec e1 e2) as [->|Hlt|Hgt].
  - change (Pos.compare_cont Eq m1 m2) with (Pos.compare m1 m2).
    destruct (Pos.compare_spec m1 m2) as [->|Hm|Hm];
      (split; intros Ht; first [done | lia | (right; split; [done|lia])]).
  - split; [intros _; by left|done].
  - split; [done|lia].
Qed.

Lemma SFleb_refl (z : spec_float) : nonneg_finite z -> SFleb z z = true.
Proof.
  intros [->|(m & e & ->)]; [done|]. apply SFleb_finite. right. split; [done|]. lia.
Qed.

Lemma SFleb_total (a b : spec_float) :
  nonneg_finite a -> nonneg_finite b -> SFleb a b = false -> SFleb b a = true.
Proof.
  intros [->|(m1 & e1 & ->)] [->|(m2 & e2 & ->)]; try done.
  intros Hab. apply SFleb_finite.
  destruct (Z_lt_le_dec e2 e1) as [|Hle]; [by left|].
  destruct (Z.eq_dec e1 e2) as [->|Hne].
  - right. split; [done|].
    destruct (Z_le_gt_dec (Zpos m2) (Zpos m1)) as [|Hlt]; [done|].
    assert (SFleb (S754_finite false m1 e2) (S754_finite false m2 e2) = true); [|congruence].
    apply SFleb_finite. right. split; [done|]. lia.
  - assert (SFleb (S754_finite false m1 e1) (S754_finite false m2 e2) = true); [|congruence].
    apply SFleb_finite. left. lia.
Qed.

Lemma SFleb_trans (a b c : spec_float) :
  nonneg_finite a -> nonneg_finite b -> nonneg_finite c ->
  SFleb a b = true -> SFleb b c = true -> SFleb a c = true.
Proof.
  intros [->|(m1 & e1 & ->)] [->|(m2 & e2 & ->)] [->|(m3 & e3 & ->)]; try done.
  rewrite !SFleb_finite. lia.
Qed.

Lemma SFleb_antisym (a b : spec_float) :
  nonneg_finite a -> nonneg_finite b ->
  SFleb a b = true -> SFleb b a = true -> a = b.
Proof.
  intros [->|(m1 & e1 & ->)] [->|(m2 & e2 & ->)]; try done.
  rewrite !SFleb_finite. intros H1 H2.
  assert (e1 = e2) as -> by lia. f_equal. lia.
Qed.

Lemma le_one_SFleb (s : bool) (z : spec_float) :
  le_one s z -> nonneg_finite (SFabs z) /\ SFleb (SFabs z) SF_one = true.
Proof.
  intros [->|(m & e & -> & Hb)]; cbn [SFabs].
  - split; [by left|reflexivity].
  - split; [right; eauto|]. apply SFleb_finite.
    change (2 ^ 52) with (Zpos 4503599627370496) in Hb. lia.
Qed.


(** Division of a finite value by a positive finite value that bounds its
    magnitude. *)
Lemma SFdiv_le_one (X : spec_float) (mM : positive) (eM : Z) :
  valid_binary X = true -> SpecFloat.bounded prec emax mM eM = true ->
  nonneg_finite (SFabs X) ->
  SFleb (SFabs X) (S754_finite false mM eM) = true ->
  (exists s, le_one s (SFdiv prec emax X (S754_finite false mM eM))) /\
  (SFabs X = S754_finite false mM eM ->
   SFabs (SFdiv prec emax X (S754_finite false mM eM)) = SF_one).
Proof.
  intros HvX HbM Hnn Hle. destruct X as [sx|sx| |sx mx ex].
  - split; [exists (xorb sx false); by left|done].
  - by destruct Hnn as [|(? & ? & ?)].
  - by destruct Hnn as [|(? & ? & ?)].
  - cbn [SFabs] in Hle. apply SFleb_finite in Hle.
    cbn [valid_binary SpecFloat.valid_binary] in HvX.
    destruct (div_core_le mx ex mM eM HvX HbM Hle)
      as (q & e' & loc & Hcore & Hq & He' & Hcase & Heq).
    unfold SFdiv. rewrite Hcore. split.
    + exists (xorb sx false). destruct Hcase as [Hlt|[-> ->]].
      * by apply round_below_one.
      * rewrite round_exactly_one by done. right. eexists _, _. split; [done|].
        right. split; [done|]. change (2 ^ 52) with (Zpos 4503599627370496). lia.
    + cbn [SFabs]. intros [= -> ->]. destruct Heq as [-> ->]; [done..|].
      by rewrite round_exactly_one.
Qed.

(** From spec floats to the primitive floats. *)
Close Scope Z_scope.

Lemma is_finite_SF (x : float) :
  Float64.is_finite x = true ->
  exists s, Prim2SF x = S754_zero s \/ exists m e, Prim2SF x = S754_finite s m e.
Proof.
  unfold Float64.is_finite. intros Hfin.
  apply andb_true_iff in Hfin as [Hnan Hinf].
  apply negb_true_iff in Hnan, Hinf. unfold Prim2SF. rewrite Hnan, Hinf.
  destruct (PrimFloat.is_zero x); [eauto|].
  destruct (FloatOps.Z.frexp x) as [r ex]. destruct (shr_fexp _ _ _ _ _) as [mrs e'].
  destruct (shr_m mrs); eauto.
Qed.

Lemma abs_nonneg_finite (x : float) :
  Float64.is_finite x = true -> nonneg_finite (Prim2SF (abs x)).
Proof.
  intros Hfin. rewrite FloatAxioms.abs_spec.
  destruct (is_finite_SF x Hfin) as [s [->|(m & e & ->)]]; [by left|right; eauto].
Qed.

Lemma nonneg_finite_not_nan (y : float) :
  nonneg_finite (Prim2SF y) -> isnan y = false.
Proof.
  intros Hy. unfold isnan. cbn [feq Float64.arith].
  rewrite FloatAxioms.eqb_spec. unfold SFeqb.
  pose proof (SFleb_refl _ Hy) as Hrefl. unfold SFleb in Hrefl.
  destruct Hy as [->|(m & e & ->)]; [done|].
  unfold SFcompare in *. rewrite Z.compare_refl in *.
  change (Pos.compare_cont Eq m m) with (Pos.compare m m) in *.
  by rewrite Pos.compare_refl.
Qed.

(** [np.max] on non-negative finite numbers. *)
Lemma float_foldl_max (t : list float) (x : float) :
  nonneg_finite (Prim2SF x) -> Forall (fun y => nonneg_finite (Prim2SF y)) t ->
  let M := foldl np_maximum x t in
  nonneg_finite (Prim2SF M) /\ M ∈ x :: t /\
  forall y, y ∈ x :: t -> (y <=? M)%float = true.
Proof.
  intros Hx Ht. revert x Hx. induction Ht as [|z t Hz _ IH]; intros x Hx; simpl.
  - split; [done|]. split; [apply list_elem_of_here|].
    intros y Hy. apply list_elem_of_singleton in Hy as ->.
    rewrite FloatAxioms.leb_spec. by apply SFleb_refl.
  - assert (Hstep : np_maximum x z = x /\ (z <=? x)%float = true \/
                    np_maximum x z = z /\ (x <=? z)%float = true).
    { unfold np_maximum. rewrite (nonneg_finite_not_nan x Hx), orb_false_r.
      cbn [fle Float64.arith]. destruct (z <=? x)%float eqn:Hzx; [by left|right].
      split; [done|]. rewrite FloatAxioms.leb_spec in *. by apply SFleb_total. }
    destruct Hstep as [[-> Hle]|[-> Hle]].
    + destruct (IH x Hx) as (HM & Hin & Hmax). split; [done|]. split.
      * apply elem_of_cons in Hin as [->|Hin]; [apply list_elem_of_here|].
        by do 2 apply list_elem_of_further.
      * intros y Hy. apply elem_of_cons in Hy as [->|Hy].
        { apply Hmax, list_elem_of_here. }
        apply elem_of_cons in Hy as [->|Hy].
        { rewrite FloatAxioms.leb_spec in *.
          eapply SFleb_trans; [done|exact Hx|done|exact Hle|].
          rewrite <- FloatAxioms.leb_spec. apply Hmax, list_elem_of_here. }
        by apply Hmax, list_elem_of_further.
    + destruct (IH z Hz) as (HM & Hin & Hmax). split; [done|]. split.
      * by apply list_elem_of_further.
      * intros y Hy. apply elem_of_cons in Hy as [->|Hy]; [|by apply Hmax].
        rewrite FloatAxioms.leb_spec in *.
        eapply SFleb_trans; [done|exact Hz|done|exact Hle|].
        rewrite <- FloatAxioms.leb_spec. apply Hmax, list_elem_of_here.
Qed.

Lemma float_nonzero_finite (x : float) :
  Float64.is_finite x = true -> (x ≗ 0%float) = false ->
  exists m e, Prim2SF (abs x) = S754_finite false m e.
Proof.
  intros Hfin Hne. cbn [feq Float64.arith] in Hne.
  rewrite FloatAxioms.eqb_spec in Hne. rewrite FloatAxioms.abs_spec.
  change (Prim2SF 0) with (S754_zero false) in Hne.
  destruct (is_finite_SF x Hfin) as [s [Hx|(m & e & Hx)]]; rewrite Hx in *; [done|].
  cbn [SFabs]. eauto.
Qed.

(** The quotient of a finite number by a bound of its magnitude. *)
Lemma float_div_le_one (x M : float) (mM : positive) (eM : Z) :
  Float64.is_finite x = true ->
  Prim2SF M = S754_finite false mM eM ->
  (abs x <=? M)%float = true ->
  nonneg_finite (Prim2SF (abs (x / M))) /\
  (abs (x / M) <=? 1)%float = true /\
  (abs x = M -> abs (x / M) = 1%float).
Proof.
  intros Hfin HM Hle.
  pose proof (abs_nonneg_finite x Hfin) as Hnn.
  pose proof (Prim2SF_valid x) as Hvx. pose proof (Prim2SF_valid M) as HvM.
  rewrite HM in HvM. cbn [SpecFloat.valid_binary] in HvM.
  rewrite FloatAxioms.leb_spec, FloatAxioms.abs_spec, HM in Hle. rewrite FloatAxioms.abs_spec in Hnn.
  destruct (SFdiv_le_one (Prim2SF x) mM eM Hvx HvM Hnn Hle) as [[s Hone] Heq].
  apply le_one_SFleb in Hone as [Hnn1 Hle1].
  rewrite FloatAxioms.leb_spec, !FloatAxioms.abs_spec, FloatAxioms.div_spec. unfold SF64div. rewrite HM.
  split; [done|]. split; [done|].
  intros Habs. apply Prim2SF_inj. rewrite FloatAxioms.abs_spec, FloatAxioms.div_spec. unfold SF64div.
  rewrite HM. apply Heq. by rewrite <- FloatAxioms.abs_spec, Habs.
Qed.

(** In binary64 the peak of a finite signal that is not identically zero
    becomes exactly [1.0]. *)
Lemma float_normalization_peak (u : list float) :
  Forall (fun x => Float64.is_finite x = true) u ->
  (exists x, x ∈ u /\ (x ≗ 0%float) = false) ->
  exists M u',
    np_max (map fabs u) = Ok M /\
    _get_normalization u = Ok u' /\
    u' = map (fun x => x ⊘ M) u /\
    np_max (map fabs u') = Ok 1%float.
Proof.
  intros Hfin (x0 & Hx0 & Hx0ne).
  destruct u as [|x t]; [by apply elem_of_nil in Hx0|].
  pose proof (proj1 (Forall_forall _ _) Hfin) as Hfin'.
  assert (Hall : Forall (fun y => nonneg_finite (Prim2SF y)) (map fabs (x :: t))).
  { apply Forall_map. eapply Forall_impl; [exact Hfin|].
    intros y Hy. by apply abs_nonneg_finite. }
  cbn [map] in Hall. apply Forall_cons in Hall as [Hx Ht].
  destruct (float_foldl_max (map fabs t) (fabs x) Hx Ht) as (HMnn & HMin & HMmax).
  set (M := foldl np_maximum (fabs x) (map fabs t)) in *.
  assert (HMfin : exists mM eM, Prim2SF M = S754_finite false mM eM).
  { destruct (float_nonzero_finite x0) as (m0 & e0 & H0); [by apply Hfin'|done|].
    assert (Hle : (abs x0 <=? M)%float = true).
    { apply HMmax. change (fabs x :: map fabs t) with (map fabs (x :: t)).
      apply list_elem_of_fmap. eauto. }
    rewrite FloatAxioms.leb_spec, H0 in Hle.
    destruct HMnn as [HM0|HMf]; [|done]. by rewrite HM0 in Hle. }
  destruct HMfin as (mM & eM & HM).
  exists M, (map (fun y => y ⊘ M) (x :: t)).
  split; [done|]. split; [unfold _get_normalization; cbn [map np_max mbind res_bind]; done|].
  split; [done|].
  assert (Hq : forall y, y ∈ x :: t ->
                 nonneg_finite (Prim2SF (abs (y / M))) /\
                 (abs (y / M) <=? 1)%float = true /\
                 (abs y = M -> abs (y / M) = 1%float)).
  { intros y Hy. apply (float_div_le_one y M mM eM); [by apply Hfin'|done|].
    apply HMmax. change (fabs x :: map fabs t) with (map fabs (x :: t)).
      apply list_elem_of_fmap. eauto. }
  assert (Hall' : Forall (fun y => nonneg_finite (Prim2SF y))
                    (map fabs (map (fun y => y ⊘ M) (x :: t)))).
  { apply Forall_map, Forall_map. apply Forall_forall. intros y Hy.
    by apply Hq. }
  cbn [map] in Hall'. apply Forall_cons in Hall' as [Hx' Ht'].
  destruct (float_foldl_max _ _ Hx' Ht') as (HM'nn & HM'in & HM'max).
  cbn [map np_max]. f_equal.
  set (M' := foldl np_maximum _ _) in *.
  apply Prim2SF_inj. apply SFleb_antisym; [done|by right; eexists _, _| |].
  - change (fabs (x ⊘ M) :: map fabs (map (fun y => y ⊘ M) t))
      with (map fabs (map (fun y => y ⊘ M) (x :: t))) in HM'in.
    apply list_elem_of_fmap in HM'in as (z & -> & Hz).
    apply list_elem_of_fmap in Hz as (y & -> & Hy).
    destruct (Hq y Hy) as (_ & Hle & _).
    by rewrite FloatAxioms.leb_spec in Hle.
  - change (fabs x :: map fabs t) with (map fabs (x :: t)) in HMin.
    apply list_elem_of_fmap in HMin as (y & HyM & Hy).
    destruct (Hq y Hy) as (_ & _ & Hone). symmetry in HyM. specialize (Hone HyM).
    rewrite <- FloatAxioms.leb_spec. rewrite <- Hone. apply HM'max.
    change (fabs (x ⊘ M) :: map fabs (map (fun y => y ⊘ M) t))
      with (map fabs (map (fun y => y ⊘ M) (x :: t))).
    apply list_elem_of_fmap. eexists. split; [reflexivity|].
    apply list_elem_of_fmap. eauto.
Qed.
End Binary64.

(** ** Normalisation in binary64 *)

Lemma float_zero_cases (x : float) : (x ≗ 0%float) = true -> x = 0%float \/ x = (-0)%float.
Proof.
  cbn [feq Float64.arith]. rewrite FloatAxioms.eqb_spec. unfold SFeqb.
  intros Heq. rewrite <- (SF2Prim_Prim2SF x).
  change (Prim2SF 0) with (S754_zero false) in Heq.
  destruct (Prim2SF x) as [s|s| |s m e]; simpl in Heq.
  - destruct s; [right|left]; reflexivity.
  - by destruct s.
  - done.
  - by destruct s.
Qed.

Lemma float_max_zeros (t : list float) :
  Forall (fun x => (x ≗ 0%float) = true) t ->
  foldl np_maximum 0%float (map fabs t) = 0%float.
Proof.
  induction 1 as [|x t Hx _ IH]; simpl; [done|].
  apply float_zero_cases in Hx as [-> | ->]; exact IH.
Qed.

(** An array of zeros: every entry of the result is [0/0], NaN. *)
Lemma float_normalization_zeros (u : list float) :
  u <> [] -> Forall (fun x => (x ≗ 0%float) = true) u ->
  exists u', _get_normalization u = Ok u' /\ length u' = length u /\
             Forall (fun y => isnan y = true) u'.
Proof.
  intros Hne Hall. destruct u as [|x t]; [done|].
  unfold _get_normalization. cbn [map np_max].
  assert (HM : foldl np_maximum (fabs x) (map fabs t) = 0%float).
  { apply Forall_cons in Hall as [Hx Ht].
    apply float_zero_cases in Hx as [-> | ->]; by apply float_max_zeros. }
  rewrite HM. exists (map (fun y => y ⊘ 0%float) (x :: t)).
  split; [reflexivity|]. split; [by rewrite length_map|].
  apply Forall_map. eapply Forall_impl; [exact Hall|].
  intros y Hy. simpl. apply float_zero_cases in Hy as [-> | ->]; reflexivity.
Qed.

(** C5, as the code has it, in binary64.  A signal whose entries are all
    finite and that is not identically zero is divided by its peak
    [max |u|], and the peak of the result is exactly [1.0].  An array of
    zeros comes back as an array of NaN ([0/0]) of the same length, and the
    empty array raises [ValueError] ([np.max] of an empty array). *)
Theorem normalization_peak :
  (forall u : list float,
     Forall (fun x => Float64.is_finite x = true) u ->
     (exists x, x ∈ u /\ (x ≗ 0%float) = false) ->
     exists M u',
       np_max (map fabs u) = Ok M /\
       _get_normalization u = Ok u' /\
       u' = map (fun x => x ⊘ M) u /\
       np_max (map fabs u') = Ok 1%float) /\
  (forall u : list float,
     u <> [] -> Forall (fun x => (x ≗ 0%float) = true) u ->
     exists u', _get_normalization u = Ok u' /\ length u' = length u /\
                Forall (fun y => isnan y = true) u') /\
  _get_normalization (F := float) [] = Raise ValueError.
Proof.
  split; [|split].
  - exact Binary64.float_normalization_peak.
  - exact float_normalization_zeros.
  - reflexivity.
Qed.

(** The statement of C5 on the signal [[3; -4; 1]], which normalises to
    [[0.75; -1; 0.25]], and on [[0; -0]]. *)
Lemma normalization_peak_witness :
  (exists M u',
     np_max (map fabs [3; -4; 1]%float) = Ok M /\
     _get_normalization [3; -4; 1]%float = Ok u' /\
     u' = map (fun x => x ⊘ M) [3; -4; 1]%float /\
     np_max (map fabs u') = Ok 1%float) /\
  (exists u', _get_normalization [0; -0]%float = Ok u' /\ length u' = 2 /\
              Forall (fun y => isnan y = true) u').
Proof.
  split.
  - apply (proj1 normalization_peak).
    + repeat constructor.
    + exists 3%float. split; [apply list_elem_of_here|reflexivity].
  - apply (proj1 (proj2 normalization_peak)); [done|]. repeat constructor.
Defined.

(** C5 as stated fails in binary64 on an array that holds an infinity: it
    is not identically zero, and the peak of the result is NaN, not [1]. *)
Lemma normalization_infinity :
  (exists x, x ∈ [infinity; 1%float] /\ (x ≗ 0%float) = false) /\
  _get_normalization [infinity; 1%float] = Ok [nan; 0%float] /\
  np_max (map fabs [nan; 0%float]) = Ok nan /\
  (nan ≗ 1%float) = false.
Proof.
  split; [exists infinity; split; [apply list_elem_of_here|reflexivity]|].
  repeat split; vm_compute; reflexivity.
Qed.

(** * Errors, edge cases and further invariants *)

(** ** Outcomes of the constructor *)

Section InitOutcomes.
Context {F : Type} `{Arith F}.

Lemma getitem_raise {A : Type} (l : list A) (i : nat) (e : exn) :
  getitem l i = Raise e -> e = IndexError.
Proof. unfold getitem. destruct (l !! i); [done|]. congruence. Qed.

Lemma getitem_fuel {A : Type} (l : list A) (i : nat) : getitem l i <> OutOfFuel.
Proof. unfold getitem. by destruct (l !! i). Qed.

Lemma get_freq_index_raise (fr : F * F) (st : list F) (e : exn) :
  get_freq_index fr st = Raise e -> e = IndexError.
Proof.
  unfold get_freq_index.
  destruct (getitem (np_where (map (fun x => x ≗ fr.1) st)) 0) as [lo|e1|] eqn:Hlo; simpl.
  - destruct (getitem (np_where (map (fun x => x ≗ fr.2) st)) 0) as [hi|e2|] eqn:Hhi; simpl.
    + done.
    + intros [= <-]. by eapply getitem_raise.
    + by apply getitem_fuel in Hhi.
  - intros [= <-]. by eapply getitem_raise.
  - by apply getitem_fuel in Hlo.
Qed.

Lemma get_freq_index_fuel (fr : F * F) (st : list F) : get_freq_index fr st <> OutOfFuel.
Proof.
  unfold get_freq_index.
  destruct (getitem (np_where (map (fun x => x ≗ fr.1) st)) 0) as [lo|e1|] eqn:Hlo; simpl.
  - destruct (getitem (np_where (map (fun x => x ≗ fr.2) st)) 0) as [hi|e2|] eqn:Hhi; simpl.
    + done.
    + done.
    + by apply getitem_fuel in Hhi.
  - done.
  - by apply getitem_fuel in Hlo.
Qed.
End InitOutcomes.

(** X1: what the constructor does.  It raises [ZeroDivisionError] exactly
    when [N = 0] (in [f / N]) or when [f / N == 0] (in [1 / df]); it raises
    [IndexError] exactly when neither is the case and an endpoint of the
    band is missing from the frequency stamp; otherwise it returns the
    object whose attributes are [df = f / N], [T = 1 / df], the two stamps
    and the indices found.  It raises nothing else. *)
Theorem init_outcomes {F : Type} `{Arith F} (fr : F * F) (f0 : F) (N0 : nat) (amp0 eps0 : F) :
  (init fr f0 N0 amp0 eps0 = Raise ZeroDivisionError <->
     N0 = 0 \/ (f0 ⊘ of_nat N0 ≗ zero) = true) /\
  (init fr f0 N0 amp0 eps0 = Raise IndexError <->
     N0 <> 0 /\ (f0 ⊘ of_nat N0 ≗ zero) = false /\
     get_freq_index fr (get_freq_stamp f0 N0) = Raise IndexError) /\
  (forall self, init fr f0 N0 amp0 eps0 = Ok self <->
     N0 <> 0 /\ (f0 ⊘ of_nat N0 ≗ zero) = false /\
     exists i, get_freq_index fr (get_freq_stamp f0 N0) = Ok i /\
       self = {| freq_range := fr; f := f0; N := N0; amp := amp0; eps := eps0;
                 df := f0 ⊘ of_nat N0; T := of_int 1 ⊘ (f0 ⊘ of_nat N0);
                 t_stamp := get_time_stamp f0 N0; f_stamp := get_freq_stamp f0 N0;
                 idx := i |}) /\
  (forall e, init fr f0 N0 amp0 eps0 = Raise e -> e = ZeroDivisionError \/ e = IndexError) /\
  init fr f0 N0 amp0 eps0 <> OutOfFuel.
Proof.
  unfold init, initialization, get_sampling_interval, get_total_time.
  destruct (decide (N0 = 0)) as [HN|HN]; simpl.
  { repeat split; try done; try (intros; by left); try (by intros (? & _)).
    - intros e [= <-]. by left. }
  destruct (f0 ⊘ of_nat N0 ≗ zero) eqn:Hdf; simpl.
  { repeat split; try done; try (intros; by right); try (by intros (_ & ? & _)).
    - intros e [= <-]. by left. }
  destruct (get_freq_index fr (get_freq_stamp f0 N0)) as [i|e0|] eqn:Hidx; simpl.
  - repeat split; try done.
    + by intros [|].
    + by intros (_ & _ & ?).
    + exists i. split; [done|]. congruence.
    + intros (_ & _ & i' & [= <-] & ->). done.
  - pose proof (get_freq_index_raise _ _ _ Hidx) as ->.
    repeat split; try done.
    + by intros [|].
    + by intros (_ & _ & i' & ? & _).
    + intros e [= <-]. by right.
  - by apply get_freq_index_fuel in Hidx.
Qed.

(** ** Index assignment with any integers *)

Section SetItemsAny.
Context {A : Type}.
Implicit Types (l : list A) (x : A).

Lemma norm_index_in n (j : Z) :
  (- Z.of_nat n <= j < Z.of_nat n)%Z ->
  norm_index n j = Ok (Z.to_nat (if decide (0 <= j)%Z then j else Z.of_nat n + j)%Z).
Proof.
  intros Hj. unfold norm_index. case_decide.
  - replace (0 <=? j)%Z with true by (symmetry; apply Z.leb_le; lia).
    replace (j <? Z.of_nat n)%Z with true by (symmetry; apply Z.ltb_lt; lia). done.
  - replace (0 <=? j)%Z with false by (symmetry; apply Z.leb_gt; lia).
    replace (- Z.of_nat n <=? j)%Z with true by (symmetry; apply Z.leb_le; lia).
    replace (j <? 0)%Z with true by (symmetry; apply Z.ltb_lt; lia). done.
Qed.

Lemma norm_index_out n (j : Z) :
  ~ (- Z.of_nat n <= j < Z.of_nat n)%Z -> norm_index n j = Raise IndexError.
Proof.
  intros Hj. unfold norm_index.
  destruct (0 <=? j)%Z eqn:H0, (j <? Z.of_nat n)%Z eqn:H1,
    (- Z.of_nat n <=? j)%Z eqn:H2, (j <? 0)%Z eqn:H3; simpl; try done;
    rewrite ?Z.leb_le, ?Z.ltb_lt, ?Z.leb_gt, ?Z.ltb_ge in *; lia.
Qed.

(** [l[js] = x] returns exactly when every index of [js] lies in
    [[-len, len)]. *)
Lemma setitems_ok_inv l js x l' :
  setitems l js x = Ok l' ->
  Forall (fun j => (- Z.of_nat (length l) <= j < Z.of_nat (length l))%Z) js.
Proof.
  revert l. induction js as [|j js IH]; intros l; simpl; [by constructor|].
  destruct (setitem l j x) as [l1| |] eqn:Hs; simpl; [|done..].
  intros Hrest. pose proof (setitem_length _ _ _ _ Hs) as Hlen.
  apply IH in Hrest. rewrite Hlen in Hrest. constructor; [|done].
  destruct (decide (- Z.of_nat (length l) <= j < Z.of_nat (length l))%Z) as [|Hout]; [done|].
  unfold setitem in Hs. by rewrite (norm_index_out _ _ Hout) in Hs.
Qed.

(** Assigning [x] at the indices [lo + a, ..., lo + a + n - 1], negative
    ones counting from the end. *)
Lemma setitems_band l (lo : Z) x :
  forall n a l0, length l0 = length l ->
    (forall k, a <= k < a + n ->
       (- Z.of_nat (length l) <= lo + Z.of_nat k < Z.of_nat (length l))%Z) ->
    exists l', setitems l0 (map (fun k => (lo + Z.of_nat k)%Z) (seq a n)) x = Ok l' /\
      length l' = length l /\
      forall i, i < length l ->
        l' !! i =
          if decide ((lo + Z.of_nat a <= Z.of_nat i < lo + Z.of_nat a + Z.of_nat n)%Z \/
                     (lo + Z.of_nat a <= Z.of_nat i - Z.of_nat (length l)
                        < lo + Z.of_nat a + Z.of_nat n)%Z)
          then Some x else l0 !! i.
Proof.
  induction n as [|n IH]; intros a l0 Hlen Hin.
  - exists l0. split; [done|]. split; [done|]. intros i Hi. case_decide; [lia|done].
  - cbn [seq map setitems]. unfold setitem. rewrite Hlen.
    rewrite norm_index_in by (apply Hin; lia). cbn [mbind res_bind].
    set (i0 := Z.to_nat _).
    destruct (IH (S a) (<[i0 := x]> l0)) as (l' & Hl' & Hlen' & Hlook).
    { by rewrite length_insert. }
    { intros k Hk. apply Hin. lia. }
    exists l'. split; [exact Hl'|]. split; [done|].
    intros i Hi. rewrite (Hlook i Hi).
    assert (Hi0 : (lo + Z.of_nat a = Z.of_nat i0 \/
                   lo + Z.of_nat a = Z.of_nat i0 - Z.of_nat (length l))%Z /\ i0 < length l).
    { pose proof (Hin a ltac:(lia)). unfold i0. case_decide; lia. }
    pose proof (Hin a ltac:(lia)) as Ha.
    destruct (decide (i = i0)) as [->|Hne].
    + rewrite list_lookup_insert_eq by lia.
      repeat case_decide; first [done | exfalso; lia].
    + rewrite list_lookup_insert_ne by done.
      repeat case_decide; first [done | exfalso; lia].
Qed.
End SetItemsAny.

Section AmplitudeAny.
Context {F : Type} `{Arith F}.

Lemma arange_seq (lo hi : Z) :
  arange lo hi = map (fun k => (lo + Z.of_nat k)%Z) (seq 0 (Z.to_nat (hi - lo))).
Proof. reflexivity. Qed.

(** The band in range, possibly empty, possibly given from the end. *)
Lemma frequency_amplitude_any (N : nat) (amp : F) (lo hi : Z) :
  0 < N ->
  (hi < lo)%Z \/ ((- Z.of_nat N <= lo)%Z /\ (hi < Z.of_nat N)%Z) ->
  exists U_amp,
    _get_frequency_amplitude N amp (lo, hi) = Ok U_amp /\
    length U_amp = N /\
    forall i, i < N ->
      U_amp !! i =
        Some (if decide (i = 0) then zero
              else if decide ((lo <= Z.of_nat i <= hi)%Z \/
                              (lo <= Z.of_nat i - Z.of_nat N <= hi)%Z) then amp
              else zero).
Proof.
  intros HN Hband. unfold _get_frequency_amplitude. cbn [fst snd]. rewrite arange_seq.
  destruct (setitems_band (replicate N zero) lo amp (Z.to_nat (hi + 1 - lo)) 0
              (replicate N zero) eq_refl) as (l' & Hl' & Hlen & Hlook).
  { rewrite length_replicate. intros k Hk. lia. }
  rewrite Hl'. cbn [mbind res_bind]. rewrite length_replicate in Hlen, Hlook.
  rewrite (setitem_nat l' 0) by lia.
  eexists. split; [done|]. split; [by rewrite length_insert|].
  intros i Hi. destruct (decide (i = 0)) as [->|Hne].
  - apply list_lookup_insert_eq. lia.
  - rewrite list_lookup_insert_ne by done. rewrite (Hlook i Hi).
    rewrite lookup_replicate_2 by done.
    repeat case_decide; first [done | exfalso; lia].
Qed.

Lemma frequency_amplitude_raise (N : nat) (amp : F) (idx : Z * Z) (e : exn) :
  _get_frequency_amplitude N amp idx = Raise e -> e = IndexError.
Proof.
  unfold _get_frequency_amplitude.
  destruct (setitems _ _ _) as [l| |] eqn:Hl; simpl.
  - apply setitem_raise.
  - intros [= <-]. by eapply setitems_raise.
  - done.
Qed.

Lemma frequency_amplitude_fuel (N : nat) (amp : F) (idx : Z * Z) :
  _get_frequency_amplitude N amp idx <> OutOfFuel.
Proof.
  unfold _get_frequency_amplitude.
  destruct (setitems _ _ _) as [l| |] eqn:Hl; simpl.
  - apply setitem_fuel.
  - done.
  - by apply setitems_fuel in Hl.
Qed.

(** When the call returns, the array has a first entry and the band, if
    it is not empty, lies in [[-N, N)]. *)
Lemma frequency_amplitude_ok_inv (N : nat) (amp : F) (lo hi : Z) (U_amp : list F) :
  _get_frequency_amplitude N amp (lo, hi) = Ok U_amp ->
  0 < N /\ ((hi < lo)%Z \/ ((- Z.of_nat N <= lo)%Z /\ (hi < Z.of_nat N)%Z)).
Proof.
  intros HU. pose proof (frequency_amplitude_length _ _ _ _ HU) as [_ HN].
  split; [done|]. unfold _get_frequency_amplitude in HU. cbn [fst snd] in HU.
  destruct (setitems _ _ _) as [l| |] eqn:Hl; simpl in HU; [|done..].
  apply setitems_ok_inv in Hl. rewrite length_replicate, arange_seq in Hl.
  destruct (Z_lt_le_dec hi lo) as [|Hle]; [by left|right].
  rewrite Forall_forall in Hl.
  pose proof (Hl lo) as H1. pose proof (Hl hi) as H2.
  split.
  - apply H1. apply list_elem_of_fmap. exists 0. split; [lia|].
    apply elem_of_seq. lia.
  - apply H2. apply list_elem_of_fmap. exists (Z.to_nat (hi - lo)). split; [lia|].
    apply elem_of_seq. lia.
Qed.
End AmplitudeAny.

(** The call fails exactly when [N = 0] or a band that is not empty
    leaves [[-N, N)]. *)
Lemma frequency_amplitude_raise_iff {F : Type} `{Arith F} (N : nat) (amp : F) (lo hi : Z) :
  _get_frequency_amplitude N amp (lo, hi) = Raise IndexError <->
  N = 0 \/ ((lo <= hi)%Z /\ ((lo < - Z.of_nat N)%Z \/ (Z.of_nat N <= hi)%Z)).
Proof.
  split.
  - intros Hraise.
    destruct (decide (N = 0)) as [|HN]; [by left|right].
    destruct (Z_lt_le_dec hi lo) as [Hlt|Hle].
    + destruct (frequency_amplitude_any N amp lo hi) as (U & HU & _); [lia|by left|congruence].
    + split; [done|].
      destruct (Z_lt_le_dec lo (- Z.of_nat N)) as [|H1]; [by left|].
      destruct (Z_lt_le_dec hi (Z.of_nat N)) as [H2|]; [|by right].
      destruct (frequency_amplitude_any N amp lo hi) as (U & HU & _); [lia|by right|congruence].
  - intros Hbad.
    destruct (_get_frequency_amplitude N amp (lo, hi)) as [U|e|] eqn:HU.
    + apply frequency_amplitude_ok_inv in HU. lia.
    + by apply frequency_amplitude_raise in HU as ->.
    + by apply frequency_amplitude_fuel in HU.
Qed.

(** X2: [_get_frequency_amplitude] raises [IndexError] exactly when
    [N = 0] (the assignment [U_amp[0] = 0] has no entry to write) or when
    the band is not empty and does not lie in [[-N, N)]; it fails in no
    other way. *)
Theorem frequency_amplitude_index_error {F : Type} `{Arith F}
    (N : nat) (amp : F) (lo hi : Z) :
  (_get_frequency_amplitude N amp (lo, hi) = Raise IndexError <->
     N = 0 \/ ((lo <= hi)%Z /\ ((lo < - Z.of_nat N)%Z \/ (Z.of_nat N <= hi)%Z))) /\
  (forall e, _get_frequency_amplitude N amp (lo, hi) = Raise e -> e = IndexError) /\
  _get_frequency_amplitude N amp (lo, hi) <> OutOfFuel.
Proof.
  split; [apply frequency_amplitude_raise_iff|].
  split; [apply frequency_amplitude_raise|apply frequency_amplitude_fuel].
Qed.

(** X3: for [N > 0] and a band that is empty ([idx_hi < idx_lo]) or lies in
    [[-N, N)], the amplitude array holds [amp] at the positions [j] and
    [N + j] (for negative [j]) of the band, except at position [0], which
    is always [0]; an empty band gives the array of zeros. *)
Theorem frequency_amplitude_wrap {F : Type} `{Arith F} (N : nat) (amp : F) (lo hi : Z) :
  0 < N ->
  (hi < lo)%Z \/ ((- Z.of_nat N <= lo)%Z /\ (hi < Z.of_nat N)%Z) ->
  exists U_amp,
    _get_frequency_amplitude N amp (lo, hi) = Ok U_amp /\
    length U_amp = N /\
    (forall i, i < N ->
       U_amp !! i =
         Some (if decide (i = 0) then zero
               else if decide ((lo <= Z.of_nat i <= hi)%Z \/
                               (lo <= Z.of_nat i - Z.of_nat N <= hi)%Z) then amp
               else zero)) /\
    ((hi < lo)%Z -> U_amp = replicate N zero).
Proof.
  intros HN Hband.
  destruct (frequency_amplitude_any N amp lo hi HN Hband) as (U & HU & Hlen & Hlook).
  exists U. split; [done|]. split; [done|]. split; [done|].
  intros Hempty. apply list_eq. intros i.
  destruct (decide (i < N)) as [Hi|Hi].
  - rewrite (Hlook i Hi), lookup_replicate_2 by done.
    destruct (decide (i = 0)); [done|]. destruct (decide _) as [Hd|]; [lia|done].
  - rewrite !lookup_ge_None_2; [done|rewrite length_replicate; lia|lia].
Qed.

(** The statement of X3 in binary64 at [N = 8]: the band [(-3, -1)] is the
    last three entries, and the reversed band [(5, 0)] gives zeros. *)
Lemma frequency_amplitude_wrap_witness :
  (exists U_amp : list float,
     _get_frequency_amplitude 8 100%float (-3, -1)%Z = Ok U_amp /\
     length U_amp = 8 /\
     (forall i, i < 8 ->
        U_amp !! i =
          Some (if decide (i = 0) then zero
                else if decide ((-3 <= Z.of_nat i <= -1)%Z \/
                                (-3 <= Z.of_nat i - Z.of_nat 8 <= -1)%Z) then 100%float
                else zero)) /\
     ((-1 < -3)%Z -> U_amp = replicate 8 zero)) /\
  (exists U_amp : list float,
     _get_frequency_amplitude 8 100%float (5, 0)%Z = Ok U_amp /\
     length U_amp = 8 /\
     (forall i, i < 8 ->
        U_amp !! i =
          Some (if decide (i = 0) then zero
                else if decide ((5 <= Z.of_nat i <= 0)%Z \/
                                (5 <= Z.of_nat i - Z.of_nat 8 <= 0)%Z) then 100%float
                else zero)) /\
     ((0 < 5)%Z -> U_amp = replicate 8 zero)).
Proof.
  split.
  - apply (frequency_amplitude_wrap (F := float) 8 100%float (-3) (-1)); lia.
  - apply (frequency_amplitude_wrap (F := float) 8 100%float 5 0); lia.
Defined.

(** ** The rounds of the feasibility search *)

Section Rounds.
Context {F : Type} `{Arith F} `{NumLib F}.
Variable draws : nat -> F.

(** The loop returns the first round that its test lets through; every
    round before it was rejected, and each round reads [N] numbers. *)
Lemma feasible_loop_rounds fuel eps N amp idx :
  forall diff last pos A P pos',
    feasible_loop draws fuel eps N amp idx diff last pos = Ok (A, P, pos') <->
    ((diff ≻ eps) = false /\ last = Some (A, P) /\ pos' = pos) \/
    ((diff ≻ eps) = true /\
     exists k d, k < fuel /\ pos' = pos + S k * N /\
       attempt draws N amp idx (pos + k * N) = Ok (A, P, d, pos') /\
       (d ≻ eps) = false /\
       forall j, j < k -> exists Aj Pj dj,
         attempt draws N amp idx (pos + j * N) = Ok (Aj, Pj, dj, pos + S j * N) /\
         (dj ≻ eps) = true).
Proof.
  induction fuel as [|fuel IH]; intros diff last pos A P pos'; cbn [feasible_loop].
  - destruct (diff ≻ eps) eqn:Hd.
    + split; [done|]. intros [(? & _)|(_ & k & d & Hk & _)]; [done|lia].
    + destruct last as [[A0 P0]|].
      * split.
        -- intros [= <- <- <-]. by left.
        -- intros [(_ & [= <- <-] & ->)|(? & _)]; done.
      * split; [done|]. intros [(_ & ? & _)|(? & _)]; done.
  - destruct (diff ≻ eps) eqn:Hd.
    + destruct (attempt draws N amp idx pos) as [[[[A1 P1] d1] p1]|e|] eqn:Hat;
        cbn [mbind res_bind].
      * pose proof (attempt_inv _ _ _ _ _ _ _ _ _ Hat) as (_ & _ & -> & _).
        rewrite IH. split.
        -- intros [(Hd1 & [= <- <-] & ->)|(Hd1 & k & d & Hk & -> & Hatk & Hdk & Hbefore)].
           ++ right. split; [done|]. exists 0, d1.
              replace (pos + 0 * N) with pos by lia.
              replace (pos + 1 * N) with (pos + N) by lia.
              split; [lia|]. split; [done|]. split; [done|]. split; [done|].
              intros j Hj. lia.
           ++ right. split; [done|]. exists (S k), d.
              replace (pos + S k * N) with (pos + N + k * N) by lia.
              replace (pos + S (S k) * N) with (pos + N + S k * N) by lia.
              split; [lia|]. split; [done|]. split; [done|]. split; [done|].
              intros [|j] Hj.
              ** exists A1, P1, d1. replace (pos + 0 * N) with pos by lia.
                 replace (pos + 1 * N) with (pos + N) by lia. done.
              ** destruct (Hbefore j ltac:(lia)) as (Aj & Pj & dj & Hatj & Hdj).
                 exists Aj, Pj, dj.
                 replace (pos + S j * N) with (pos + N + j * N) by lia.
                 replace (pos + S (S j) * N) with (pos + N + S j * N) by lia. done.
        -- intros [(? & _)|(_ & k & d & Hk & -> & Hatk & Hdk & Hbefore)]; [done|].
           destruct k as [|k].
           ++ left. replace (pos + 0 * N) with pos in Hatk by lia.
              rewrite Hat in Hatk. injection Hatk as <- <- <- Hp.
              repeat split; try done; lia.
           ++ right. destruct (Hbefore 0 ltac:(lia)) as (A0 & P0 & d0 & Hat0 & Hd0).
              replace (pos + 0 * N) with pos in Hat0 by lia.
              rewrite Hat in Hat0. injection Hat0 as <- <- <- _.
              split; [done|]. exists k, d.
              replace (pos + N + k * N) with (pos + S k * N) by lia.
              replace (pos + N + S k * N) with (pos + S (S k) * N) by lia.
              split; [lia|]. split; [done|]. split; [done|]. split; [done|].
              intros j Hj. destruct (Hbefore (S j) ltac:(lia)) as (Aj & Pj & dj & Hatj & Hdj).
              exists Aj, Pj, dj.
              replace (pos + N + j * N) with (pos + S j * N) by lia.
              replace (pos + N + S j * N) with (pos + S (S j) * N) by lia. done.
      * split; [done|]. intros [(? & _)|(_ & k & d & Hk & -> & Hatk & Hdk & Hbefore)]; [done|].
        destruct k as [|k].
        -- replace (pos + 0 * N) with pos in Hatk by lia. congruence.
        -- destruct (Hbefore 0 ltac:(lia)) as (A0 & P0 & d0 & Hat0 & _).
           replace (pos + 0 * N) with pos in Hat0 by lia. congruence.
      * split; [done|]. intros [(? & _)|(_ & k & d & Hk & -> & Hatk & Hdk & Hbefore)]; [done|].
        destruct k as [|k].
        -- replace (pos + 0 * N) with pos in Hatk by lia. congruence.
        -- destruct (Hbefore 0 ltac:(lia)) as (A0 & P0 & d0 & Hat0 & _).
           replace (pos + 0 * N) with pos in Hat0 by lia. congruence.
    + destruct last as [[A0 P0]|].
      * split.
        -- intros [= <- <- <-]. by left.
        -- intros [(_ & [= <- <-] & ->)|(? & _)]; done.
      * split; [done|]. intros [(_ & ? & _)|(? & _)]; done.
Qed.
End Rounds.

(** X4: the feasibility search is a rejection loop on consecutive blocks of
    the random stream.  It returns [(U_amp, U_phase)] with the cursor at
    [pos'] exactly when [eps < 1000.0] and, for some [k] below the number
    of rounds allowed, round [k] (which reads the numbers
    [pos + k*N .. pos + (k+1)*N - 1]) produced this pair with a difference
    that is not above [eps], while every earlier round produced a
    difference above [eps]; then [pos' = pos + (k+1)*N]. *)
Theorem feasible_search_first_accepted {F : Type} `{Arith F} `{NumLib F}
    (draws : nat -> F) (fuel : nat) (eps : F) (N : nat) (amp : F) (idx : Z * Z)
    (pos : nat) (U_amp U_phase : list F) (pos' : nat) :
  get_one_feasible_signal draws fuel eps N amp idx pos = Ok (U_amp, U_phase, pos') <->
  (of_int 1000 ≻ eps) = true /\
  exists k d, k < fuel /\ pos' = pos + S k * N /\
    attempt draws N amp idx (pos + k * N) = Ok (U_amp, U_phase, d, pos') /\
    (d ≻ eps) = false /\
    forall j, j < k -> exists Aj Pj dj,
      attempt draws N amp idx (pos + j * N) = Ok (Aj, Pj, dj, pos + S j * N) /\
      (dj ≻ eps) = true.
Proof.
  unfold get_one_feasible_signal. rewrite feasible_loop_rounds. split.
  - intros [(_ & ? & _)|(Hd & Hex)]; [done|]. by split.
  - intros [Hd Hex]. right. by split.
Qed.

(** ** Signals of fewer than two points *)

Section TwoPoints.
Context {F : Type} `{Arith F} `{NumLib F} `{!NumLibLaws F}.
Variable draws : nat -> F.

(** A round of the loop body returns exactly when the amplitude array can
    be built and there are two points to compare; otherwise it raises
    [IndexError]. *)
Lemma attempt_outcome (N : nat) (amp : F) (lo hi : Z) (pos : nat) :
  (2 <= N /\ ((hi < lo)%Z \/ ((- Z.of_nat N <= lo)%Z /\ (hi < Z.of_nat N)%Z)) /\
   exists U_amp U_phase d, attempt draws N amp (lo, hi) pos = Ok (U_amp, U_phase, d, pos + N)) \/
  ((N <= 1 \/ ((lo <= hi)%Z /\ ((lo < - Z.of_nat N)%Z \/ (Z.of_nat N <= hi)%Z))) /\
   attempt draws N amp (lo, hi) pos = Raise IndexError).
Proof.
  destruct (_get_frequency_amplitude N amp (lo, hi)) as [A|e|] eqn:HA.
  - pose proof (frequency_amplitude_ok_inv _ _ _ _ _ HA) as [HN Hband].
    pose proof (frequency_amplitude_length _ _ _ _ HA) as [HlenA _].
    unfold attempt, get_frequency_signal. rewrite HA. cbn [mbind res_bind _get_random_phase].
    set (P := map _ (seq 0 N)).
    assert (HlenP : length P = N) by (unfold P; by rewrite length_map, length_seq).
    destruct (channel_signal_returns A P N HlenA HlenP HN) as [u Hu].
    pose proof (channel_signal_length A P u N HlenA HlenP Hu) as Hlenu.
    unfold channel_signal in Hu. rewrite Hu. cbn [mbind res_bind].
    destruct (lookup_lt_is_Some_2 u 0) as [u0 Hu0]; [lia|].
    unfold first_step, getitem. rewrite Hu0. cbn [mbind res_bind].
    destruct (decide (N = 1)) as [->|HN1].
    + right. split; [left; lia|].
      rewrite (lookup_ge_None_2 u 1) by lia. done.
    + left. split; [lia|]. split; [done|].
      destruct (lookup_lt_is_Some_2 u 1) as [u1 Hu1]; [lia|].
      rewrite Hu1. cbn [mbind res_bind]. eauto.
  - pose proof (frequency_amplitude_raise _ _ _ _ HA) as ->.
    right. split.
    + apply frequency_amplitude_raise_iff in HA.
      destruct HA as [->|Hbad]; [left; lia|by right].
    + unfold attempt, get_frequency_signal. by rewrite HA.
  - by apply frequency_amplitude_fuel in HA.
Qed.

Lemma feasible_loop_no_raise fuel eps N amp lo hi :
  2 <= N -> (hi < lo)%Z \/ ((- Z.of_nat N <= lo)%Z /\ (hi < Z.of_nat N)%Z) ->
  forall diff A P pos e,
    feasible_loop draws fuel eps N amp (lo, hi) diff (Some (A, P)) pos <> Raise e.
Proof.
  intros HN Hband. induction fuel as [|fuel IH]; intros diff A P pos e; cbn [feasible_loop].
  - by destruct (diff ≻ eps).
  - destruct (diff ≻ eps); [|done].
    destruct (attempt_outcome N amp lo hi pos)
      as [(_ & _ & A1 & P1 & d1 & ->)|([|] & _)]; [|lia..].
    cbn [mbind res_bind]. apply IH.
Qed.
End TwoPoints.

(** X5: with [eps < 1000.0] (so that the loop body runs), the search raises
    [IndexError] exactly when the signal has fewer than two points ([u[1]]
    does not exist, or, for [N = 0], [U_amp[0]]) or the band is not empty
    and leaves [[-N, N)]; this happens in the first round, and the search
    raises nothing else. *)
Theorem feasible_search_index_error {F : Type} `{Arith F} `{NumLib F} `{!NumLibLaws F}
    (draws : nat -> F) (fuel : nat) (eps : F) (N : nat) (amp : F) (lo hi : Z) (pos : nat) :
  (of_int 1000 ≻ eps) = true ->
  (get_one_feasible_signal draws (S fuel) eps N amp (lo, hi) pos = Raise IndexError <->
     N <= 1 \/ ((lo <= hi)%Z /\ ((lo < - Z.of_nat N)%Z \/ (Z.of_nat N <= hi)%Z))) /\
  (forall e, get_one_feasible_signal draws (S fuel) eps N amp (lo, hi) pos = Raise e ->
             e = IndexError).
Proof.
  intros Hlt. unfold get_one_feasible_signal. cbn [feasible_loop]. rewrite Hlt.
  destruct (attempt_outcome draws N amp lo hi pos)
    as [(HN & Hband & A1 & P1 & d1 & Hat)|(Hbad & Hat)]; rewrite Hat; cbn [mbind res_bind].
  - split.
    + split; [|lia]. intros Hr. by apply feasible_loop_no_raise in Hr.
    + intros e Hr. by apply feasible_loop_no_raise in Hr.
  - split; [done|]. by intros e [= <-].
Qed.

(** The statement of X5 in exact arithmetic on a one-point signal. *)
Lemma feasible_search_index_error_witness :
  (get_one_feasible_signal (fun _ => 0%R) 1 (1 / 2)%R 1 1%R (0, 0)%Z 0 = Raise IndexError <->
     1 <= 1 \/ ((0 <= 0)%Z /\ ((0 < - Z.of_nat 1)%Z \/ (Z.of_nat 1 <= 0)%Z))) /\
  (forall e, get_one_feasible_signal (fun _ => 0%R) 1 (1 / 2)%R 1 1%R (0, 0)%Z 0 = Raise e ->
             e = IndexError).
Proof.
  apply (feasible_search_index_error (F := R) (fun _ => 0%R) 0 (1 / 2)%R 1 1%R 0 0 0).
  simpl. unfold Real.ltb. destruct (Rlt_dec (1 / 2) 1000); [reflexivity|lra].
Defined.

(** ** Trials and channels, entry by entry *)

Section TrialColumns.
Context {A : Type}.

Lemma set_trial_replicate (nr m i : nat) (row : list A) :
  set_trial (replicate nr (replicate m row)) i (replicate nr row)
  = replicate nr (replicate m row).
Proof. unfold set_trial. by rewrite zip_with_replicate, insert_replicate. Qed.

Lemma concat_replicate_replicate (k n : nat) (x : A) :
  concat (replicate k (replicate n x)) = replicate (k * n) x.
Proof.
  induction k as [|k IH]; simpl; [done|]. by rewrite IH, <- replicate_add.
Qed.

Lemma get_repeat_signals_replicate (nr m N p : nat) (x : A) :
  nr <> 0 ->
  get_repeat_signals (replicate nr (replicate m (replicate N x))) p
  = Ok (replicate nr (replicate (m * p * N) x)).
Proof.
  intros Hnr. unfold get_repeat_signals, np_tile_last.
  rewrite !fmap_replicate, concat_replicate_replicate.
  unfold reshape_rows. destruct nr as [|nr]; [done|].
  change (replicate (S nr) ?y) with (y :: replicate nr y) at 1.
  rewrite fmap_replicate, concat_replicate_replicate.
  by replace (m * (p * N)) with (m * p * N) by lia.
Qed.

(** [arr[c, j, :]] after [arr[:, i, :] = X]. *)
Lemma set_trial_lookup (arr : list (list (list A))) (X : list (list A))
    (nr m N i c j : nat) :
  shape3 arr nr m N -> length X = nr -> i < m ->
  set_trial arr i X !! c ≫= (.!! j) =
    if decide (j = i) then X !! c else arr !! c ≫= (.!! j).
Proof.
  intros [Hlen Hch] HX Hi. unfold set_trial. rewrite lookup_zip_with.
  destruct (arr !! c) as [chan|] eqn:Hchan; simpl.
  - destruct (lookup_lt_is_Some_2 X c) as [row Hrow].
    { apply lookup_lt_Some in Hchan. lia. }
    rewrite Hrow. simpl.
    eapply Forall_lookup_1 in Hch as [Hm _]; [|exact Hchan].
    case_decide as Hj.
    + subst j. apply list_lookup_insert_eq. lia.
    + by apply list_lookup_insert_ne.
  - case_decide; [|done]. symmetry. apply lookup_ge_None_2.
    apply lookup_ge_None_1 in Hchan. lia.
Qed.
End TrialColumns.

Section Chains.
Context {F : Type} `{Arith F} `{NumLib F} `{!NumLibLaws F}.
Variable draws : nat -> F.

(** Mode ['random'], with the cursor: the search of channel [i] starts
    where the search of channel [i - 1] stopped. *)
Lemma random_rows_chain fuel eps N amp idx nr :
  forall n a UA UP u pos UA' UP' u' pos',
    length UA = nr -> length UP = nr -> length u = nr -> a + n <= nr ->
    random_rows draws fuel eps N amp idx (UA, UP, u, pos) (seq a n) = Ok (UA', UP', u', pos') ->
    exists cur : nat -> nat,
      cur a = pos /\ cur (a + n) = pos' /\
      forall i, a <= i < a + n ->
        exists A P row d,
          get_one_feasible_signal draws fuel eps N amp idx (cur i) = Ok (A, P, cur (S i)) /\
          UA' !! i = Some A /\ UP' !! i = Some P /\ u' !! i = Some row /\
          channel_signal A P = Ok row /\ first_step row = Ok d /\ (d ≻ eps) = false.
Proof.
  induction n as [|n IH]; intros a UA UP u pos UA' UP' u' pos' HUA HUP Hu Hle.
  - simpl. intros [= <- <- <- <-]. exists (fun _ => pos).
    split; [done|]. split; [done|]. intros i Hi. lia.
  - cbn [seq random_rows random_row].
    destruct (get_one_feasible_signal draws fuel eps N amp idx pos)
      as [[[A P] p1]| |] eqn:Hs; cbn [mbind res_bind]; [|done..].
    unfold getitem. rewrite !list_lookup_insert_eq by lia. cbn [mbind res_bind].
    pose proof (get_one_feasible_signal_inv _ _ _ _ _ _ _ _ _ _ Hs)
      as (pos0 & d & Hat & _ & Hd).
    apply attempt_inv in Hat as (_ & _ & _ & row & Hrow & Hstep).
    rewrite Hrow. cbn [mbind res_bind]. intros Hrest.
    pose proof Hrest as Hrest'.
    apply (random_rows_seq draws fuel eps N amp idx nr) in Hrest'
      as (_ & _ & _ & Hspec); [|by rewrite length_insert..|lia].
    apply IH in Hrest as (cur & Hc0 & Hc1 & Hchain);
      [|by rewrite length_insert..|lia].
    exists (fun i => if decide (i <= a) then pos else cur i).
    split; [by rewrite decide_True by lia|].
    split; [rewrite decide_False by lia; rewrite <- Hc1; f_equal; lia|].
    intros i Hi. destruct (decide (i = a)) as [->|Hne].
    + rewrite decide_True by lia. rewrite decide_False by lia. rewrite Hc0.
      destruct (Hspec a) as [_ (-> & -> & ->)]; [lia|].
      exists A, P, row, d. rewrite !list_lookup_insert_eq by lia. done.
    + rewrite !decide_False by lia. apply Hchain. lia.
Qed.

(** In the modes ['orthogonal'] and ['random'] every amplitude row is the
    array of [_get_frequency_amplitude]. *)
Lemma get_signals_amplitude_rows fuel eps N amp nr idx mode pos UA UP u pos' :
  mode = "orthogonal"%string \/ mode = "random"%string ->
  get_signals draws fuel eps N amp nr idx mode pos = Ok (UA, UP, u, pos') ->
  forall i, i < nr ->
    exists A0, _get_frequency_amplitude N amp idx = Ok A0 /\ UA !! i = Some A0.
Proof.
  intros [-> | ->] Hget i Hi.
  - unfold get_signals in Hget. cbn [String.eqb Ascii.eqb Bool.eqb] in Hget.
    destruct (get_one_feasible_signal draws fuel eps N amp idx pos)
      as [[[A0 P0] p1]| |] eqn:Hs; cbn [mbind res_bind] in Hget; [|done..].
    destruct (get_signals_orthogonal_rows draws fuel eps N amp nr idx pos _ _ _ Hs)
      as (UA0 & UP0 & u0 & Hget0 & _ & _ & _ & Hspec).
    unfold get_signals in Hget0. cbn [String.eqb Ascii.eqb Bool.eqb] in Hget0.
    rewrite Hs in Hget0. cbn [mbind res_bind] in Hget0.
    rewrite Hget0 in Hget. injection Hget as <- <- <- <-.
    destruct (Hspec i Hi) as (HAi & _).
    apply get_one_feasible_signal_inv in Hs as (pos0 & d & Hat & _).
    apply attempt_inv in Hat as (HA & _). by exists A0.
  - unfold get_signals in Hget. cbn [String.eqb Ascii.eqb Bool.eqb] in Hget.
    apply (random_rows_chain fuel eps N amp idx nr) in Hget
      as (cur & _ & _ & Hchain); [|by rewrite length_replicate..|lia].
    destruct (Hchain i ltac:(lia)) as (A & P & row & d & Hs & HAi & _).
    apply get_one_feasible_signal_inv in Hs as (pos0 & d0 & Hat & _).
    apply attempt_inv in Hat as (HA & _). by exists A.
Qed.

(** The loop over the trials, with the cursor: trial [j] is one call of
    [get_signals], started where trial [j - 1] stopped, and its three
    results are the columns [j] of the three arrays. *)
Lemma trials_chain fuel self nr mode m :
  forall n a UA UP u pos UA' UP' u' pos',
    shape3 UA nr m (N self) -> shape3 UP nr m (N self) -> shape3 u nr m (N self) ->
    a + n <= m ->
    trials draws fuel self nr mode (UA, UP, u, pos) (seq a n) = Ok (UA', UP', u', pos') ->
    exists cur : nat -> nat,
      cur a = pos /\ cur (a + n) = pos' /\
      (forall j, a <= j < a + n ->
         exists X_amp X_phase x,
           get_signals draws fuel (eps self) (N self) (amp self) nr
             (Z.of_nat (idx self).1, Z.of_nat (idx self).2) mode (cur j)
             = Ok (X_amp, X_phase, x, cur (S j)) /\
           forall c, UA' !! c ≫= (.!! j) = X_amp !! c /\
                     UP' !! c ≫= (.!! j) = X_phase !! c /\
                     u' !! c ≫= (.!! j) = x !! c) /\
      (forall j, ~ (a <= j < a + n) ->
         forall c, UA' !! c ≫= (.!! j) = UA !! c ≫= (.!! j) /\
                   UP' !! c ≫= (.!! j) = UP !! c ≫= (.!! j) /\
                   u' !! c ≫= (.!! j) = u !! c ≫= (.!! j)).
Proof.
  induction n as [|n IH]; intros a UA UP u pos UA' UP' u' pos' HUA HUP Hu Hle.
  - simpl. intros [= <- <- <- <-]. exists (fun _ => pos).
    split; [done|]. split; [done|]. split; [intros j Hj; lia|done].
  - cbn [seq trials].
    destruct (get_signals _ _ _ _ _ _ _ _ _) as [[[[Xa Xp] x] p1]| |] eqn:Hget;
      cbn [mbind res_bind]; [|done..].
    pose proof (get_signals_shape draws _ _ _ _ _ _ _ _ _ _ _ _ Hget) as (HXa & HXp & Hx).
    intros Hrest.
    apply IH in Hrest as (cur & Hc0 & Hc1 & Hin & Hout);
      [|by apply shape3_set_trial..|lia].
    exists (fun j => if decide (j <= a) then pos else cur j).
    split; [by rewrite decide_True by lia|].
    split; [rewrite decide_False by lia; rewrite <- Hc1; f_equal; lia|].
    split.
    + intros j Hj. destruct (decide (j = a)) as [->|Hne].
      * rewrite decide_True by lia. rewrite decide_False by lia. rewrite Hc0.
        exists Xa, Xp, x. split; [exact Hget|]. intros c.
        destruct (Hout a ltac:(lia) c) as (-> & -> & ->).
        rewrite (set_trial_lookup UA Xa nr m (N self)), (set_trial_lookup UP Xp nr m (N self)),
          (set_trial_lookup u x nr m (N self));
          try done; try lia; try apply HXa; try apply HXp; try apply Hx.
        by rewrite !decide_True by done.
      * rewrite !decide_False by lia. apply Hin. lia.
    + intros j Hj c. destruct (Hout j ltac:(lia) c) as (-> & -> & ->).
      rewrite (set_trial_lookup UA Xa nr m (N self)), (set_trial_lookup UP Xp nr m (N self)),
        (set_trial_lookup u x nr m (N self));
        try done; try lia; try apply HXa; try apply HXp; try apply Hx.
      by rewrite !decide_False by lia.
Qed.

Lemma get_multi_signals_inv fuel self m p nr mode pos UA UP u us pos' :
  get_multi_signals draws fuel self m p nr mode pos = Ok (UA, UP, u, us, pos') ->
  trials draws fuel self nr mode
    (replicate nr (replicate m (replicate (N self) zero)),
     replicate nr (replicate m (replicate (N self) zero)),
     replicate nr (replicate m (replicate (N self) zero)), pos) (seq 0 m)
    = Ok (UA, UP, u, pos') /\
  get_repeat_signals u p = Ok us.
Proof.
  unfold get_multi_signals.
  destruct (trials _ _ _ _ _ _ _) as [[[[UA0 UP0] u0] p1]| |] eqn:Htr; cbn [mbind res_bind];
    [|done..].
  destruct (get_repeat_signals u0 p) as [us0| |] eqn:Hus; cbn [mbind res_bind]; [|done..].
  by intros [= <- <- <- <- <-].
Qed.

(** The run returns when every search does and there is a channel. *)
Lemma get_multi_signals_returns fuel self m p nr mode pos :
  nr <> 0 ->
  search_returns draws fuel (eps self) (N self) (amp self)
    (Z.of_nat (idx self).1, Z.of_nat (idx self).2) ->
  exists r, get_multi_signals draws fuel self m p nr mode pos = Ok r.
Proof.
  intros Hnr Hsearch. unfold get_multi_signals.
  destruct (trials_returns draws fuel self nr mode Hsearch (seq 0 m)
              (replicate nr (replicate m (replicate (N self) zero)),
               replicate nr (replicate m (replicate (N self) zero)),
               replicate nr (replicate m (replicate (N self) zero)), pos))
    as [[[[UA UP] u0] p1] Htr].
  rewrite Htr. cbn [mbind res_bind].
  apply (trials_shape draws fuel self nr mode m) in Htr
    as (_ & _ & [Hlen _]); [|apply shape3_replicate..].
  unfold get_repeat_signals, reshape_rows, np_tile_last.
  destruct u0 as [|c u0]; [simpl in Hlen; lia|]. cbn [mbind res_bind map]. eauto.
Qed.
End Chains.

(** X6: in mode ['random'] the channels are produced one after the other
    on the random stream: the search of channel [i] starts at the cursor
    where the search of channel [i - 1] stopped, the rows [i] of the
    amplitude and phase arrays are the pair that this search returned, and
    the time signal of the channel is the normalised inverse transform of
    this pair, whose first difference the loop test has let through. *)
Theorem get_signals_random_channels {F : Type} `{Arith F} `{NumLib F} `{!NumLibLaws F}
    (draws : nat -> F) (fuel : nat) (eps : F) (N : nat) (amp : F) (nr_inputs : nat)
    (idx : Z * Z) (pos : nat) (U_amp U_phase u : list (list F)) (pos' : nat) :
  get_signals draws fuel eps N amp nr_inputs idx "random" pos = Ok (U_amp, U_phase, u, pos') ->
  exists cur : nat -> nat,
    cur 0 = pos /\ cur nr_inputs = pos' /\
    forall i, i < nr_inputs ->
      exists A P row d,
        get_one_feasible_signal draws fuel eps N amp idx (cur i) = Ok (A, P, cur (S i)) /\
        U_amp !! i = Some A /\ U_phase !! i = Some P /\ u !! i = Some row /\
        _get_normalization (get_time_signal (_get_complex_signal A P)) = Ok row /\
        first_step row = Ok d /\ (d ≻ eps) = false.
Proof.
  unfold get_signals. cbn [String.eqb Ascii.eqb Bool.eqb]. intros Hrows.
  apply (random_rows_chain draws fuel eps N amp idx nr_inputs) in Hrows
    as (cur & Hc0 & Hc1 & Hchain); [|by rewrite length_replicate..|lia].
  exists cur. split; [done|]. split; [done|]. intros i Hi. apply Hchain. lia.
Qed.

(** The statement of X6 on the four-point run in exact arithmetic, with
    [eps = 2] and two channels. *)
Lemma get_signals_random_channels_witness :
  exists U_amp U_phase u pos' (cur : nat -> nat),
    get_signals Example.draws_ex 1 2%R 4 1%R 2 (1, 2)%Z "random" 0
      = Ok (U_amp, U_phase, u, pos') /\
    cur 0 = 0 /\ cur 2 = pos' /\
    forall i, i < 2 ->
      exists A P row d,
        get_one_feasible_signal Example.draws_ex 1 2%R 4 1%R (1, 2)%Z (cur i)
          = Ok (A, P, cur (S i)) /\
        U_amp !! i = Some A /\ U_phase !! i = Some P /\ u !! i = Some row /\
        _get_normalization (get_time_signal (_get_complex_signal A P)) = Ok row /\
        first_step row = Ok d /\ (d ≻ 2%R) = false.
Proof.
  destruct (get_signals_returns Example.draws_ex 1 2%R 4 1%R 2 (1, 2)%Z "random" 0)
    as [[[[UA UP] u] pos'] Hget].
  { apply (real_search_returns Example.draws_ex 0 2%R 4 1%R 1 2); [lra|lia..]. }
  destruct (get_signals_random_channels Example.draws_ex 1 2%R 4 1%R 2 (1, 2)%Z 0
              UA UP u pos' Hget) as (cur & Hrest).
  by exists UA, UP, u, pos', cur.
Defined.

(** X7: [get_multi_signals] calls [get_signals] once per trial, each call
    starting on the random stream where the one before stopped; the arrays
    it returns hold the results of call [j] in their columns [[:, j, :]],
    and the fourth result is [get_repeat_signals] of the time signals. *)
Theorem get_multi_signals_trials {F : Type} `{Arith F} `{NumLib F} `{!NumLibLaws F}
    (draws : nat -> F) (fuel : nat) (self : ExcitationSignal F) (m p nr_inputs : nat)
    (mode : string) (pos : nat) (U_amp U_phase u : list (list (list F)))
    (us : list (list F)) (pos' : nat) :
  get_multi_signals draws fuel self m p nr_inputs mode pos = Ok (U_amp, U_phase, u, us, pos') ->
  exists cur : nat -> nat,
    cur 0 = pos /\ cur m = pos' /\
    (forall j, j < m ->
       exists X_amp X_phase x,
         get_signals draws fuel (eps self) (N self) (amp self) nr_inputs
           (Z.of_nat (idx self).1, Z.of_nat (idx self).2) mode (cur j)
           = Ok (X_amp, X_phase, x, cur (S j)) /\
         forall c, U_amp !! c ≫= (.!! j) = X_amp !! c /\
                   U_phase !! c ≫= (.!! j) = X_phase !! c /\
                   u !! c ≫= (.!! j) = x !! c) /\
    get_repeat_signals u p = Ok us.
Proof.
  intros Hget. apply get_multi_signals_inv in Hget as [Htr Hus].
  apply (trials_chain draws fuel self nr_inputs mode m) in Htr
    as (cur & Hc0 & Hc1 & Hin & _); [|apply shape3_replicate..|lia].
  exists cur. split; [done|]. split; [done|]. split; [|done].
  intros j Hj. apply Hin. lia.
Qed.

(** The statement of X7 on the four-point run in exact arithmetic: two
    trials repeated three times on two channels. *)
Lemma get_multi_signals_trials_witness :
  exists U_amp U_phase u us pos' (cur : nat -> nat),
    get_multi_signals Example.draws_ex 1 (Example.self_ex 2) 2 3 2 "random" 0
      = Ok (U_amp, U_phase, u, us, pos') /\
    cur 0 = 0 /\ cur 2 = pos' /\
    (forall j, j < 2 ->
       exists X_amp X_phase x,
         get_signals Example.draws_ex 1 (eps (Example.self_ex 2)) (N (Example.self_ex 2))
           (amp (Example.self_ex 2)) 2
           (Z.of_nat (idx (Example.self_ex 2)).1, Z.of_nat (idx (Example.self_ex 2)).2)
           "random" (cur j)
           = Ok (X_amp, X_phase, x, cur (S j)) /\
         forall c, U_amp !! c ≫= (.!! j) = X_amp !! c /\
                   U_phase !! c ≫= (.!! j) = X_phase !! c /\
                   u !! c ≫= (.!! j) = x !! c) /\
    get_repeat_signals u 3 = Ok us.
Proof.
  destruct (get_multi_signals_returns Example.draws_ex 1 (Example.self_ex 2) 2 3 2 "random" 0)
    as [[[[[UA UP] u] us] pos'] Hget].
  { lia. }
  { apply (real_search_returns Example.draws_ex 0 2%R 4 1%R 1 2); [lra|lia..]. }
  destruct (get_multi_signals_trials Example.draws_ex 1 (Example.self_ex 2) 2 3 2 "random" 0
              UA UP u us pos' Hget) as (cur & Hrest).
  by exists UA, UP, u, us, pos', cur.
Defined.

(** X8: in the modes ['orthogonal'] and ['random'], every amplitude row
    that [get_multi_signals] returns, for every channel and every trial, is
    the one array [_get_frequency_amplitude(N, amp, idx)] of the object. *)
Theorem get_multi_signals_amplitude {F : Type} `{Arith F} `{NumLib F} `{!NumLibLaws F}
    (draws : nat -> F) (fuel : nat) (self : ExcitationSignal F) (m p nr_inputs : nat)
    (mode : string) (pos : nat) (U_amp U_phase u : list (list (list F)))
    (us : list (list F)) (pos' : nat) :
  mode = "orthogonal"%string \/ mode = "random"%string ->
  get_multi_signals draws fuel self m p nr_inputs mode pos = Ok (U_amp, U_phase, u, us, pos') ->
  forall c j, c < nr_inputs -> j < m ->
    exists A0,
      _get_frequency_amplitude (N self) (amp self)
        (Z.of_nat (idx self).1, Z.of_nat (idx self).2) = Ok A0 /\
      U_amp !! c ≫= (.!! j) = Some A0.
Proof.
  intros Hmode Hget c j Hc Hj. apply get_multi_signals_inv in Hget as [Htr _].
  apply (trials_chain draws fuel self nr_inputs mode m) in Htr
    as (cur & _ & _ & Hin & _); [|apply shape3_replicate..|lia].
  destruct (Hin j ltac:(lia)) as (Xa & Xp & x & Hsig & Hcol).
  destruct (get_signals_amplitude_rows draws _ _ _ _ _ _ _ _ _ _ _ _ Hmode Hsig c Hc)
    as (A0 & HA0 & HXa).
  exists A0. split; [done|]. destruct (Hcol c) as (-> & _). done.
Qed.

(** The statement of X8 on the same run, mode ['orthogonal']. *)
Lemma get_multi_signals_amplitude_witness :
  exists U_amp U_phase u us pos',
    get_multi_signals Example.draws_ex 1 (Example.self_ex 2) 2 3 2 "orthogonal" 0
      = Ok (U_amp, U_phase, u, us, pos') /\
    forall c j, c < 2 -> j < 2 ->
      exists A0,
        _get_frequency_amplitude (N (Example.self_ex 2)) (amp (Example.self_ex 2))
          (Z.of_nat (idx (Example.self_ex 2)).1, Z.of_nat (idx (Example.self_ex 2)).2) = Ok A0 /\
        U_amp !! c ≫= (.!! j) = Some A0.
Proof.
  destruct (get_multi_signals_returns Example.draws_ex 1 (Example.self_ex 2) 2 3 2
              "orthogonal" 0) as [[[[[UA UP] u] us] pos'] Hget].
  { lia. }
  { apply (real_search_returns Example.draws_ex 0 2%R 4 1%R 1 2); [lra|lia..]. }
  exists UA, UP, u, us, pos'. split; [exact Hget|].
  apply (get_multi_signals_amplitude Example.draws_ex 1 (Example.self_ex 2) 2 3 2
           "orthogonal" 0 UA UP u us pos'); [by left|exact Hget].
Defined.

(** ** Runs that produce nothing *)

Section Degenerate.
Context {F : Type} `{Arith F} `{NumLib F}.
Variable draws : nat -> F.

Lemma get_signals_other_mode fuel eps N amp nr idx mode pos :
  mode <> "orthogonal"%string -> mode <> "random"%string ->
  get_signals draws fuel eps N amp nr idx mode pos
  = Ok (replicate nr (replicate N zero), replicate nr (replicate N zero),
        replicate nr (replicate N zero), pos).
Proof.
  intros H1 H2. unfold get_signals.
  apply String.eqb_neq in H1, H2. by rewrite H1, H2.
Qed.

Lemma trials_other_mode fuel self nr mode m :
  mode <> "orthogonal"%string -> mode <> "random"%string ->
  forall ks pos,
    trials draws fuel self nr mode
      (replicate nr (replicate m (replicate (N self) zero)),
       replicate nr (replicate m (replicate (N self) zero)),
       replicate nr (replicate m (replicate (N self) zero)), pos) ks
    = Ok (replicate nr (replicate m (replicate (N self) zero)),
          replicate nr (replicate m (replicate (N self) zero)),
          replicate nr (replicate m (replicate (N self) zero)), pos).
Proof.
  intros H1 H2. induction ks as [|i ks IH]; intros pos; [done|].
  cbn [trials]. rewrite get_signals_other_mode by done. cbn [mbind res_bind].
  rewrite !set_trial_replicate. apply IH.
Qed.

(** Without a channel the three arrays stay empty. *)
Lemma trials_no_inputs fuel self mode :
  forall ks pos UA UP u pos',
    trials draws fuel self 0 mode ([], [], [], pos) ks = Ok (UA, UP, u, pos') ->
    UA = [] /\ UP = [] /\ u = [].
Proof.
  induction ks as [|i ks IH]; intros pos UA UP u pos'; cbn [trials].
  - by intros [= <- <- <- <-].
  - destruct (get_signals _ _ _ _ _ _ _ _ _) as [[[[Xa Xp] x] p1]| |]; cbn [mbind res_bind];
      [|done..].
    apply IH.
Qed.

Lemma trials_no_inputs_returns fuel self mode :
  mode <> "orthogonal"%string ->
  forall ks pos, trials draws fuel self 0 mode ([], [], [], pos) ks = Ok ([], [], [], pos).
Proof.
  intros H1. induction ks as [|i ks IH]; intros pos; [done|].
  cbn [trials]. unfold get_signals. apply String.eqb_neq in H1. rewrite H1.
  destruct (String.eqb mode "random"); cbn [seq random_rows mbind res_bind replicate set_trial
                                            zip_with]; apply IH.
Qed.
End Degenerate.

(** X9: a mode other than ['orthogonal'] and ['random'] is not refused:
    [get_signals] returns its three arrays as it allocated them, full of
    zeros, and reads no random number; [get_multi_signals] then returns
    arrays of zeros of the usual shapes. *)
Theorem get_multi_signals_unknown_mode {F : Type} `{Arith F} `{NumLib F}
    (draws : nat -> F) (fuel : nat) (self : ExcitationSignal F) (m p nr_inputs : nat)
    (mode : string) (pos : nat) :
  mode <> "orthogonal"%string -> mode <> "random"%string ->
  (forall eps N amp idx,
     get_signals draws fuel eps N amp nr_inputs idx mode pos
     = Ok (replicate nr_inputs (replicate N zero), replicate nr_inputs (replicate N zero),
           replicate nr_inputs (replicate N zero), pos)) /\
  (nr_inputs <> 0 ->
   get_multi_signals draws fuel self m p nr_inputs mode pos
   = Ok (replicate nr_inputs (replicate m (replicate (N self) zero)),
         replicate nr_inputs (replicate m (replicate (N self) zero)),
         replicate nr_inputs (replicate m (replicate (N self) zero)),
         replicate nr_inputs (replicate (m * p * N self) zero), pos)).
Proof.
  intros H1 H2. split.
  - intros eps N amp idx. by apply get_signals_other_mode.
  - intros Hnr. unfold get_multi_signals.
    rewrite trials_other_mode by done. cbn [mbind res_bind].
    by rewrite get_repeat_signals_replicate.
Qed.

(** The statement of X9 in exact arithmetic, for a misspelt mode. *)
Lemma get_multi_signals_unknown_mode_witness :
  (forall eps N amp idx,
     get_signals Example.draws_ex 1 eps N amp 2 idx "orthogonl" 0
     = Ok (replicate 2 (replicate N zero), replicate 2 (replicate N zero),
           replicate 2 (replicate N zero), 0)) /\
  (2 <> 0 ->
   get_multi_signals Example.draws_ex 1 (Example.self_ex 2) 2 3 2 "orthogonl" 0
   = Ok (replicate 2 (replicate 2 (replicate 4 zero)),
         replicate 2 (replicate 2 (replicate 4 zero)),
         replicate 2 (replicate 2 (replicate 4 zero)),
         replicate 2 (replicate (2 * 3 * 4) zero), 0)).
Proof.
  apply (get_multi_signals_unknown_mode Example.draws_ex 1 (Example.self_ex 2) 2 3 2
           "orthogonl" 0); discriminate.
Defined.

(** X10: with [nr_inputs = 0] the call [get_multi_signals] never returns a
    result: the final [reshape(0, -1)] of the empty array raises
    [ValueError].  In every mode but ['orthogonal'] (which first runs a
    search per trial) this [ValueError] is the outcome, whatever [m] and
    [p]. *)
Theorem get_multi_signals_no_inputs {F : Type} `{Arith F} `{NumLib F}
    (draws : nat -> F) (fuel : nat) (self : ExcitationSignal F) (m p : nat)
    (mode : string) (pos : nat) :
  (forall r, get_multi_signals draws fuel self m p 0 mode pos <> Ok r) /\
  (mode <> "orthogonal"%string ->
   get_multi_signals draws fuel self m p 0 mode pos = Raise ValueError).
Proof.
  unfold get_multi_signals. cbn [replicate]. split.
  - intros r.
    destruct (trials _ _ _ _ _ _ _) as [[[[UA UP] u] p1]| |] eqn:Htr; cbn [mbind res_bind];
      [|done..].
    apply trials_no_inputs in Htr as (_ & _ & ->). done.
  - intros Hmode. by rewrite trials_no_inputs_returns.
Qed.

(** The statement of X10 in exact arithmetic, mode ['random']. *)
Lemma get_multi_signals_no_inputs_witness :
  get_multi_signals Example.draws_ex 1 (Example.self_ex 2) 2 3 0 "random" 0 = Raise ValueError.
Proof.
  apply (proj2 (get_multi_signals_no_inputs Example.draws_ex 1 (Example.self_ex 2) 2 3
                  "random" 0)).
  discriminate.
Defined.

(** ** The repeated signal, sample by sample *)

Lemma tiled_channel_lookup {A : Type} (chan : list (list A)) (m N p t : nat) :
  length chan = m -> Forall (fun row => length row = N) chan ->
  t < m * p * N ->
  concat (map (fun row => concat (replicate p row)) chan) !! t
  = chan !! (t / (p * N)) ≫= (.!! (t mod N)).
Proof.
  intros Hm Hrows Ht.
  assert (HpN : p * N <> 0) by nia.
  assert (HN : N <> 0) by nia.
  pose proof (Nat.div_mod_eq t (p * N)) as Ht1.
  pose proof (Nat.mod_upper_bound t (p * N) HpN) as Hr.
  set (j := t / (p * N)) in *. set (r := t mod (p * N)) in *.
  pose proof (Nat.div_mod_eq r N) as Hr1.
  pose proof (Nat.mod_upper_bound r N HN) as Hn.
  set (k := r / N) in *. set (n := r mod N) in *.
  assert (Hk : k < p) by nia.
  assert (Hj : j < m) by nia.
  assert (Hmod : t mod N = n).
  { symmetry. apply (Nat.mod_unique t N (j * p + k) n); [done|]. nia. }
  destruct (lookup_lt_is_Some_2 chan j) as [trial Htrial]; [lia|].
  rewrite Htrial, Hmod. simpl.
  pose proof (tiled_channel_block chan N p j k trial Hrows Htrial Hk) as Hblk.
  rewrite <- Hblk. rewrite lookup_take_lt by done. rewrite lookup_drop. f_equal. nia.
Qed.

(** X11: the array that [get_repeat_signals] returns, read one sample at a
    time.  For an input of shape [(nr_inputs, m, N)], row [c] of the
    result has length [m*p*N], its entry [t] is [u[c, t // (p*N), t % N]],
    and inside the block of one trial the row is periodic with period
    [N]. *)
Theorem get_repeat_signals_samples {A : Type} (u : list (list (list A)))
    (nr_inputs m N p : nat) (us : list (list A)) (c : nat) (chan : list (list A)) :
  shape3 u nr_inputs m N ->
  get_repeat_signals u p = Ok us ->
  u !! c = Some chan ->
  exists row,
    us !! c = Some row /\
    length row = m * p * N /\
    (forall t, t < m * p * N -> row !! t = chan !! (t / (p * N)) ≫= (.!! (t mod N))) /\
    (forall t, t + N < m * p * N -> (t + N) / (p * N) = t / (p * N) ->
       row !! (t + N) = row !! t).
Proof.
  intros [Hnr Hshape] Hus Hchan.
  apply get_repeat_signals_inv in Hus as [_ ->].
  eapply Forall_lookup_1 in Hshape as [Hm Hrows]; [|exact Hchan].
  eexists. split; [by rewrite list_lookup_fmap, Hchan|].
  split; [by apply tiled_channel_length|].
  assert (Hlook : forall t, t < m * p * N ->
            concat (map (fun row => concat (replicate p row)) chan) !! t
            = chan !! (t / (p * N)) ≫= (.!! (t mod N))).
  { intros t Ht. by apply (tiled_channel_lookup chan m N p t). }
  split; [exact Hlook|].
  intros t Ht Hsame. rewrite !Hlook by lia. rewrite Hsame. do 2 f_equal.
  assert (HN : N <> 0) by nia.
  rewrite <- (Nat.Div0.add_mod_idemp_r t N N), Nat.Div0.mod_same. f_equal. lia.
Qed.

(** The statement of X11 at a two-channel, two-trial array repeated three
    times. *)
Lemma get_repeat_signals_samples_witness :
  exists row,
    [[1; 2; 1; 2; 1; 2; 3; 4; 3; 4; 3; 4]; [5; 6; 5; 6; 5; 6; 7; 8; 7; 8; 7; 8]] !! 1
      = Some row /\
    length row = 2 * 3 * 2 /\
    (forall t, t < 2 * 3 * 2 ->
       row !! t = [[5; 6]; [7; 8]] !! (t / (3 * 2)) ≫= (.!! (t mod 2))) /\
    (forall t, t + 2 < 2 * 3 * 2 -> (t + 2) / (3 * 2) = t / (3 * 2) ->
       row !! (t + 2) = row !! t).
Proof.
  apply (get_repeat_signals_samples [[[1; 2]; [3; 4]]; [[5; 6]; [7; 8]]] 2 2 2 3
           _ 1 [[5; 6]; [7; 8]]).
  - split; [reflexivity|]. repeat constructor.
  - reflexivity.
  - reflexivity.
Defined.

(** ** Binary64: exact quotients and NaN *)

Module Binary64Facts.
Import SF64 Binary64.
Open Scope Z_scope.

Lemma shr_iter_exact (p : positive) (m : Z) :
  0 < m ->
  SpecFloat.iter_pos shr_1 p (Build_shr_record (m * 2 ^ Zpos p) false false)
  = Build_shr_record m false false.
Proof.
  rewrite iter_pos_iter. revert m. induction p as [|p IH] using Pos.peano_ind; intros m Hm.
  - simpl. replace (m * 2 ^ 1) with (2 * m) by lia. by apply shr_1_double.
  - rewrite Pos.iter_succ, Pos2Z.inj_succ, Z.pow_succ_r by lia.
    replace (m * (2 * 2 ^ Zpos p)) with ((2 * m) * 2 ^ Zpos p) by lia.
    rewrite IH by lia. by apply shr_1_double.
Qed.

Lemma Zdigits2_shift (m : positive) (k : Z) :
  0 <= k -> Zdigits2 (Zpos m * 2 ^ k) = Zdigits2 (Zpos m) + k.
Proof.
  intros Hk. destruct (Zdigits2_bounds m) as [Hlo Hhi].
  pose proof (Zdigits2_nonneg (Zpos m)) as Hd0.
  assert (Hd1 : 1 <= Zdigits2 (Zpos m)).
  { destruct (Z_lt_le_dec (Zdigits2 (Zpos m)) 1) as [Hlt|]; [|done].
    assert (Zdigits2 (Zpos m) = 0) as H0 by lia. rewrite H0 in Hhi. simpl in Hhi. lia. }
  assert (Hpk : 0 < 2 ^ k) by (apply Z.pow_pos_nonneg; lia).
  destruct (Zpos m * 2 ^ k) as [|q|q] eqn:Hq; try lia.
  apply Z.le_antisymm.
  - apply Zdigits2_le. rewrite <- Hq, Z.pow_add_r by lia. nia.
  - assert (Zdigits2 (Zpos m) + k - 1 < Zdigits2 (Zpos q)); [|lia].
    apply Zdigits2_ge; [lia|]. rewrite <- Hq.
    replace (Zdigits2 (Zpos m) + k - 1) with ((Zdigits2 (Zpos m) - 1) + k) by lia.
    rewrite Z.pow_add_r by lia. nia.
Qed.

(** Rounding a number that is representable gives this number. *)
Lemma round_representable (s : bool) (mx : positive) (ex sh : Z) :
  SpecFloat.bounded prec emax mx ex = true -> 0 <= sh ->
  binary_round_aux prec emax s (Zpos mx * 2 ^ sh) (ex - sh) loc_Exact
  = S754_finite s mx ex.
Proof.
  intros Hb Hsh. apply bounded64 in Hb as [Hc He].
  unfold binary_round_aux. unfold shr_fexp at 1.
  rewrite fexp64, Zdigits2_shift by done.
  replace (Z.max (Zdigits2 (Zpos mx) + sh + (ex - sh) - 53) (-1074) - (ex - sh)) with sh by lia.
  assert (Hfirst : shr (shr_record_of_loc (Zpos mx * 2 ^ sh) loc_Exact) (ex - sh) sh
                   = (Build_shr_record (Zpos mx) false false, ex)).
  { unfold shr. destruct sh as [|p|p]; [|..|lia].
    - cbn [shr_record_of_loc]. f_equal; [f_equal|]; lia.
    - cbn [shr_record_of_loc]. rewrite shr_iter_exact by lia. f_equal. lia. }
  rewrite Hfirst. cbn [shr_m loc_of_shr_record shr_r shr_s round_nearest_even].
  unfold shr_fexp. rewrite fexp64.
  replace (Z.max (Zdigits2 (Zpos mx) + ex - 53) (-1074) - ex) with 0 by lia.
  cbn [shr shr_record_of_loc shr_m].
  replace (ex <=? emax - prec) with true
    by (symmetry; apply Z.leb_le; change (emax - prec) with 971; lia).
  done.
Qed.

(** Division by [1.0] is exact. *)
Lemma SFdiv_one (X : spec_float) :
  valid_binary X = true -> SFdiv prec emax X SF_one = X.
Proof.
  intros Hv. destruct X as [sx|sx| |sx mx ex]; cbn [SFdiv SF_one].
  - by rewrite xorb_false_r.
  - by rewrite xorb_false_r.
  - done.
  - cbn [valid_binary SpecFloat.valid_binary] in Hv.
    pose proof (bounded64 _ _ Hv) as [Hc He].
    destruct (Zdigits2_bounds mx) as [Hlo Hhi].
    pose proof (Zdigits2_nonneg (Zpos mx)) as Hd0.
    set (d1 := Zdigits2 (Zpos mx)) in *.
    set (e' := Z.max (d1 + ex - 54) (-1074)).
    assert (Hcore : SFdiv_core_binary prec emax (Zpos mx) ex 4503599627370496 (-52)
                    = (Zpos mx * 2 ^ (ex - e'), ex - (ex - e'), loc_Exact)).
    { unfold SFdiv_core_binary. fold d1.
      change (Zdigits2 4503599627370496) with 53. rewrite fexp64.
      replace (Z.min (Z.max (d1 + ex - (53 + -52) - 53) (-1074)) (ex - -52)) with e' by lia.
      replace (ex - -52 - e') with (52 + (ex - e')) by lia.
      destruct (52 + (ex - e')) as [|p|p] eqn:Hp; [lia| |lia].
      rewrite Z.shiftl_mul_pow2 by lia. rewrite <- Hp, Z.pow_add_r by lia.
      change (2 ^ 52) with 4503599627370496.
      pose proof (Z_div_mod (Zpos mx * (4503599627370496 * 2 ^ (ex - e'))) 4503599627370496
                    ltac:(lia)) as Hdiv.
      destruct (Z.div_eucl _ _) as [q r]. destruct Hdiv as [Hqr Hr].
      assert (Hpw : 0 < 2 ^ (ex - e')) by (apply Z.pow_pos_nonneg; lia).
      assert (q = Zpos mx * 2 ^ (ex - e')) as -> by nia.
      assert (r = 0) as -> by nia.
      rewrite new_location_0. f_equal. f_equal. lia. }
    rewrite Hcore, xorb_false_r.
    apply round_representable; [done|lia].
Qed.

Close Scope Z_scope.

Lemma float_div_one (x : float) : (x / 1)%float = x.
Proof.
  apply Prim2SF_inj. rewrite FloatAxioms.div_spec. unfold SF64div.
  change (Prim2SF 1) with SF_one. apply SFdiv_one, Prim2SF_valid.
Qed.

(** NaN is the one value that differs from itself. *)
Lemma isnan_SF (x : float) : isnan x = true <-> Prim2SF x = S754_nan.
Proof.
  unfold isnan. cbn [feq Float64.arith]. rewrite FloatAxioms.eqb_spec, negb_true_iff.
  unfold SFeqb. destruct (Prim2SF x) as [s|s| |s m e]; cbn [SFcompare].
  - by destruct s.
  - by destruct s.
  - done.
  - destruct s; rewrite Z.compare_refl;
      change (Pos.compare_cont Eq m m) with (Pos.compare m m);
      rewrite Pos.compare_refl; done.
Qed.

Lemma isnan_abs (x : float) : isnan (abs x) = isnan x.
Proof.
  apply eq_true_iff_eq. rewrite !isnan_SF, FloatAxioms.abs_spec.
  by destruct (Prim2SF x).
Qed.

Lemma isnan_div_r (x M : float) : isnan M = true -> isnan (x / M)%float = true.
Proof.
  rewrite !isnan_SF, FloatAxioms.div_spec. unfold SF64div. intros ->.
  by destruct (Prim2SF x).
Qed.

Lemma np_maximum_nan (a b : float) :
  isnan a = true \/ isnan b = true -> isnan (np_maximum a b) = true.
Proof.
  unfold np_maximum. destruct (isnan a) eqn:Ha.
  - intros _. by rewrite orb_true_r.
  - intros [|Hb]; [done|]. rewrite orb_false_r. cbn [fle Float64.arith].
    rewrite FloatAxioms.leb_spec. apply isnan_SF in Hb as Hb'. rewrite Hb'.
    cbn [SFleb SFcompare]. done.
Qed.

(** [np.max] of an array that holds a NaN is NaN. *)
Lemma foldl_max_nan (t : list float) (x : float) :
  isnan x = true \/ (exists y, y ∈ t /\ isnan y = true) ->
  isnan (foldl np_maximum x t) = true.
Proof.
  revert x. induction t as [|z t IH]; intros x; simpl.
  - intros [|(y & Hy & _)]; [done|]. by apply elem_of_nil in Hy.
  - intros [Hx|(y & Hy & Hnan)].
    + apply IH. left. apply np_maximum_nan. by left.
    + apply elem_of_cons in Hy as [->|Hy].
      * apply IH. left. apply np_maximum_nan. by right.
      * apply IH. right. eauto.
Qed.

Lemma float_gt_nan (d eps : float) : isnan d = true -> (d ≻ eps) = false.
Proof.
  rewrite isnan_SF. cbn [flt Float64.arith]. rewrite FloatAxioms.ltb_spec. intros ->.
  unfold SFltb. by destruct (Prim2SF eps) as [[]|[]| |[]].
Qed.

Lemma isnan_abs_sub (a b : float) : isnan a = true -> isnan (abs (a - b)) = true.
Proof.
  rewrite isnan_abs, !isnan_SF, FloatAxioms.sub_spec. unfold SF64sub. by intros ->.
Qed.

(** The peak of a finite signal that is not identically zero is a
    positive finite number that bounds every magnitude. *)
Lemma float_peak (u : list float) :
  Forall (fun x => Float64.is_finite x = true) u ->
  (exists x, x ∈ u /\ (x ≗ 0%float) = false) ->
  exists M mM eM,
    np_max (map fabs u) = Ok M /\ Prim2SF M = S754_finite false mM eM /\
    forall y, y ∈ u -> (abs y <=? M)%float = true.
Proof.
  intros Hfin (x0 & Hx0 & Hx0ne).
  destruct u as [|x t]; [by apply elem_of_nil in Hx0|].
  pose proof (proj1 (Forall_forall _ _) Hfin) as Hfin'.
  assert (Hall : Forall (fun y => nonneg_finite (Prim2SF y)) (map fabs (x :: t))).
  { apply Forall_map. eapply Forall_impl; [exact Hfin|].
    intros y Hy. by apply abs_nonneg_finite. }
  cbn [map] in Hall. apply Forall_cons in Hall as [Hx Ht].
  destruct (float_foldl_max (map fabs t) (fabs x) Hx Ht) as (HMnn & HMin & HMmax).
  set (M := foldl np_maximum (fabs x) (map fabs t)) in *.
  assert (Hle : forall y, y ∈ x :: t -> (abs y <=? M)%float = true).
  { intros y Hy. apply HMmax. change (fabs x :: map fabs t) with (map fabs (x :: t)).
    apply list_elem_of_fmap. eauto. }
  assert (HMfin : exists mM eM, Prim2SF M = S754_finite false mM eM).
  { destruct (float_nonzero_finite x0) as (m0 & e0 & H0); [by apply Hfin'|done|].
    pose proof (Hle x0 Hx0) as Hle0. rewrite FloatAxioms.leb_spec, H0 in Hle0.
    destruct HMnn as [HM0|HMf]; [|done]. by rewrite HM0 in Hle0. }
  destruct HMfin as (mM & eM & HM). by exists M, mM, eM.
Qed.

Lemma nonneg_finite_abs_finite (y : float) :
  nonneg_finite (Prim2SF (abs y)) -> Float64.is_finite y = true.
Proof.
  rewrite FloatAxioms.abs_spec. intros Hnn.
  unfold Float64.is_finite, is_nan, is_infinity.
  rewrite !FloatAxioms.eqb_spec, FloatAxioms.abs_spec.
  change (Prim2SF infinity) with (S754_infinity false).
  destruct (Prim2SF y) as [s|s| |s m e]; cbn [SFabs] in *.
  - done.
  - by destruct Hnn as [|(? & ? & ?)].
  - by destruct Hnn as [|(? & ? & ?)].
  - unfold SFeqb. cbn [SFcompare]. rewrite Z.compare_refl.
    change (Pos.compare_cont Eq m m) with (Pos.compare m m).
    rewrite Pos.compare_refl. by destruct s.
Qed.
End Binary64Facts.

(** X12: in binary64, a signal whose entries are finite and not all zero
    is normalised to a signal of the same length whose entries are finite
    and of magnitude at most [1.0]. *)
Theorem normalization_unit_interval (u u' : list float) :
  Forall (fun x => Float64.is_finite x = true) u ->
  (exists x, x ∈ u /\ (x ≗ 0%float) = false) ->
  _get_normalization u = Ok u' ->
  length u' = length u /\
  Forall (fun y => Float64.is_finite y = true /\ (1%float ≽ fabs y) = true) u'.
Proof.
  intros Hfin Hne Hu'.
  destruct (Binary64Facts.float_peak u Hfin Hne) as (M & mM & eM & HM & HMf & Hle).
  unfold _get_normalization in Hu'. rewrite HM in Hu'. cbn [mbind res_bind] in Hu'.
  injection Hu' as <-. split; [by rewrite length_map|].
  apply Forall_map. apply Forall_forall. intros y Hy.
  destruct (Binary64.float_div_le_one y M mM eM) as (Hnn & Hle1 & _);
    [by eapply (proj1 (Forall_forall _ _) Hfin)|done|by apply Hle|].
  split; [by apply Binary64Facts.nonneg_finite_abs_finite|exact Hle1].
Qed.

(** The statement of X12 on the signal [[3; -4; 1]]. *)
Lemma normalization_unit_interval_witness :
  length [0.75; -1; 0.25]%float = length [3; -4; 1]%float /\
  Forall (fun y => Float64.is_finite y = true /\ (1%float ≽ fabs y) = true)
         [0.75; -1; 0.25]%float.
Proof.
  apply (normalization_unit_interval [3; -4; 1]%float [0.75; -1; 0.25]%float).
  - repeat constructor.
  - exists 3%float. split; [apply list_elem_of_here|reflexivity].
  - reflexivity.
Defined.

(** X13: in binary64, normalising a normalised signal changes nothing: for
    a signal whose entries are finite and not all zero, the result of
    [_get_normalization] is a fixed point of [_get_normalization] (its peak
    is [1.0] and a division by [1.0] is exact). *)
Theorem normalization_idempotent (u u' : list float) :
  Forall (fun x => Float64.is_finite x = true) u ->
  (exists x, x ∈ u /\ (x ≗ 0%float) = false) ->
  _get_normalization u = Ok u' ->
  _get_normalization u' = Ok u'.
Proof.
  intros Hfin Hne Hu'.
  destruct (Binary64.float_normalization_peak u Hfin Hne) as (M & u0 & _ & Hu0 & _ & Hpeak).
  rewrite Hu0 in Hu'. injection Hu' as ->.
  unfold _get_normalization. rewrite Hpeak. cbn [mbind res_bind]. f_equal.
  rewrite <- (list_fmap_id u') at 2. apply list_fmap_ext. intros i x _.
  apply Binary64Facts.float_div_one.
Qed.

(** The statement of X13 on the signal [[3; -4; 1]]. *)
Lemma normalization_idempotent_witness :
  _get_normalization [0.75; -1; 0.25]%float = Ok [0.75; -1; 0.25]%float.
Proof.
  apply (normalization_idempotent [3; -4; 1]%float [0.75; -1; 0.25]%float).
  - repeat constructor.
  - exists 3%float. split; [apply list_elem_of_here|reflexivity].
  - reflexivity.
Defined.

(** An array that holds a NaN: every entry of the result is NaN. *)
Lemma float_normalization_nan (u : list float) :
  (exists x, x ∈ u /\ isnan x = true) ->
  exists u', _get_normalization u = Ok u' /\ length u' = length u /\
             Forall (fun y => isnan y = true) u'.
Proof.
  intros (x0 & Hx0 & Hnan). destruct u as [|x t]; [by apply elem_of_nil in Hx0|].
  unfold _get_normalization. cbn [map np_max mbind res_bind].
  set (M := foldl np_maximum (fabs x) (map fabs t)).
  assert (HM : isnan M = true).
  { apply Binary64Facts.foldl_max_nan. apply elem_of_cons in Hx0 as [->|Hx0].
    - left. cbn [fabs Float64.arith]. by rewrite Binary64Facts.isnan_abs.
    - right. exists (fabs x0). split; [apply list_elem_of_fmap; eauto|].
      cbn [fabs Float64.arith]. by rewrite Binary64Facts.isnan_abs. }
  eexists. split; [reflexivity|]. split; [cbn [length]; by rewrite length_map|].
  change (x ⊘ M :: map (fun y => y ⊘ M) t) with (map (fun y => y ⊘ M) (x :: t)).
  apply Forall_map, Forall_forall. intros y _.
  by apply Binary64Facts.isnan_div_r.
Qed.


(** X14: in binary64, one NaN in the signal makes every entry of the
    normalised signal NaN: [np.max] returns NaN and every quotient by NaN
    is NaN. *)
Theorem normalization_nan (u : list float) :
  (exists x, x ∈ u /\ isnan x = true) ->
  exists u', _get_normalization u = Ok u' /\ length u' = length u /\
             Forall (fun y => isnan y = true) u'.
Proof. exact (float_normalization_nan u). Qed.

(** The statement of X14 on the signal [[1; NaN; 2]]. *)
Lemma normalization_nan_witness :
  exists u', _get_normalization [1; nan; 2]%float = Ok u' /\ length u' = 3 /\
             Forall (fun y => isnan y = true) u'.
Proof.
  apply (normalization_nan [1; nan; 2]%float).
  exists nan. split; [apply list_elem_of_further, list_elem_of_here|reflexivity].
Defined.

(** ** A difference that is NaN *)

Lemma float_first_step_nan (u : list float) :
  2 <= length u -> Forall (fun y => isnan y = true) u ->
  exists d, first_step u = Ok d /\ isnan d = true.
Proof.
  intros Hlen Hnan.
  destruct u as [|u0 [|u1 t]]; [simpl in Hlen; lia..|].
  exists (fabs (u0 ⊖ u1)). split; [reflexivity|].
  apply Forall_cons in Hnan as [H0 _].
  by apply Binary64Facts.isnan_abs_sub.
Qed.

(** X15: in binary64 the loop test [diff > eps] lets a NaN through.  When
    the time signal of the first round is identically zero (an empty band,
    a band reduced to the index [0], [amp = 0]) or holds a NaN, the
    normalised signal is NaN everywhere, so is [|u[0] - u[1]|], and the
    search returns this round's pair after reading [N] numbers. *)
Theorem feasible_search_accepts_nan `{NumLib float} `{!NumLibLaws float}
    (draws : nat -> float) (fuel : nat) (eps : float) (N : nat) (amp : float)
    (idx : Z * Z) (pos : nat) (U_amp : list float) :
  (of_int 1000 ≻ eps) = true -> 2 <= N ->
  _get_frequency_amplitude N amp idx = Ok U_amp ->
  Forall (fun x => (x ≗ 0%float) = true)
    (get_time_signal (_get_complex_signal U_amp (_get_random_phase draws N pos).1)) \/
  (exists x,
     x ∈ get_time_signal (_get_complex_signal U_amp (_get_random_phase draws N pos).1) /\
     isnan x = true) ->
  exists u,
    _get_normalization
      (get_time_signal (_get_complex_signal U_amp (_get_random_phase draws N pos).1)) = Ok u /\
    Forall (fun y => isnan y = true) u /\
    get_one_feasible_signal draws (S fuel) eps N amp idx pos
    = Ok (U_amp, (_get_random_phase draws N pos).1, pos + N).
Proof.
  intros Hlt HN HA Hts.
  pose proof (frequency_amplitude_length _ _ _ _ HA) as [HlenA _].
  set (P := (_get_random_phase draws N pos).1) in *.
  assert (HlenP : length P = N) by apply random_phase_length.
  set (ts := get_time_signal (_get_complex_signal U_amp P)) in *.
  assert (Hlen : length ts = N).
  { unfold ts. rewrite time_signal_length. lia. }
  assert (Hu : exists u, _get_normalization ts = Ok u /\ length u = length ts /\
                         Forall (fun y => isnan y = true) u).
  { destruct Hts as [Hz|Hn].
    - apply float_normalization_zeros; [|done]. intros Hnil. rewrite Hnil in Hlen. simpl in Hlen. lia.
    - by apply float_normalization_nan. }
  destruct Hu as (u & Hu & Hlenu & Hnan).
  exists u. split; [done|]. split; [done|].
  destruct (float_first_step_nan u) as (d & Hd & Hdnan); [lia|done|].
  unfold get_one_feasible_signal. cbn [feasible_loop]. rewrite Hlt.
  unfold attempt, get_frequency_signal. rewrite HA. cbn [mbind res_bind].
  change (_get_random_phase draws N pos) with (P, pos + N).
  cbn [mbind res_bind]. fold ts. rewrite Hu. cbn [mbind res_bind]. rewrite Hd. cbn [mbind res_bind].
  pose proof (Binary64Facts.float_gt_nan d eps Hdnan) as Hacc.
  destruct fuel; cbn [feasible_loop]; by rewrite Hacc.
Qed.

(** The statement of X15 at [N = 4] with the reversed band [(2, 1)], for
    a transform that returns its argument: the amplitude array is zero, so
    is the time signal, and the first round is returned. *)
Lemma feasible_search_accepts_nan_witness :
  exists u,
    @_get_normalization float Float64.arith
      (@get_time_signal float
         {| cexp_j := fun _ => (1%float, 0%float); ifft := fun U => U |}
         (@_get_complex_signal float Float64.arith
            {| cexp_j := fun _ => (1%float, 0%float); ifft := fun U => U |}
            [0; 0; 0; 0]%float
            (_get_random_phase (fun _ => 0.25%float) 4 0).1)) = Ok u /\
    Forall (fun y => isnan y = true) u /\
    @get_one_feasible_signal float Float64.arith
      {| cexp_j := fun _ => (1%float, 0%float); ifft := fun U => U |}
      (fun _ => 0.25%float) 1 Float64.eps_default 4 100%float (2, 1)%Z 0
    = Ok ([0; 0; 0; 0]%float, (_get_random_phase (fun _ => 0.25%float) 4 0).1, 0 + 4).
Proof.
  apply (@feasible_search_accepts_nan
           {| cexp_j := fun _ => (1%float, 0%float); ifft := fun U => U |}
           (@Build_NumLibLaws float
              {| cexp_j := fun _ => (1%float, 0%float); ifft := fun U => U |}
              (fun U => eq_refl))
           (fun _ => 0.25%float) 0 Float64.eps_default 4 100%float (2, 1)%Z 0
           [0; 0; 0; 0]%float).
  - reflexivity.
  - lia.
  - reflexivity.
  - left. repeat constructor.
Defined.

(** ** The bound that an accepted signal satisfies in binary64 *)

(** A comparison [d > eps] that is false means [d <= eps], unless one of
    the two numbers is NaN. *)
Lemma float_not_gt (d eps : float) :
  (d ≻ eps) = false -> isnan eps = false -> isnan d = true \/ (eps ≽ d) = true.
Proof.
  intros Hgt Heps. destruct (isnan d) eqn:Hd; [by left|right].
  cbn [flt fle Float64.arith] in *.
  rewrite FloatAxioms.ltb_spec in Hgt. rewrite FloatAxioms.leb_spec.
  assert (Hd' : Prim2SF d <> S754_nan).
  { intros Hn. apply Binary64Facts.isnan_SF in Hn. congruence. }
  assert (Heps' : Prim2SF eps <> S754_nan).
  { intros Hn. apply Binary64Facts.isnan_SF in Hn. congruence. }
  unfold SFltb in Hgt. unfold SFleb.
  rewrite (SFcompare_antisym (Prim2SF eps) (Prim2SF d)).
  destruct (Prim2SF eps) as [s1|s1| |s1 m1 e1], (Prim2SF d) as [s2|s2| |s2 m2 e2];
    try done; cbn [SFcompare option_map CompOpp] in *;
    try (by destruct s1); try (by destruct s2); try (by destruct s1, s2).
  destruct s1, s2; try done;
    destruct (e1 ?= e2)%Z; try done; cbn [CompOpp] in *;
    destruct (Pos.compare_cont Eq m1 m2); done.
Qed.

(** X16: what an accepted signal satisfies in binary64, for a tolerance
    that is not NaN.  The normalised signal on which the search stops has
    a first difference [d = |u[0] - u[1]|] that is NaN or satisfies
    [d <= eps]; in mode ['random'] this holds for the time signal of every
    channel. *)
Theorem float_feasible_bound `{NumLib float} `{!NumLibLaws float}
    (draws : nat -> float) (fuel : nat) (eps : float) (N : nat) (amp : float)
    (idx : Z * Z) (pos : nat) :
  isnan eps = false ->
  (forall U_amp U_phase pos',
     get_one_feasible_signal draws fuel eps N amp idx pos = Ok (U_amp, U_phase, pos') ->
     exists u d,
       _get_normalization (get_time_signal (_get_complex_signal U_amp U_phase)) = Ok u /\
       first_step u = Ok d /\ (isnan d = true \/ (eps ≽ d) = true)) /\
  (forall nr_inputs U_amp U_phase u pos',
     get_signals draws fuel eps N amp nr_inputs idx "random" pos
       = Ok (U_amp, U_phase, u, pos') ->
     forall i, i < nr_inputs ->
       exists row d, u !! i = Some row /\ first_step row = Ok d /\
                     (isnan d = true \/ (eps ≽ d) = true)).
Proof.
  intros Heps. split.
  - intros A P pos' Hs.
    apply get_one_feasible_signal_inv in Hs as (pos0 & d & Hat & _ & Hd).
    apply attempt_inv in Hat as (_ & _ & _ & u & Hu & Hstep).
    exists u, d. split; [done|]. split; [done|]. by apply float_not_gt.
  - intros nr UA UP u pos' Hget i Hi.
    unfold get_signals in Hget. cbn [String.eqb Ascii.eqb Bool.eqb] in Hget.
    apply (random_rows_seq draws fuel eps N amp idx nr) in Hget
      as (_ & _ & _ & Hspec); [|by rewrite length_replicate..|lia].
    destruct (Hspec i) as [Hin _].
    destruct Hin as (A & P & row & d & _ & _ & Hrow & _ & _ & _ & Hstep & Hd); [lia|].
    exists row, d. split; [done|]. split; [done|]. by apply float_not_gt.
Qed.

(** The statement of X16 at [N = 4], band [(2, 3)], for a transform that
    returns its argument: the accepted signal is [[0; 0; 1; 1]] and its
    first difference is [0.0]. *)
Lemma float_feasible_bound_witness :
  exists u d,
    @_get_normalization float Float64.arith
      (@get_time_signal float
         {| cexp_j := fun _ => (1%float, 0%float); ifft := fun U => U |}
         (@_get_complex_signal float Float64.arith
            {| cexp_j := fun _ => (1%float, 0%float); ifft := fun U => U |}
            [0; 0; 100; 100]%float (_get_random_phase (fun _ => 0.25%float) 4 0).1)) = Ok u /\
    first_step u = Ok d /\ (isnan d = true \/ (Float64.eps_default ≽ d) = true).
Proof.
  apply (proj1 (@float_feasible_bound
                  {| cexp_j := fun _ => (1%float, 0%float); ifft := fun U => U |}
                  (@Build_NumLibLaws float
                     {| cexp_j := fun _ => (1%float, 0%float); ifft := fun U => U |}
                     (fun U => eq_refl))
                  (fun _ => 0.25%float) 1 Float64.eps_default 4 100%float (2, 3)%Z 0
                  eq_refl)
           [0; 0; 100; 100]%float (_get_random_phase (fun _ => 0.25%float) 4 0).1 4).
  vm_compute. reflexivity.
Defined.

(** ** Binary64: sizes and the zero shift *)

Module Binary64Int.
Import SF64 Binary64 Binary64Facts.
Open Scope Z_scope.

(** The last step of a rounding, on a mantissa of 53 or 54 bits. *)
Lemma finish_round_finite (s : bool) (m2 e1 : Z) :
  2 ^ 52 <= m2 <= 2 ^ 53 -> -1074 <= e1 <= 970 ->
  exists m e,
    (let '(mrs'', e'') := shr_fexp prec emax m2 e1 loc_Exact in
     match shr_m mrs'' with
     | Z0 => S754_zero s
     | Zpos m => if e'' <=? emax - prec then S754_finite s m e'' else S754_infinity s
     | _ => S754_nan
     end) = S754_finite s m e.
Proof.
  intros Hm He. unfold shr_fexp. rewrite fexp64.
  destruct (Z.eq_dec m2 (2 ^ 53)) as [->|Hne].
  - rewrite (Zdigits2_pow2 53) by lia.
    replace (Z.max (53 + 1 + e1 - 53) (-1074) - e1) with 1 by lia.
    cbn [shr shr_record_of_loc]. rewrite (shr_iter_pow2 1 53) by lia.
    cbn [shr_m]. change (2 ^ (53 - 1)) with (Zpos 4503599627370496).
    cbv beta iota.
    replace (e1 + 1 <=? emax - prec) with true
      by (symmetry; apply Z.leb_le; change (emax - prec) with 971; lia).
    eauto.
  - destruct m2 as [|p|p]; [lia| |lia].
    assert (Hd : Zdigits2 (Zpos p) = 53).
    { apply Z.le_antisymm; [apply Zdigits2_le; lia|].
      pose proof (Zdigits2_ge p 52 ltac:(lia) ltac:(lia)). lia. }
    rewrite Hd. replace (Z.max (53 + e1 - 53) (-1074) - e1) with 0 by lia.
    cbn [shr shr_record_of_loc shr_m].
    replace (e1 <=? emax - prec) with true
      by (symmetry; apply Z.leb_le; change (emax - prec) with 971; lia).
    eauto.
Qed.

(** A positive integer below [2^63] rounds to a positive finite number. *)
Lemma binary_round_integer (p : positive) :
  Zpos p < 2 ^ 63 ->
  exists m e, binary_round prec emax false p 0 = S754_finite false m e.
Proof.
  intros Hp. unfold binary_round.
  change (Zpos (digits2_pos p)) with (Zdigits2 (Zpos p)).
  destruct (Zdigits2_bounds p) as [Hlo Hhi].
  pose proof (Zdigits2_nonneg (Zpos p)) as Hd0.
  assert (Hd63 : Zdigits2 (Zpos p) <= 63) by (apply Zdigits2_le; lia).
  set (d := Zdigits2 (Zpos p)) in *.
  rewrite fexp64. unfold shl_align.
  replace (Z.max (d + 0 - 53) (-1074) - 0) with (d - 53) by lia.
  destruct (d - 53) as [|k|k] eqn:Hk.
  - (* 53 bits *)
    exists p, 0.
    pose proof (round_representable false p 0 0) as Hr.
    rewrite Z.mul_1_r, Z.sub_0_r in Hr. apply Hr; [|lia].
    unfold SpecFloat.bounded, canonical_mantissa.
    change (Zpos (digits2_pos p)) with d. rewrite fexp64.
    apply andb_true_iff. split; [apply Z.eqb_eq; lia|apply Z.leb_le; by change 0 with 0].
  - (* more than 53 bits: a right shift and a rounding *)
    unfold binary_round_aux. unfold shr_fexp at 1. fold d. rewrite fexp64.
    replace (Z.max (d + 0 - 53) (-1074) - 0) with (Zpos k) by lia.
    cbn [shr]. set (mrs' := SpecFloat.iter_pos shr_1 k _).
    assert (Hm' : shr_m mrs' = Zpos p / 2 ^ Zpos k).
    { unfold mrs'. rewrite shr_m_iter; by rewrite shr_m_of_loc. }
    assert (Hrange : 2 ^ 52 <= shr_m mrs' < 2 ^ 53).
    { rewrite Hm'. assert (Hpk : 0 < 2 ^ Zpos k) by (apply Z.pow_pos_nonneg; lia).
      assert (H52 : 2 ^ (d - 1) = 2 ^ 52 * 2 ^ Zpos k).
      { rewrite <- Z.pow_add_r by lia. f_equal. lia. }
      assert (H53 : 2 ^ d = 2 ^ 53 * 2 ^ Zpos k).
      { rewrite <- Z.pow_add_r by lia. f_equal. lia. }
      split.
      - apply Z.div_le_lower_bound; lia.
      - apply Z.div_lt_upper_bound; lia. }
    pose proof (round_nearest_even_bounds (shr_m mrs') (loc_of_shr_record mrs')) as Hr.
    apply finish_round_finite; lia.
  - (* fewer than 53 bits: a left shift *)
    exists (Pos.iter xO p k), (Zneg k).
    assert (Hshift : Zpos (Pos.iter xO p k) = Zpos p * 2 ^ Zpos k).
    { change (Pos.iter xO p k) with (shift_pos k p).
      rewrite shift_pos_correct, Z.pow_pos_fold. lia. }
    pose proof (round_representable false (Pos.iter xO p k) (Zneg k) 0) as Hr.
    rewrite Z.mul_1_r, Z.sub_0_r in Hr.
    replace (Z.max (d + 0 - 53) (-1074)) with (Zneg k) by lia.
    apply Hr; [|lia].
    unfold SpecFloat.bounded, canonical_mantissa.
    change (Zpos (digits2_pos (Pos.iter xO p k))) with (Zdigits2 (Zpos (Pos.iter xO p k))).
    rewrite Hshift, Zdigits2_shift by lia. fold d. rewrite fexp64.
    apply andb_true_iff. split; [apply Z.eqb_eq; lia|apply Z.leb_le].
    change (emax - prec) with 971. lia.
Qed.

Close Scope Z_scope.

(** The size of an array, as a float, is a positive finite number. *)
Lemma of_nat_finite (n : nat) :
  0 < n -> (Z.of_nat n < 2 ^ 63)%Z ->
  exists m e, Prim2SF (of_nat n) = S754_finite false m e.
Proof.
  intros Hn Hlt. unfold of_nat. cbn [of_int Float64.arith]. unfold Float64.of_Z.
  destruct (Z.of_nat n) as [|p|p] eqn:Hp; [lia| |lia].
  rewrite FloatAxioms.of_uint63_spec, Uint63.of_Z_spec.
  rewrite Z.mod_small by (change wB with (2 ^ 63)%Z; lia).
  cbn [binary_normalize]. by apply binary_round_integer.
Qed.

Lemma float_zero_div (y : float) (m : positive) (e : Z) :
  Prim2SF y = S754_finite false m e -> (0 / y)%float = 0%float.
Proof.
  intros Hy. apply Prim2SF_inj. rewrite FloatAxioms.div_spec. unfold SF64div.
  rewrite Hy. reflexivity.
Qed.

Lemma float_add_zero (x : float) : x <> (-0)%float -> (x + 0)%float = x.
Proof.
  intros Hx. apply Prim2SF_inj. rewrite FloatAxioms.add_spec. unfold SF64add.
  change (Prim2SF 0) with (S754_zero false).
  destruct (Prim2SF x) as [[]| | |] eqn:HSF; try done.
  exfalso. apply Hx. apply Prim2SF_inj. by rewrite HSF.
Qed.

Lemma float_zero_mul_finite (x : float) :
  Float64.is_finite x = true -> (0 * x ≗ 0)%float = true.
Proof.
  intros Hfin. cbn [feq Float64.arith].
  rewrite FloatAxioms.eqb_spec, FloatAxioms.mul_spec. unfold SF64mul.
  change (Prim2SF 0) with (S754_zero false).
  destruct (is_finite_SF x Hfin) as [s [->|(m & e & ->)]]; by destruct s.
Qed.

(** The shift of channel [0] is [+0.0]. *)
Lemma float_phase_shift_zero (nr : nat) :
  0 < nr -> (Z.of_nat nr < 2 ^ 63)%Z -> phase_shift 0 nr = 0%float.
Proof.
  intros Hnr Hlt. destruct (of_nat_finite nr Hnr Hlt) as (m & e & Hm).
  unfold phase_shift.
  change (of_int 2 ⊗ pi ⊗ of_nat 0) with 0%float.
  by apply (float_zero_div _ m e).
Qed.

Lemma float_shifted_zero (nr : nat) (P : list float) :
  0 < nr -> (Z.of_nat nr < 2 ^ 63)%Z -> Forall (fun x => x <> (-0)%float) P ->
  shifted nr 0 P = P.
Proof.
  intros Hnr Hlt HP. unfold shifted. rewrite float_phase_shift_zero by done.
  rewrite <- (list_fmap_id P) at 2. apply list_fmap_ext. intros i x Hx.
  apply float_add_zero. eapply (proj1 (Forall_forall _ _) HP).
  by eapply list_elem_of_lookup_2.
Qed.

(** The first entry of the frequency stamp equals zero. *)
Lemma float_freq_stamp_head (f0 : float) (N0 : nat) :
  Float64.is_finite f0 = true -> 0 < N0 -> (Z.of_nat N0 < 2 ^ 63)%Z ->
  exists x, get_freq_stamp f0 N0 !! 0 = Some x /\ (x ≗ 0%float) = true.
Proof.
  intros Hfin HN Hlt. destruct (of_nat_finite N0 HN Hlt) as (m & e & Hm).
  destruct (stamps_lookup f0 N0 0 HN) as [Hst _].
  eexists. split; [exact Hst|].
  change (of_nat 0) with 0%float. cbn [fdiv fmul Float64.arith].
  rewrite (float_zero_div _ m e Hm). by apply float_zero_mul_finite.
Qed.
End Binary64Int.

(** X17: mode ['orthogonal'] in binary64.  The shift of channel [0] is
    [2*pi*0/nr_inputs = 0.0] and adding [0.0] changes no number but [-0.0]:
    when no phase of the accepted pair is [-0.0], the phase row of channel
    [0] is the accepted phase array, bit for bit, and the time signal of
    channel [0] is the signal on which the search stopped, with a first
    difference that the loop test did not find above [eps]. *)
Theorem float_orthogonal_first_channel `{NumLib float} `{!NumLibLaws float}
    (draws : nat -> float) (fuel : nat) (eps : float) (N : nat) (amp : float)
    (nr_inputs : nat) (idx : Z * Z) (pos : nat) (U_amp0 U_phase0 : list float) (pos' : nat) :
  get_one_feasible_signal draws fuel eps N amp idx pos = Ok (U_amp0, U_phase0, pos') ->
  0 < nr_inputs -> (Z.of_nat nr_inputs < 2 ^ 63)%Z ->
  Forall (fun x => x <> (-0)%float) U_phase0 ->
  exists U_amp U_phase u row d,
    get_signals draws fuel eps N amp nr_inputs idx "orthogonal" pos
      = Ok (U_amp, U_phase, u, pos') /\
    U_amp !! 0 = Some U_amp0 /\ U_phase !! 0 = Some U_phase0 /\ u !! 0 = Some row /\
    _get_normalization (get_time_signal (_get_complex_signal U_amp0 U_phase0)) = Ok row /\
    first_step row = Ok d /\ (d ≻ eps) = false.
Proof.
  intros Hs Hnr Hlt Hphase.
  destruct (get_signals_orthogonal_rows draws fuel eps N amp nr_inputs idx pos _ _ _ Hs)
    as (UA & UP & u & Hget & _ & _ & _ & Hspec).
  destruct (Hspec 0 Hnr) as (HA0 & HP0 & row & Hrow & Hsig).
  rewrite (Binary64Int.float_shifted_zero nr_inputs U_phase0 Hnr Hlt Hphase) in HP0, Hsig.
  apply get_one_feasible_signal_inv in Hs as (pos0 & d & Hat & _ & Hd).
  apply attempt_inv in Hat as (_ & _ & _ & row' & Hrow' & Hstep).
  unfold channel_signal in Hsig. rewrite Hsig in Hrow'. injection Hrow' as <-.
  by exists UA, UP, u, row, d.
Qed.

(** The statement of X17 at [N = 4], band [(2, 3)], three channels, for a
    transform that returns its argument: the time signal is the amplitude
    array, its first two samples are equal and the first round is
    accepted. *)
Lemma float_orthogonal_first_channel_witness :
  exists U_amp U_phase u row d,
    @get_signals float Float64.arith
      {| cexp_j := fun _ => (1%float, 0%float); ifft := fun U => U |}
      (fun _ => 0.25%float) 1 Float64.eps_default 4 100%float 3 (2, 3)%Z "orthogonal" 0
      = Ok (U_amp, U_phase, u, 4) /\
    U_amp !! 0 = Some [0; 0; 100; 100]%float /\
    U_phase !! 0 = Some (_get_random_phase (fun _ => 0.25%float) 4 0).1 /\
    u !! 0 = Some row /\
    @_get_normalization float Float64.arith
      (@get_time_signal float
         {| cexp_j := fun _ => (1%float, 0%float); ifft := fun U => U |}
         (@_get_complex_signal float Float64.arith
            {| cexp_j := fun _ => (1%float, 0%float); ifft := fun U => U |}
            [0; 0; 100; 100]%float (_get_random_phase (fun _ => 0.25%float) 4 0).1)) = Ok row /\
    first_step row = Ok d /\ (d ≻ Float64.eps_default) = false.
Proof.
  apply (@float_orthogonal_first_channel
           {| cexp_j := fun _ => (1%float, 0%float); ifft := fun U => U |}
           (@Build_NumLibLaws float
              {| cexp_j := fun _ => (1%float, 0%float); ifft := fun U => U |}
              (fun U => eq_refl))
           (fun _ => 0.25%float) 1 Float64.eps_default 4 100%float 3 (2, 3)%Z 0
           [0; 0; 100; 100]%float (_get_random_phase (fun _ => 0.25%float) 4 0).1 4).
  - vm_compute. reflexivity.
  - lia.
  - vm_compute. reflexivity.
  - repeat constructor; intros Heq;
      apply (f_equal (fun z => PrimFloat.eqb z 0%float)) in Heq; vm_compute in Heq; discriminate.
Defined.

(** X18: in binary64, for a finite sampling frequency, the first entry of
    the frequency stamp is [(0 / N) * f], a zero.  A band whose lower
    endpoint is [0.0] (or [-0.0]) is therefore found at index [0] of the
    stamp: after a successful construction [idx[0] = 0]. *)
Theorem float_band_from_zero (f_lo f_hi f0 : float) (N0 : nat) (amp0 eps0 : float)
    (self : ExcitationSignal float) :
  Float64.is_finite f0 = true -> (Z.of_nat N0 < 2 ^ 63)%Z ->
  (f_lo ≗ 0%float) = true ->
  init (f_lo, f_hi) f0 N0 amp0 eps0 = Ok self ->
  (idx self).1 = 0 /\
  exists x, f_stamp self !! 0 = Some x /\ (x ≗ 0%float) = true.
Proof.
  intros Hfin Hlt Hlo Hinit.
  apply init_inv in Hinit as (_ & _ & _ & _ & _ & HN & _ & _ & _ & Hst & Hidx).
  destruct (Binary64Int.float_freq_stamp_head f0 N0 Hfin ltac:(lia) Hlt) as (x & Hx & Hx0).
  rewrite Hst. split; [|by exists x].
  rewrite Hst in Hidx. unfold get_freq_index in Hidx. cbn [fst snd] in Hidx.
  destruct (getitem (np_where (map (fun y => y ≗ f_lo) (get_freq_stamp f0 N0))) 0)
    as [lo| |] eqn:Hget; cbn [mbind res_bind] in Hidx; [|done..].
  destruct (getitem (np_where (map (fun y => y ≗ f_hi) (get_freq_stamp f0 N0))) 0)
    as [hi| |]; cbn [mbind res_bind] in Hidx; [|done..].
  injection Hidx as <-. cbn [fst].
  apply where_eq_found in Hget as (y & Hy & Hye & Hbefore).
  destruct lo as [|lo]; [done|]. exfalso.
  assert (Hxlo : (x ≗ f_lo) = true).
  { apply float_zero_cases in Hx0 as [-> | ->];
      apply float_zero_cases in Hlo as [-> | ->]; reflexivity. }
  rewrite (Hbefore 0 x ltac:(lia) Hx) in Hxlo. done.
Qed.

(** The statement of X18 for the default configuration. *)
Lemma float_band_from_zero_witness :
  exists self : ExcitationSignal float,
    init (0, 5)%float 100%float 100 100%float Float64.eps_default = Ok self /\
    (idx self).1 = 0 /\
    exists x, f_stamp self !! 0 = Some x /\ (x ≗ 0%float) = true.
Proof.
  destruct (init (0, 5)%float 100%float 100 100%float Float64.eps_default)
    as [self| |] eqn:Hinit; [|vm_compute in Hinit; discriminate..].
  exists self. split; [reflexivity|].
  apply (float_band_from_zero 0%float 5%float 100%float 100 100%float
           Float64.eps_default self); [reflexivity|lia|reflexivity|exact Hinit].
Defined.

(** ** Exact arithmetic: sums over a period *)

Module RealSums.
Open Scope R_scope.

Lemma foldr_Rplus_acc (l : list R) (a : R) : foldr Rplus a l = foldr Rplus 0 l + a.
Proof. induction l as [|x l IH]; simpl; [lra|]. rewrite IH. lra. Qed.

Lemma foldr_Rplus_seq (n : nat) (g : nat -> R) :
  foldr Rplus 0 (map g (seq 0 n)) = real_sum n g.
Proof.
  induction n as [|n IH]; [done|].
  rewrite seq_S, map_app, foldr_app. cbn [map foldr real_sum Nat.add].
  rewrite foldr_Rplus_acc, IH. lra.
Qed.

Lemma foldr_Rplus_scale (l : list R) (c : R) :
  foldr Rplus 0 (map (fun x => x / c) l) = foldr Rplus 0 l / c.
Proof. induction l as [|x l IH]; simpl; [lra|]. rewrite IH. lra. Qed.

Lemma real_sum_ext (n : nat) (f g : nat -> R) :
  (forall k, (k < n)%nat -> f k = g k) -> real_sum n f = real_sum n g.
Proof.
  induction n as [|n IH]; intros Hfg; [done|]. simpl.
  rewrite IH, Hfg by (intros; try apply Hfg; lia). done.
Qed.

Lemma real_sum_zero (n : nat) (f : nat -> R) :
  (forall k, (k < n)%nat -> f k = 0) -> real_sum n f = 0.
Proof.
  induction n as [|n IH]; intros Hf; [done|]. simpl.
  rewrite IH, Hf by (intros; try apply Hf; lia). lra.
Qed.

Lemma real_sum_plus (n : nat) (f g : nat -> R) :
  real_sum n (fun k => f k + g k) = real_sum n f + real_sum n g.
Proof. induction n as [|n IH]; simpl; [lra|]. rewrite IH. lra. Qed.

Lemma real_sum_scal (n : nat) (c : R) (f : nat -> R) :
  real_sum n (fun k => c * f k) = c * real_sum n f.
Proof. induction n as [|n IH]; simpl; [lra|]. rewrite IH. lra. Qed.

Lemma real_sum_swap (n m : nat) (f : nat -> nat -> R) :
  real_sum n (fun t => real_sum m (fun k => f t k))
  = real_sum m (fun k => real_sum n (fun t => f t k)).
Proof.
  induction n as [|n IH]; simpl.
  - symmetry. by apply real_sum_zero.
  - by rewrite IH, <- real_sum_plus.
Qed.

(** The sums of [cos (t x)] and [sin (t x)], multiplied by [2 sin (x/2)],
    telescope. *)
Lemma dirichlet_cos (h : R) (m : nat) :
  2 * sin h * real_sum m (fun t => cos (INR t * (2 * h))) = sin (INR m * (2 * h) - h) + sin h.
Proof.
  induction m as [|m IH].
  - simpl. rewrite Rmult_0_l, Rminus_0_l, sin_neg. lra.
  - cbn [real_sum]. rewrite Rmult_plus_distr_l, IH, S_INR.
    replace ((INR m + 1) * (2 * h) - h) with (INR m * (2 * h) + h) by lra.
    rewrite sin_plus, sin_minus. lra.
Qed.

Lemma dirichlet_sin (h : R) (m : nat) :
  2 * sin h * real_sum m (fun t => sin (INR t * (2 * h))) = cos h - cos (INR m * (2 * h) - h).
Proof.
  induction m as [|m IH].
  - simpl. rewrite Rmult_0_l, Rminus_0_l, cos_neg. lra.
  - cbn [real_sum]. rewrite Rmult_plus_distr_l, IH, S_INR.
    replace ((INR m + 1) * (2 * h) - h) with (INR m * (2 * h) + h) by lra.
    rewrite cos_plus, cos_minus. lra.
Qed.

(** Over a whole period the harmonics [0 < k < n] sum to zero. *)
Lemma harmonic_sums (n k : nat) :
  (0 < k < n)%nat ->
  real_sum n (fun t => cos (2 * PI * INR k * INR t / INR n)) = 0 /\
  real_sum n (fun t => sin (2 * PI * INR k * INR t / INR n)) = 0.
Proof.
  intros [Hk Hkn].
  assert (Hn0 : 0 < INR n) by (apply lt_0_INR; lia).
  assert (Hk0 : 0 < INR k) by (apply lt_0_INR; lia).
  assert (Hkn' : INR k < INR n) by (by apply lt_INR).
  pose proof PI_RGT_0 as Hpi.
  set (h := PI * INR k / INR n).
  assert (Hh0 : 0 < h).
  { unfold h. apply Rdiv_lt_0_compat; [|done]. by apply Rmult_lt_0_compat. }
  assert (HhPI : h < PI).
  { unfold h. apply (Rmult_lt_reg_r (INR n)); [done|].
    unfold Rdiv. rewrite Rmult_assoc, Rinv_l by lra. rewrite Rmult_1_r.
    by apply Rmult_lt_compat_l. }
  pose proof (sin_gt_0 h Hh0 HhPI) as Hsin.
  assert (Hfull : INR n * (2 * h) - h = - h + 2 * INR k * PI).
  { unfold h. field. lra. }
  pose proof (dirichlet_cos h n) as Hc. pose proof (dirichlet_sin h n) as Hs.
  rewrite Hfull, sin_period, sin_neg in Hc. rewrite Hfull, cos_period, cos_neg in Hs.
  assert (Hext : forall t, 2 * PI * INR k * INR t / INR n = INR t * (2 * h)).
  { intros t. unfold h. field. lra. }
  split.
  - rewrite (real_sum_ext n _ (fun t => cos (INR t * (2 * h)))) by (intros; by rewrite Hext).
    apply (Rmult_eq_reg_l (2 * sin h)); [|lra]. rewrite Hc. lra.
  - rewrite (real_sum_ext n _ (fun t => sin (INR t * (2 * h)))) by (intros; by rewrite Hext).
    apply (Rmult_eq_reg_l (2 * sin h)); [|lra]. rewrite Hs. lra.
Qed.

(** Lists as functions of the index. *)
Lemma imap_nth {A B : Type} (f : nat -> A -> B) (l : list A) (d : A) :
  imap f l = map (fun k => f k (nth k l d)) (seq 0 (length l)).
Proof.
  apply list_eq. intros i. rewrite list_lookup_imap, list_lookup_fmap.
  destruct (l !! i) as [x|] eqn:Hx.
  - pose proof (lookup_lt_Some _ _ _ Hx) as Hi.
    rewrite lookup_seq_lt by done. simpl. do 2 f_equal.
    symmetry. rewrite nth_lookup, Hx. done.
  - apply lookup_ge_None_1 in Hx. rewrite lookup_seq_ge by done. done.
Qed.

Lemma foldr_cadd (l : list (R * R)) :
  foldr Real.cadd (0, 0) l = (foldr Rplus 0 (map fst l), foldr Rplus 0 (map snd l)).
Proof.
  induction l as [|z l IH]; [done|]. simpl. rewrite IH. unfold Real.cadd. simpl. done.
Qed.

(** The real part of the inverse transform, entry by entry. *)
Lemma get_time_signal_entries (U : list (R * R)) (d : R * R) :
  get_time_signal U =
  map (fun t =>
         real_sum (length U)
           (fun k => (nth k U d).1 * cos (2 * PI * INR k * INR t / INR (length U))
                     - (nth k U d).2 * sin (2 * PI * INR k * INR t / INR (length U)))
         / INR (length U))
      (seq 0 (length U)).
Proof.
  unfold get_time_signal, ifft, Real.numlib, Real.idft.
  rewrite <- list_fmap_compose. apply list_fmap_ext. intros i t _. simpl.
  rewrite foldr_cadd. cbn [fst]. f_equal.
  rewrite (imap_nth _ U d), <- list_fmap_compose, foldr_Rplus_seq.
  apply real_sum_ext. intros k _. simpl. unfold Real.cis. simpl. done.
Qed.

Lemma get_time_signal_length (U : list (R * R)) : length (get_time_signal U) = length U.
Proof. rewrite (get_time_signal_entries U (0, 0)). by rewrite length_map, length_seq. Qed.

(** The sum of the samples is the component of index [0]. *)
Lemma time_signal_sum (U : list (R * R)) :
  nth 0 U (0, 0) = (0, 0) -> foldr Rplus 0 (get_time_signal U) = 0.
Proof.
  intros HU0. rewrite (get_time_signal_entries U (0, 0)).
  set (n := length U).
  rewrite foldr_Rplus_seq.
  rewrite (real_sum_ext n _
             (fun t => / INR n *
                real_sum n (fun k => (nth k U (0, 0)).1 * cos (2 * PI * INR k * INR t / INR n)
                                     - (nth k U (0, 0)).2 * sin (2 * PI * INR k * INR t / INR n))))
    by (intros; unfold Rdiv; apply Rmult_comm).
  rewrite real_sum_scal, real_sum_swap.
  rewrite real_sum_zero; [lra|].
  intros k Hk.
  rewrite (real_sum_ext n _
             (fun t => (nth k U (0, 0)).1 * cos (2 * PI * INR k * INR t / INR n)
                       + - (nth k U (0, 0)).2 * sin (2 * PI * INR k * INR t / INR n)))
    by (intros; lra).
  rewrite real_sum_plus, !real_sum_scal.
  destruct (decide (k = 0)%nat) as [->|Hk0].
  - rewrite HU0. simpl. lra.
  - destruct (harmonic_sums n k) as [-> ->]; [lia|]. lra.
Qed.

Lemma complex_signal_head (A P : list R) :
  length P = length A -> A !! 0%nat = Some 0 ->
  nth 0 (_get_complex_signal A P) (0, 0) = (0, 0).
Proof.
  intros Hlen HA. destruct A as [|a A]; [done|]. destruct P as [|p P]; [done|].
  injection HA as ->. unfold _get_complex_signal. simpl. f_equal; lra.
Qed.

Lemma frequency_amplitude_dc (N : nat) (amp : R) (idx : Z * Z) (U_amp : list R) :
  _get_frequency_amplitude N amp idx = Ok U_amp -> U_amp !! 0%nat = Some 0.
Proof.
  intros HU. pose proof (frequency_amplitude_length _ _ _ _ HU) as [Hlen HN].
  unfold _get_frequency_amplitude in HU.
  destruct (setitems _ _ _) as [l| |] eqn:Hl; simpl in HU; [|done..].
  apply setitems_length in Hl. rewrite length_replicate in Hl.
  rewrite (setitem_nat l 0) in HU by lia. injection HU as <-.
  apply list_lookup_insert_eq. lia.
Qed.
End RealSums.

(** X19: in exact arithmetic the samples of every time signal of the
    program sum to zero.  The amplitude array has [U_amp[0] = 0] (the line
    "set DC component to 0"), so whatever the phases, the real inverse
    transform of [U_amp * exp(j * U_phase)] has zero mean, and so has the
    normalised signal when the signal is not identically zero. *)
Theorem real_time_signal_zero_mean (N : nat) (amp : R) (idx : Z * Z)
    (U_amp U_phase : list R) :
  _get_frequency_amplitude N amp idx = Ok U_amp ->
  length U_phase = N ->
  foldr Rplus 0%R (get_time_signal (_get_complex_signal U_amp U_phase)) = 0%R /\
  forall u,
    (exists x, x ∈ get_time_signal (_get_complex_signal U_amp U_phase) /\ x <> 0%R) ->
    channel_signal U_amp U_phase = Ok u ->
    foldr Rplus 0%R u = 0%R.
Proof.
  intros HA HP.
  pose proof (frequency_amplitude_length _ _ _ _ HA) as [HlenA _].
  assert (Hsum : foldr Rplus 0%R (get_time_signal (_get_complex_signal U_amp U_phase)) = 0%R).
  { apply RealSums.time_signal_sum, RealSums.complex_signal_head; [lia|].
    by eapply RealSums.frequency_amplitude_dc. }
  split; [exact Hsum|].
  intros u _ Hu. unfold channel_signal, _get_normalization in Hu.
  destruct (np_max _) as [M| |]; simpl in Hu; [|done..]. injection Hu as <-.
  rewrite RealSums.foldr_Rplus_scale, Hsum. unfold Rdiv. by rewrite Rmult_0_l.
Qed.

(** The statement of X19 on the four-point run: the accepted signal
    [[0; -1/2; 1; -1/2]]. *)
Lemma real_time_signal_zero_mean_witness :
  foldr Rplus 0%R (get_time_signal (_get_complex_signal Example.U_amp_ex Example.U_phase_ex))
    = 0%R /\
  forall u,
    (exists x, x ∈ get_time_signal (_get_complex_signal Example.U_amp_ex Example.U_phase_ex)
               /\ x <> 0%R) ->
    channel_signal Example.U_amp_ex Example.U_phase_ex = Ok u ->
    foldr Rplus 0%R u = 0%R.
Proof.
  apply (real_time_signal_zero_mean 4 1%R (1, 2)%Z Example.U_amp_ex Example.U_phase_ex).
  - reflexivity.
  - reflexivity.
Defined.

(** ** Exact arithmetic: a phase shift of half a turn *)

Module RealShift.
Import RealSums.
Open Scope R_scope.






End RealShift.



(** ** The lookup once more *)

(** X21: the indices that [get_freq_index] returns are the first
    positions of the stamp whose entries equal the endpoints: no entry
    before [i_lo] equals [f_lo], none before [i_hi] equals [f_hi]. *)
Theorem get_freq_index_first {F : Type} `{Arith F} (f_lo f_hi : F) (f_stamp : list F)
    (i_lo i_hi : nat) :
  get_freq_index (f_lo, f_hi) f_stamp = Ok (i_lo, i_hi) ->
  (forall j y, j < i_lo -> f_stamp !! j = Some y -> (y ≗ f_lo) = false) /\
  (forall j y, j < i_hi -> f_stamp !! j = Some y -> (y ≗ f_hi) = false).
Proof.
  unfold get_freq_index. cbn [fst snd]. intros Hget.
  destruct (getitem (np_where (map (fun x => x ≗ f_lo) f_stamp)) 0) as [lo| |] eqn:Hlo;
    cbn [mbind res_bind] in Hget; [|done..].
  destruct (getitem (np_where (map (fun x => x ≗ f_hi) f_stamp)) 0) as [hi| |] eqn:Hhi;
    cbn [mbind res_bind] in Hget; [|done..].
  injection Hget as -> ->.
  apply where_eq_found in Hlo as (_ & _ & _ & Hlo).
  apply where_eq_found in Hhi as (_ & _ & _ & Hhi).
  split; [exact Hlo|exact Hhi].
Qed.

(** The statement of X21 in binary64 on a stamp that holds its values
    twice. *)
Lemma get_freq_index_first_witness :
  (forall j y, j < 1 -> [2; 1; 3; 1; 3]%float !! j = Some y -> (y ≗ 1%float) = false) /\
  (forall j y, j < 2 -> [2; 1; 3; 1; 3]%float !! j = Some y -> (y ≗ 3%float) = false).
Proof.
  apply (get_freq_index_first 1%float 3%float [2; 1; 3; 1; 3]%float 1 2).
  reflexivity.
Defined.

Lemma float_eq_nan (x v : float) : isnan v = true -> (x ≗ v) = false.
Proof.
  rewrite Binary64Facts.isnan_SF. cbn [feq Float64.arith].
  rewrite FloatAxioms.eqb_spec. intros ->. unfold SFeqb.
  by destruct (Prim2SF x) as [[]|[]| |[]].
Qed.

(** An endpoint that no entry equals. *)
Lemma get_freq_index_absent {F : Type} `{Arith F} (f_lo f_hi : F) (f_stamp : list F) :
  (forall x, x ∈ f_stamp -> (x ≗ f_lo) = false) \/
  (forall x, x ∈ f_stamp -> (x ≗ f_hi) = false) ->
  get_freq_index (f_lo, f_hi) f_stamp = Raise IndexError.
Proof.
  intros Habs.
  destruct (get_freq_index (f_lo, f_hi) f_stamp) as [[lo hi]|e|] eqn:Hget.
  - unfold get_freq_index in Hget. cbn [fst snd] in Hget.
    destruct (getitem (np_where (map (fun x => x ≗ f_lo) f_stamp)) 0) as [lo'| |] eqn:Hlo;
      cbn [mbind res_bind] in Hget; [|done..].
    destruct (getitem (np_where (map (fun x => x ≗ f_hi) f_stamp)) 0) as [hi'| |] eqn:Hhi;
      cbn [mbind res_bind] in Hget; [|done..].
    apply where_eq_found in Hlo as (x & Hx & Hxe & _).
    apply where_eq_found in Hhi as (y & Hy & Hye & _).
    apply list_elem_of_lookup_2 in Hx, Hy.
    destruct Habs as [Habs|Habs]; [rewrite Habs in Hxe|rewrite Habs in Hye]; done.
  - f_equal. by eapply get_freq_index_raise.
  - by apply get_freq_index_fuel in Hget.
Qed.

(** X22: in binary64 a band endpoint that is NaN equals no entry of any
    stamp: the lookup raises [IndexError], and no object can be
    constructed with such a band. *)
Theorem float_nan_endpoint (f_lo f_hi : float) :
  isnan f_lo = true \/ isnan f_hi = true ->
  (forall f_stamp, get_freq_index (f_lo, f_hi) f_stamp = Raise IndexError) /\
  (forall f0 N0 amp0 eps0 self, init (f_lo, f_hi) f0 N0 amp0 eps0 <> Ok self).
Proof.
  intros Hnan.
  assert (Hraise : forall f_stamp, get_freq_index (f_lo, f_hi) f_stamp = Raise IndexError).
  { intros f_stamp. apply get_freq_index_absent.
    destruct Hnan as [Hn|Hn]; [left|right]; intros x _; by apply float_eq_nan. }
  split; [exact Hraise|].
  intros f0 N0 amp0 eps0 self Hinit.
  apply init_inv in Hinit as (_ & _ & _ & _ & _ & _ & _ & _ & _ & _ & Hidx).
  by rewrite Hraise in Hidx.
Qed.

(** The statement of X22 for the band [(NaN, 5.0)]. *)
Lemma float_nan_endpoint_witness :
  (forall f_stamp, get_freq_index (nan, 5%float) f_stamp = Raise IndexError) /\
  (forall f0 N0 amp0 eps0 self, init (nan, 5%float) f0 N0 amp0 eps0 <> Ok self).
Proof.
  apply (float_nan_endpoint nan 5%float). left. reflexivity.
Defined.

(** ** Exact arithmetic: the signal as a sum of cosines *)

Lemma nth_complex_signal (A P : list R) (k : nat) (a p : R) :
  A !! k = Some a -> P !! k = Some p ->
  nth k (_get_complex_signal A P) (0, 0)%R = (a * cos p, a * sin p)%R.
Proof.
  intros Ha Hp. rewrite nth_lookup. unfold _get_complex_signal.
  rewrite lookup_zip_with, Ha, Hp. reflexivity.
Qed.

(** X23: in exact arithmetic the time signal is the multisine that the
    class is written for.  For a band [0 <= idx_lo <= idx_hi < N] and any
    phases, sample [t] of the real inverse transform of
    [U_amp * exp(j * U_phase)] is
    [1/N * sum over the band, index 0 left out, of
     amp * cos(U_phase[k] + 2*pi*k*t/N)]. *)
Theorem real_time_signal_multisine (N : nat) (amp : R) (lo hi : Z)
    (U_amp U_phase : list R) :
  (0 <= lo)%Z -> (lo <= hi)%Z -> (hi < Z.of_nat N)%Z ->
  _get_frequency_amplitude N amp (lo, hi) = Ok U_amp ->
  length U_phase = N ->
  get_time_signal (_get_complex_signal U_amp U_phase) =
  map (fun t =>
         (real_sum N
            (fun k => if decide (k <> 0%nat /\ (lo <= Z.of_nat k <= hi)%Z)
                      then amp * cos (nth k U_phase 0 + 2 * PI * INR k * INR t / INR N)
                      else 0) / INR N)%R)
      (seq 0 N).
Proof.
  intros Hlo Hle Hhi HA HP.
  destruct (frequency_amplitude_spec N amp lo hi Hlo Hle Hhi) as (A & HA' & HlenA & Hlook).
  rewrite HA' in HA. injection HA as <-.
  rewrite (RealSums.get_time_signal_entries _ (0, 0)%R).
  assert (HlenU : length (_get_complex_signal A U_phase) = N).
  { unfold _get_complex_signal. rewrite length_zip_with. lia. }
  rewrite HlenU. apply list_fmap_ext. intros i t _. cbv beta. f_equal.
  apply RealSums.real_sum_ext. intros k Hk.
  destruct (lookup_lt_is_Some_2 U_phase k) as [p Hp]; [lia|].
  rewrite (nth_complex_signal A U_phase k _ p (Hlook k Hk) Hp).
  rewrite (nth_lookup U_phase), Hp. cbn [fst snd default from_option]. unfold Datatypes.id.
  generalize (2 * PI * INR k * INR t / INR N)%R. intros th.
  destruct (decide (k = 0)) as [->|Hk0].
  - rewrite decide_False by lia. unfold zero. cbn [of_int Real.arith]. ring.
  - destruct (decide (lo <= Z.of_nat k <= hi)%Z) as [Hband|Hband].
    + rewrite decide_True by done. rewrite cos_plus. cbv beta iota. ring.
    + rewrite decide_False by tauto. unfold zero. cbn [of_int Real.arith]. ring.
Qed.

(** The statement of X23 on the four-point run. *)
Lemma real_time_signal_multisine_witness :
  get_time_signal (_get_complex_signal Example.U_amp_ex Example.U_phase_ex) =
  map (fun t =>
         (real_sum 4
            (fun k => if decide (k <> 0%nat /\ (1 <= Z.of_nat k <= 2)%Z)
                      then 1 * cos (nth k Example.U_phase_ex 0
                                    + 2 * PI * INR k * INR t / INR 4)
                      else 0) / INR 4)%R)
      (seq 0 4).
Proof.
  apply (real_time_signal_multisine 4 1%R 1 2 Example.U_amp_ex Example.U_phase_ex);
    [lia|lia|lia|reflexivity|reflexivity].
Defined.

(** ** Exact arithmetic: the grid of the stamps *)




(** ** Exact arithmetic: a signal that is not identically zero *)

Module RealNonzero.
Import RealSums.
Open Scope R_scope.





End RealNonzero.

(** ** A negative tolerance *)

Section NegativeTolerance.
Variable draws : nat -> R.

End NegativeTolerance.



(** The magnitude of a number that is not NaN is above every negative
    number. *)
Lemma float_abs_gt_negative (z eps : float) :
  (eps <? 0)%float = true -> isnan (abs z) = false -> (eps <? abs z)%float = true.
Proof.
  intros Heps Hz.
  assert (Hz' : Prim2SF (abs z) <> S754_nan).
  { intros Hn. apply Binary64Facts.isnan_SF in Hn. congruence. }
  rewrite FloatAxioms.ltb_spec in *. rewrite FloatAxioms.abs_spec in *.
  change (Prim2SF 0) with (S754_zero false) in Heps. unfold SFltb in *.
  destruct (Prim2SF eps) as [s1|s1| |s1 m1 e1], (Prim2SF z) as [s2|s2| |s2 m2 e2];
    cbn [SFabs SFcompare] in *; try done; try (by destruct s1).
Qed.

(** X26: in binary64, with a negative tolerance the only signals that the
    feasibility search can return are NaN signals: a pair that is returned
    for [eps < 0] comes from a round whose first difference is NaN. *)
Theorem float_negative_tolerance `{NumLib float}
    (draws : nat -> float) (fuel : nat) (eps : float) (N : nat) (amp : float)
    (idx : Z * Z) (pos : nat) (U_amp U_phase : list float) (pos' : nat) :
  (eps <? 0)%float = true ->
  get_one_feasible_signal draws fuel eps N amp idx pos = Ok (U_amp, U_phase, pos') ->
  exists u d,
    _get_normalization (get_time_signal (_get_complex_signal U_amp U_phase)) = Ok u /\
    first_step u = Ok d /\ isnan d = true.
Proof.
  intros Heps Hs.
  apply get_one_feasible_signal_inv in Hs as (pos0 & d & Hat & _ & Hd).
  apply attempt_inv in Hat as (_ & _ & _ & u & Hu & Hstep).
  exists u, d. split; [done|]. split; [done|].
  unfold first_step in Hstep.
  destruct (getitem u 0) as [u0| |]; cbn [mbind res_bind] in Hstep; [|done..].
  destruct (getitem u 1) as [u1| |]; cbn [mbind res_bind] in Hstep; [|done..].
  injection Hstep as <-. cbn [flt fabs fsub Float64.arith] in *.
  destruct (isnan (abs (u0 - u1))) eqn:Hn; [done|].
  rewrite (float_abs_gt_negative _ eps Heps Hn) in Hd. done.
Qed.

(** The statement of X26 at [N = 4] with the reversed band [(2, 1)] and
    [eps = -1.0], for a transform that returns its argument: the amplitude
    array is zero and the first round, all NaN, is returned. *)
Lemma float_negative_tolerance_witness :
  exists u d,
    @_get_normalization float Float64.arith
      (@get_time_signal float
         {| cexp_j := fun _ => (1%float, 0%float); ifft := fun U => U |}
         (@_get_complex_signal float Float64.arith
            {| cexp_j := fun _ => (1%float, 0%float); ifft := fun U => U |}
            [0; 0; 0; 0]%float (_get_random_phase (fun _ => 0.25%float) 4 0).1)) = Ok u /\
    first_step u = Ok d /\ isnan d = true.
Proof.
  apply (@float_negative_tolerance
           {| cexp_j := fun _ => (1%float, 0%float); ifft := fun U => U |}
           (fun _ => 0.25%float) 1 (-1)%float 4 100%float (2, 1)%Z 0
           [0; 0; 0; 0]%float (_get_random_phase (fun _ => 0.25%float) 4 0).1 4).
  - reflexivity.
  - vm_compute. reflexivity.
Defined.

(** * The order of the band indices *)


(** ** Binary64: rounding keeps the order *)

Module Binary64Order.
Import SF64 Binary64 Binary64Facts.
Open Scope Z_scope.

Lemma bpow_pos (e : Z) : (0 < bpow e)%R.
Proof. apply powerRZ_lt. lra. Qed.

Lemma bpow_add (a b : Z) : bpow (a + b) = (bpow a * bpow b)%R.
Proof. apply powerRZ_add. lra. Qed.

Lemma bpow_succ (e : Z) : bpow (e + 1) = (2 * bpow e)%R.
Proof. rewrite bpow_add. unfold bpow at 2. simpl. lra. Qed.

Lemma bpow_Z (k : Z) : 0 <= k -> bpow k = IZR (2 ^ k).
Proof.
  intros Hk. pattern k. apply natlike_ind; [done| |done].
  intros x Hx IH. rewrite Z.pow_succ_r by done. rewrite mult_IZR.
  unfold Z.succ. rewrite bpow_succ, IH. done.
Qed.

Lemma bpow_le (a b : Z) : a <= b -> (bpow a <= bpow b)%R.
Proof.
  intros Hab. replace b with (a + (b - a)) by lia. rewrite bpow_add.
  rewrite (bpow_Z (b - a)) by lia.
  assert (H1 : (1 <= IZR (2 ^ (b - a)))%R).
  { apply IZR_le. pose proof (Z.pow_pos_nonneg 2 (b - a)). lia. }
  pose proof (bpow_pos a). nra.
Qed.

Lemma bpow_lt_inv (a b : Z) : (bpow a < bpow b)%R -> a < b.
Proof.
  intros Hlt. destruct (Z_lt_le_dec a b) as [|Hle]; [done|].
  apply bpow_le in Hle. lra.
Qed.

Lemma IZR_xI (p : positive) : IZR (Zpos p~1) = (2 * IZR (Zpos p) + 1)%R.
Proof. change (Zpos p~1) with (2 * Zpos p + 1). by rewrite plus_IZR, mult_IZR. Qed.

Lemma IZR_xO (p : positive) : IZR (Zpos p~0) = (2 * IZR (Zpos p))%R.
Proof. change (Zpos p~0) with (2 * Zpos p). by rewrite mult_IZR. Qed.

(** A located value lies in its cell. *)
Lemma located_cell (v : R) (m e : Z) (l : location) :
  located v m e l -> (IZR m * bpow e <= v < (IZR m + 1) * bpow e)%R.
Proof.
  pose proof (bpow_pos e). destruct l as [|[]]; simpl; intros Hl; lra.
Qed.

(** One right shift keeps the value where the record says. *)
Lemma located_shr_1 (v : R) (e : Z) (mrs : shr_record) :
  0 <= shr_m mrs ->
  located v (shr_m mrs) e (loc_of_shr_record mrs) ->
  located v (shr_m (shr_1 mrs)) (e + 1) (loc_of_shr_record (shr_1 mrs)).
Proof.
  pose proof (bpow_pos e) as Ht.
  destruct mrs as [m r s]. cbn [shr_m]. intros Hm.
  destruct m as [|[p|p|]|p]; [| | | |lia];
    try pose proof (IZR_xI p) as HpI; try pose proof (IZR_xO p) as HpO;
    destruct r, s; cbn [shr_1 orb shr_m loc_of_shr_record located];
    rewrite bpow_succ; intros Hl; rewrite ?HpI, ?HpO in Hl; lra.
Qed.

Lemma located_shr_iter (v : R) (e : Z) (p : positive) (mrs : shr_record) :
  0 <= shr_m mrs ->
  located v (shr_m mrs) e (loc_of_shr_record mrs) ->
  located v (shr_m (SpecFloat.iter_pos shr_1 p mrs)) (e + Zpos p)
    (loc_of_shr_record (SpecFloat.iter_pos shr_1 p mrs)).
Proof.
  intros Hm Hl. rewrite iter_pos_iter.
  induction p as [|p IH] using Pos.peano_ind.
  - simpl. by apply located_shr_1.
  - rewrite Pos.iter_succ, Pos2Z.inj_succ.
    replace (e + Z.succ (Zpos p)) with (e + Zpos p + 1) by lia.
    apply located_shr_1; [|done].
    rewrite <- iter_pos_iter, shr_m_iter by done. apply Z.div_pos; lia.
Qed.

Lemma loc_of_record_of_loc (m : Z) (l : location) :
  loc_of_shr_record (shr_record_of_loc m l) = l.
Proof. by destruct l as [|[]]. Qed.

(** The first shift of a rounding: to the exponent of the format. *)
Lemma located_shr_fexp (v : R) (m e : Z) (l : location) :
  0 <= m -> located v m e l ->
  e <= fexp prec emax (Zdigits2 m + e) ->
  exists mrs,
    shr_fexp prec emax m e l = (mrs, fexp prec emax (Zdigits2 m + e)) /\
    0 <= shr_m mrs /\
    located v (shr_m mrs) (fexp prec emax (Zdigits2 m + e)) (loc_of_shr_record mrs).
Proof.
  intros Hm Hl He. unfold shr_fexp, shr.
  destruct (fexp prec emax (Zdigits2 m + e) - e) as [|p|p] eqn:Hn; [| |lia].
  - exists (shr_record_of_loc m l).
    replace (fexp prec emax (Zdigits2 m + e)) with e by lia.
    rewrite shr_m_of_loc, loc_of_record_of_loc. done.
  - eexists. split; [f_equal; lia|].
    replace (fexp prec emax (Zdigits2 m + e)) with (e + Zpos p) by lia.
    split.
    + rewrite shr_m_iter by (by rewrite shr_m_of_loc). rewrite shr_m_of_loc.
      apply Z.div_pos; lia.
    + apply located_shr_iter; by rewrite ?shr_m_of_loc, ?loc_of_record_of_loc.
Qed.

(** The magnitude of a located value. *)
Lemma located_mag (v : R) (m e : Z) (l : location) :
  0 <= m -> located v m e l ->
  (v < bpow (Zdigits2 m + e))%R /\ (0 < m -> (bpow (Zdigits2 m + e - 1) <= v)%R).
Proof.
  intros Hm Hl. apply located_cell in Hl as [Hlo Hhi].
  pose proof (bpow_pos e) as Ht.
  pose proof (Zdigits2_nonneg m) as Hd0.
  pose proof (lt_pow_Zdigits2 m Hm) as Hup. split.
  - rewrite bpow_add, (bpow_Z (Zdigits2 m)) by done.
    assert (H1 : (IZR m + 1 <= IZR (2 ^ Zdigits2 m))%R).
    { rewrite <- plus_IZR. apply IZR_le. lia. }
    nra.
  - intros Hpos. destruct m as [|p|p]; [lia| |lia].
    destruct (Zdigits2_bounds p) as [Hlow _].
    assert (Hd1 : 1 <= Zdigits2 (Zpos p)).
    { destruct (Z_lt_le_dec (Zdigits2 (Zpos p)) 1) as [Hlt|]; [|done].
      assert (Zdigits2 (Zpos p) = 0) as H0 by lia. rewrite H0 in Hup. simpl in Hup. lia. }
    replace (Zdigits2 (Zpos p) + e - 1) with ((Zdigits2 (Zpos p) - 1) + e) by lia.
    rewrite bpow_add, (bpow_Z (Zdigits2 (Zpos p) - 1)) by lia.
    apply IZR_le in Hlow. nra.
Qed.

(** Rounding to nearest even follows the order of the values of a grid. *)
Lemma round_nearest_even_mono (v w : R) (m m' e : Z) (l l' : location) :
  located v m e l -> located w m' e l' -> (v <= w)%R ->
  round_nearest_even m l <= round_nearest_even m' l'.
Proof.
  intros Hv Hw Hvw.
  pose proof (round_nearest_even_bounds m l) as Hb.
  pose proof (round_nearest_even_bounds m' l') as Hb'.
  pose proof (bpow_pos e) as Ht.
  destruct (Z.lt_trichotomy m m') as [Hlt|[->|Hgt]]; [lia| |].
  - destruct l as [|[]], l' as [|[]]; cbn [located round_nearest_even] in *;
      try lia; try (destruct (Z.even m'); lia); exfalso; lra.
  - exfalso. apply located_cell in Hv as [Hv _]. apply located_cell in Hw as [_ Hw].
    assert (H1 : (IZR m' + 1 <= IZR m)%R) by (rewrite <- plus_IZR; apply IZR_le; lia).
    nra.
Qed.

(** What [pack] returns. *)
Lemma pack_cases (m2 E : Z) :
  0 <= m2 <= 2 ^ 53 -> -1074 <= E ->
  (m2 = 0 /\ pack m2 E = S754_zero false) \/
  (exists mf ef,
     0 < m2 /\
     ((m2 = 2 ^ 53 /\ Zpos mf = 2 ^ 52 /\ ef = E + 1) \/
      (m2 < 2 ^ 53 /\ Zpos mf = m2 /\ ef = E)) /\
     ((ef <= 971 /\ pack m2 E = S754_finite false mf ef) \/
      (971 < ef /\ pack m2 E = S754_infinity false))).
Proof.
  intros Hm HE. unfold pack, shr_fexp. rewrite fexp64.
  destruct (Z.eq_dec m2 (2 ^ 53)) as [->|Hne].
  - right. exists 4503599627370496%positive, (E + 1). split; [lia|].
    split; [left; split; [done|]; split; [reflexivity|done]|].
    rewrite (Zdigits2_pow2 53) by lia.
    replace (Z.max (53 + 1 + E - 53) (-1074) - E) with 1 by lia.
    cbn [shr shr_record_of_loc]. rewrite (shr_iter_pow2 1 53) by lia.
    cbn [shr_m]. change (2 ^ (53 - 1)) with (Zpos 4503599627370496).
    cbv beta iota. change (emax - prec) with 971.
    destruct (Z.leb_spec (E + 1) 971); [left|right]; split; (done || lia).
  - assert (Hd : Zdigits2 m2 <= 53) by (apply Zdigits2_lt_pow; lia).
    pose proof (Zdigits2_nonneg m2) as Hd0.
    assert (Hshr : shr (shr_record_of_loc m2 loc_Exact) E
                     (Z.max (Zdigits2 m2 + E - 53) (-1074) - E)
                   = (shr_record_of_loc m2 loc_Exact, E)).
    { unfold shr. destruct (Z.max _ _ - E) eqn:Hn; try done; lia. }
    rewrite Hshr. cbn [shr_m shr_record_of_loc].
    destruct m2 as [|p|p]; [by left| |lia].
    right. exists p, E. split; [lia|]. split; [right; split; [lia|done]|].
    change (emax - prec) with 971.
    destruct (Z.leb_spec E 971); [left|right]; split; (done || lia).
Qed.

(** A rounding is its first shift followed by [pack]. *)
Lemma binary_round_aux_pack (m e : Z) (l : location) (mrs : shr_record) (E : Z) :
  shr_fexp prec emax m e l = (mrs, E) ->
  binary_round_aux prec emax false m e l
  = pack (round_nearest_even (shr_m mrs) (loc_of_shr_record mrs)) E.
Proof. intros Hs. unfold binary_round_aux, pack. by rewrite Hs. Qed.

Lemma pack_nonneg (m2 E : Z) : 0 <= m2 <= 2 ^ 53 -> -1074 <= E -> nonneg (pack m2 E).
Proof.
  intros Hm HE.
  destruct (pack_cases m2 E Hm HE) as [[_ ->]|(mf & ef & _ & _ & [[_ ->]|[_ ->]])]; done.
Qed.

(** [pack] follows the order of the pairs (exponent, mantissa). *)
Lemma pack_le (m2 E m2' E' : Z) :
  0 <= m2 <= 2 ^ 53 -> 0 <= m2' <= 2 ^ 53 -> -1074 <= E -> -1074 <= E' ->
  (E = E' /\ m2 <= m2') \/ (E < E' /\ 2 ^ 52 <= m2') ->
  SFleb (pack m2 E) (pack m2' E') = true.
Proof.
  intros Hm Hm' HE HE' Hord.
  assert (H52 : 0 < 2 ^ 52 < 2 ^ 53) by (split; [done|reflexivity]).
  destruct (pack_cases m2 E Hm HE) as [[H0 ->]|(mf & ef & Hpos & Hf & Hr)].
  - destruct (pack_cases m2' E' Hm' HE') as [[_ ->]|(mf' & ef' & _ & _ & [[_ ->]|[_ ->]])]; done.
  - destruct (pack_cases m2' E' Hm' HE') as [[H0' Hr']|(mf' & ef' & Hpos' & Hf' & Hr')]; [lia|].
    assert (Hlex : ef < ef' \/ (ef = ef' /\ Zpos mf <= Zpos mf')).
    { generalize dependent (2 ^ 52). generalize dependent (2 ^ 53). intros. lia. }
    destruct Hr as [[He ->]|[He ->]], Hr' as [[He' ->]|[He' ->]]; try done.
    + by apply SFleb_finite.
    + exfalso. lia.
Qed.

(** After the first shift the mantissa has at most 53 bits. *)
Lemma shifted_mantissa_bound (x : R) (n j : Z) :
  0 <= n -> (IZR n * bpow (Z.max (j - 53) (-1074)) <= x)%R -> (x < bpow j)%R -> n < 2 ^ 53.
Proof.
  intros Hn Hx1 Hx2. apply lt_IZR. rewrite <- (bpow_Z 53) by lia.
  pose proof (bpow_pos (Z.max (j - 53) (-1074))) as HtF.
  assert (Hj : (bpow j <= bpow 53 * bpow (Z.max (j - 53) (-1074)))%R).
  { rewrite <- bpow_add. apply bpow_le. lia. }
  nra.
Qed.

(** The form of a rounding of a located non-negative value. *)
Lemma binary_round_aux_form (v : R) (m e : Z) (l : location) :
  0 <= m -> located v m e l -> e <= fexp prec emax (Zdigits2 m + e) ->
  exists m1 l1,
    binary_round_aux prec emax false m e l
    = pack (round_nearest_even m1 l1) (Z.max (Zdigits2 m + e - 53) (-1074)) /\
    0 <= m1 < 2 ^ 53 /\
    located v m1 (Z.max (Zdigits2 m + e - 53) (-1074)) l1.
Proof.
  intros Hm Hl He.
  destruct (located_shr_fexp v m e l Hm Hl He) as (mrs & Hs & Hm1 & Hl1).
  destruct (located_mag v m e l Hm Hl) as [Hup _].
  rewrite fexp64 in *.
  exists (shr_m mrs), (loc_of_shr_record mrs).
  split; [by apply binary_round_aux_pack|]. split; [|done].
  split; [done|].
  pose proof (located_cell _ _ _ _ Hl1) as [Hc1 _].
  by apply (shifted_mantissa_bound v _ (Zdigits2 m + e)).
Qed.

Lemma binary_round_aux_nonneg (v : R) (m e : Z) (l : location) :
  0 <= m -> located v m e l -> e <= fexp prec emax (Zdigits2 m + e) ->
  nonneg (binary_round_aux prec emax false m e l).
Proof.
  intros Hm Hl He.
  destruct (binary_round_aux_form v m e l Hm Hl He) as (m1 & l1 & -> & Hm1 & _).
  pose proof (round_nearest_even_bounds m1 l1) as Hr.
  apply pack_nonneg; lia.
Qed.

(** Rounding to nearest even is monotone.  Both values are given by a
    mantissa, an exponent not above the exponent of the format, and a
    location. *)
Lemma binary_round_aux_mono (v w : R) (m e : Z) (l : location) (m' e' : Z) (l' : location) :
  0 <= m -> located v m e l -> e <= fexp prec emax (Zdigits2 m + e) ->
  0 <= m' -> located w m' e' l' -> e' <= fexp prec emax (Zdigits2 m' + e') ->
  (v <= w)%R ->
  SFleb (binary_round_aux prec emax false m e l)
        (binary_round_aux prec emax false m' e' l') = true.
Proof.
  intros Hm Hl He Hm' Hl' He' Hvw.
  destruct (binary_round_aux_form v m e l Hm Hl He) as (m1 & l1 & -> & H1 & Hl1).
  destruct (binary_round_aux_form w m' e' l' Hm' Hl' He') as (m1' & l1' & -> & H1' & Hl1').
  destruct (located_mag v m e l Hm Hl) as [Hup Hlow].
  destruct (located_mag w m' e' l' Hm' Hl') as [Hup' Hlow'].
  rewrite !fexp64 in *.
  set (k := Zdigits2 m + e) in *. set (k' := Zdigits2 m' + e') in *.
  set (E := Z.max (k - 53) (-1074)) in *. set (E' := Z.max (k' - 53) (-1074)) in *.
  pose proof (Zdigits2_nonneg m) as Hd0. pose proof (Zdigits2_nonneg m') as Hd0'.
  assert (HEE : E <= E').
  { destruct (Z.eq_dec m 0) as [->|Hmne].
    - change (Zdigits2 0) with 0 in *. lia.
    - assert (Hkk : k - 1 < k').
      { apply bpow_lt_inv. specialize (Hlow ltac:(lia)). lra. }
      lia. }
  pose proof (round_nearest_even_bounds m1 l1) as Hr.
  pose proof (round_nearest_even_bounds m1' l1') as Hr'.
  apply pack_le; [lia..|].
  destruct (Z.eq_dec E E') as [HeqE|HneE].
  - left. split; [done|]. rewrite <- HeqE in Hl1'.
    by apply (round_nearest_even_mono v w m1 m1' E).
  - right. split; [lia|].
    assert (Hnorm : E' = k' - 53) by lia.
    assert (Hm0 : 0 < m').
    { destruct (Z.eq_dec m' 0) as [->|]; [|lia]. change (Zdigits2 0) with 0 in *. lia. }
    specialize (Hlow' Hm0).
    pose proof (located_cell _ _ _ _ Hl1') as [_ Hc2'].
    assert (H52 : 2 ^ 52 < m1' + 1); [|lia].
    apply lt_IZR. rewrite plus_IZR, <- (bpow_Z 52) by lia.
    pose proof (bpow_pos E') as HtE.
    assert (Hk' : bpow (k' - 1) = (bpow 52 * bpow E')%R).
    { rewrite <- bpow_add. f_equal. lia. }
    nra.
Qed.

(** *** Values and the comparison *)

Lemma fval_pos (m : positive) (e : Z) : (0 < fval m e)%R.
Proof.
  unfold fval. apply Rmult_lt_0_compat; [|apply bpow_pos]. by apply IZR_lt.
Qed.

Lemma Zdigits2_pos (m : positive) : 1 <= Zdigits2 (Zpos m).
Proof.
  destruct (Zdigits2_bounds m) as [_ Hhi].
  pose proof (Zdigits2_nonneg (Zpos m)) as Hd0.
  destruct (Z_lt_le_dec (Zdigits2 (Zpos m)) 1) as [Hlt|]; [|done].
  assert (Zdigits2 (Zpos m) = 0) as H0 by lia. rewrite H0 in Hhi. simpl in Hhi. lia.
Qed.

(** On canonical numbers the comparison is the order of the values. *)
Lemma SFleb_fval (m1 : positive) (e1 : Z) (m2 : positive) (e2 : Z) :
  SpecFloat.bounded prec emax m1 e1 = true -> SpecFloat.bounded prec emax m2 e2 = true ->
  SFleb (S754_finite false m1 e1) (S754_finite false m2 e2) = true ->
  (fval m1 e1 <= fval m2 e2)%R.
Proof.
  intros Hb1 Hb2 Hle. apply bounded64 in Hb1 as [Hc1 _]. apply bounded64 in Hb2 as [Hc2 _].
  apply SFleb_finite in Hle. unfold fval.
  destruct (Zdigits2_bounds m1) as [_ Hh1]. destruct (Zdigits2_bounds m2) as [Hl2 _].
  pose proof (Zdigits2_pos m1). pose proof (Zdigits2_pos m2).
  destruct Hle as [Hlt|[-> Hm]].
  - assert (Hd2 : Zdigits2 (Zpos m2) = 53) by lia. rewrite Hd2 in Hl2.
    assert (Hm1 : Zpos m1 < 2 ^ 53).
    { assert (2 ^ Zdigits2 (Zpos m1) <= 2 ^ 53) by (apply Z.pow_le_mono_r; lia). lia. }
    apply IZR_lt in Hm1. apply IZR_le in Hl2.
    rewrite <- (bpow_Z 53) in Hm1 by lia. rewrite <- (bpow_Z (53 - 1)) in Hl2 by lia.
    pose proof (bpow_pos e1) as Ht1. pose proof (bpow_pos e2) as Ht2.
    assert (H53 : (bpow 53 * bpow e1 <= bpow (53 - 1) * bpow e2)%R).
    { rewrite <- !bpow_add. apply bpow_le. lia. }
    pose proof (bpow_pos 53). pose proof (bpow_pos (53 - 1)). nra.
  - apply IZR_le in Hm. pose proof (bpow_pos e2). nra.
Qed.

(** *** Multiplication *)

Lemma mul_exponent (mx : positive) (ex : Z) (my : positive) (ey : Z) :
  SpecFloat.bounded prec emax mx ex = true -> SpecFloat.bounded prec emax my ey = true ->
  ex + ey <= fexp prec emax (Zdigits2 (Zpos (mx * my)) + (ex + ey)).
Proof.
  intros Hbx Hby. apply bounded64 in Hbx as [Hcx _]. apply bounded64 in Hby as [Hcy _].
  rewrite fexp64.
  destruct (Zdigits2_bounds mx) as [Hlx _]. destruct (Zdigits2_bounds my) as [Hly _].
  pose proof (Zdigits2_pos mx) as Hdx. pose proof (Zdigits2_pos my) as Hdy.
  assert (Hd : Zdigits2 (Zpos mx) + Zdigits2 (Zpos my) - 2 < Zdigits2 (Zpos (mx * my))).
  { apply Zdigits2_ge; [lia|].
    replace (Zdigits2 (Zpos mx) + Zdigits2 (Zpos my) - 2)
      with ((Zdigits2 (Zpos mx) - 1) + (Zdigits2 (Zpos my) - 1)) by lia.
    rewrite Z.pow_add_r, Pos2Z.inj_mul by lia.
    apply Z.mul_le_mono_nonneg; try done; apply Z.pow_nonneg; lia. }
  lia.
Qed.

Lemma mul_located (mx : positive) (ex : Z) (my : positive) (ey : Z) :
  located (fval mx ex * fval my ey) (Zpos (mx * my)) (ex + ey) loc_Exact.
Proof.
  unfold located, fval. rewrite Pos2Z.inj_mul, mult_IZR, bpow_add. ring.
Qed.

Lemma SFmul_finite_nonneg (mx : positive) (ex : Z) (my : positive) (ey : Z) :
  SpecFloat.bounded prec emax mx ex = true -> SpecFloat.bounded prec emax my ey = true ->
  nonneg (SFmul prec emax (S754_finite false mx ex) (S754_finite false my ey)).
Proof.
  intros Hbx Hby. cbn [SFmul xorb].
  eapply binary_round_aux_nonneg; [done|apply mul_located|by apply mul_exponent].
Qed.

Lemma SFmul_finite_mono (mx : positive) (ex : Z) (mx' : positive) (ex' : Z)
    (my : positive) (ey : Z) :
  SpecFloat.bounded prec emax mx ex = true -> SpecFloat.bounded prec emax mx' ex' = true ->
  SpecFloat.bounded prec emax my ey = true ->
  SFleb (S754_finite false mx ex) (S754_finite false mx' ex') = true ->
  SFleb (SFmul prec emax (S754_finite false mx ex) (S754_finite false my ey))
        (SFmul prec emax (S754_finite false mx' ex') (S754_finite false my ey)) = true.
Proof.
  intros Hbx Hbx' Hby Hle. cbn [SFmul xorb].
  eapply binary_round_aux_mono;
    [done|apply mul_located|by apply mul_exponent|done|apply mul_located|by apply mul_exponent|].
  pose proof (SFleb_fval _ _ _ _ Hbx Hbx' Hle). pose proof (fval_pos my ey). nra.
Qed.

(** *** Division *)

Lemma new_location_spec (n r : Z) :
  0 < n -> 0 <= r < n ->
  match new_location n r with
  | loc_Exact => r = 0
  | loc_Inexact Lt => 0 < r /\ 2 * r < n
  | loc_Inexact Eq => 0 < r /\ 2 * r = n
  | loc_Inexact Gt => 0 < r /\ n < 2 * r
  end.
Proof.
  intros Hn Hr. unfold new_location, new_location_even, new_location_odd.
  destruct (Z.even n) eqn:Hev; destruct (Z.eqb_spec r 0) as [|Hr0]; try done.
  - destruct (Z.compare_spec (2 * r) n); lia.
  - assert (Hodd : Z.odd n = true) by (rewrite <- Z.negb_even, Hev; done).
    apply Z.odd_spec in Hodd as [k Hk].
    destruct (Z.compare_spec (2 * r + 1) n); lia.
Qed.

Lemma div_core_located (mx : positive) (ex : Z) (my : positive) (ey : Z) :
  SpecFloat.bounded prec emax mx ex = true -> SpecFloat.bounded prec emax my ey = true ->
  exists q e' l,
    SFdiv_core_binary prec emax (Zpos mx) ex (Zpos my) ey = (q, e', l) /\
    0 <= q /\
    located (fval mx ex / fval my ey) q e' l /\
    e' <= fexp prec emax (Zdigits2 q + e').
Proof.
  intros Hbx Hby. apply bounded64 in Hbx as [Hcx _]. apply bounded64 in Hby as [Hcy _].
  destruct (Zdigits2_bounds mx) as [Hx1 Hx2]. destruct (Zdigits2_bounds my) as [Hy1 Hy2].
  pose proof (Zdigits2_pos mx) as Hdx. pose proof (Zdigits2_pos my) as Hdy.
  unfold SFdiv_core_binary. rewrite !fexp64.
  set (d1 := Zdigits2 (Zpos mx)) in *. set (d2 := Zdigits2 (Zpos my)) in *.
  set (e' := Z.min (Z.max (d1 + ex - (d2 + ey) - 53) (-1074)) (ex - ey)).
  assert (Hs : 0 <= ex - ey - e') by lia.
  set (sh := ex - ey - e') in *.
  set (m' := match sh with Z.pos _ => Z.pos mx ≪ sh | 0 => Z.pos mx | Z.neg _ => 0 end).
  assert (Hm' : m' = Zpos mx * 2 ^ sh).
  { unfold m'. destruct sh as [|p|p] eqn:Hsh; [lia| |lia].
    by rewrite Z.shiftl_mul_pow2. }
  clearbody m'.
  pose proof (Z_div_mod m' (Zpos my) ltac:(lia)) as Hdiv.
  destruct (Z.div_eucl m' (Z.pos my)) as [q r]. destruct Hdiv as [Hqr Hr].
  assert (Hsh2 : 0 < 2 ^ sh) by (apply Z.pow_pos_nonneg; lia).
  assert (Hq0 : 0 <= q) by nia.
  exists q, e', (new_location (Zpos my) r). split; [done|]. split; [done|]. split.
  - (* the location *)
    pose proof (new_location_spec (Zpos my) r ltac:(lia) Hr) as Hloc.
    set (v := (fval mx ex / fval my ey)%R).
    pose proof (bpow_pos e') as Ht. pose proof (bpow_pos ey) as Hb.
    assert (HY : (1 <= IZR (Zpos my))%R) by (apply IZR_le; lia).
    assert (Hv : (v * IZR (Zpos my) = (IZR (Zpos my) * IZR q + IZR r) * bpow e')%R).
    { rewrite <- mult_IZR, <- plus_IZR, <- Hqr, Hm', mult_IZR, <- (bpow_Z sh) by done.
      unfold v, fval.
      replace ex with (sh + e' + ey) at 1 by (unfold sh; lia).
      rewrite !bpow_add. field. lra. }
    destruct Hr as [Hr0 Hr1]. apply IZR_le in Hr0. apply IZR_lt in Hr1.
    destruct (new_location (Zpos my) r) as [|[]]; cbn [located].
    + subst r. apply (Rmult_eq_reg_r (IZR (Zpos my))); [|lra]. rewrite Hv. simpl. ring.
    + destruct Hloc as [Hl1 Hl2]. apply IZR_lt in Hl1.
      apply (f_equal IZR) in Hl2. rewrite mult_IZR in Hl2.
      apply (Rmult_eq_reg_r (IZR (Zpos my))); [|lra]. nra.
    + destruct Hloc as [Hl1 Hl2]. apply IZR_lt in Hl1, Hl2. rewrite mult_IZR in Hl2.
      split; (apply (Rmult_lt_reg_r (IZR (Zpos my))); [lra|]); nra.
    + destruct Hloc as [Hl1 Hl2]. apply IZR_lt in Hl1, Hl2. rewrite mult_IZR in Hl2.
      split; (apply (Rmult_lt_reg_r (IZR (Zpos my))); [lra|]); nra.
  - (* the exponent *)
    pose proof (Zdigits2_nonneg q) as Hdq. rewrite fexp64.
    destruct (Z_le_gt_dec e' (-1074)) as [|Hgt]; [lia|].
    assert (He' : e' = d1 + ex - (d2 + ey) - 53) by lia.
    assert (Hshv : sh = 53 - d1 + d2) by (unfold sh; lia).
    assert (Hq52 : 2 ^ 52 <= q).
    { assert (Hpow : 2 ^ (d1 - 1) * 2 ^ sh = 2 ^ d2 * 2 ^ 52).
      { rewrite <- !Z.pow_add_r by lia. f_equal. lia. }
      assert (Hlow : Zpos my * 2 ^ 52 <= m') by nia.
      destruct (Z_le_gt_dec (2 ^ 52) q) as [|Hlt]; [done|].
      assert (q + 1 <= 2 ^ 52) by lia. nia. }
    assert (52 < Zdigits2 q); [|lia].
    destruct q as [|pq|pq]; try lia. apply Zdigits2_ge; [lia|done].
Qed.

Lemma SFdiv_finite_nonneg (mx : positive) (ex : Z) (my : positive) (ey : Z) :
  SpecFloat.bounded prec emax mx ex = true -> SpecFloat.bounded prec emax my ey = true ->
  nonneg (SFdiv prec emax (S754_finite false mx ex) (S754_finite false my ey)).
Proof.
  intros Hbx Hby. cbn [SFdiv xorb].
  destruct (div_core_located mx ex my ey Hbx Hby) as (q & e' & l & -> & Hq & Hl & He).
  by eapply binary_round_aux_nonneg.
Qed.

Lemma SFdiv_finite_mono (mx : positive) (ex : Z) (mx' : positive) (ex' : Z)
    (my : positive) (ey : Z) :
  SpecFloat.bounded prec emax mx ex = true -> SpecFloat.bounded prec emax mx' ex' = true ->
  SpecFloat.bounded prec emax my ey = true ->
  SFleb (S754_finite false mx ex) (S754_finite false mx' ex') = true ->
  SFleb (SFdiv prec emax (S754_finite false mx ex) (S754_finite false my ey))
        (SFdiv prec emax (S754_finite false mx' ex') (S754_finite false my ey)) = true.
Proof.
  intros Hbx Hbx' Hby Hle. cbn [SFdiv xorb].
  destruct (div_core_located mx ex my ey Hbx Hby) as (q & e1 & l & -> & Hq & Hl & He).
  destruct (div_core_located mx' ex' my ey Hbx' Hby) as (q' & e1' & l' & -> & Hq' & Hl' & He').
  eapply binary_round_aux_mono; try done.
  pose proof (SFleb_fval _ _ _ _ Hbx Hbx' Hle). pose proof (fval_pos my ey).
  unfold Rdiv. apply Rmult_le_compat_r; [|done].
  apply Rlt_le, Rinv_0_lt_compat. done.
Qed.

(** *** Integers *)

Lemma binary_round_located (p : positive) :
  exists mz ez,
    binary_round prec emax false p 0 = binary_round_aux prec emax false (Zpos mz) ez loc_Exact /\
    located (IZR (Zpos p)) (Zpos mz) ez loc_Exact /\
    ez <= fexp prec emax (Zdigits2 (Zpos mz) + ez).
Proof.
  unfold binary_round, shl_align.
  change (Zpos (digits2_pos p)) with (Zdigits2 (Zpos p)). rewrite fexp64.
  set (d := Zdigits2 (Zpos p)).
  destruct (Z.max (d + 0 - 53) (-1074) - 0) as [|k|k] eqn:Hk.
  - exists p, 0. split; [done|]. split.
    + cbn [located]. unfold bpow. simpl. ring.
    + rewrite fexp64. fold d. lia.
  - exists p, 0. split; [done|]. split.
    + cbn [located]. unfold bpow. simpl. ring.
    + rewrite fexp64. fold d. lia.
  - exists (Pos.iter xO p k), (Z.max (d + 0 - 53) (-1074)).
    assert (Hshift : Zpos (Pos.iter xO p k) = Zpos p * 2 ^ Zpos k).
    { change (Pos.iter xO p k) with (shift_pos k p).
      rewrite shift_pos_correct, Z.pow_pos_fold. lia. }
    split; [done|]. split.
    + cbn [located]. rewrite Hshift, mult_IZR, <- (bpow_Z (Zpos k)) by lia.
      rewrite Rmult_assoc, <- bpow_add.
      replace (Z.pos k + Z.max (d + 0 - 53) (-1074)) with 0 by lia.
      unfold bpow. simpl. ring.
    + rewrite fexp64, Hshift, Zdigits2_shift by lia. fold d. lia.
Qed.

Lemma float_of_Z_spec (p : positive) :
  Zpos p < 2 ^ 63 ->
  Prim2SF (Float64.of_Z (Zpos p)) = binary_round prec emax false p 0.
Proof.
  intros Hp. unfold Float64.of_Z.
  rewrite FloatAxioms.of_uint63_spec, Uint63.of_Z_spec.
  rewrite Z.mod_small by (change wB with (2 ^ 63); lia). done.
Qed.

Lemma SFleb_zero_l (z : spec_float) : nonneg z -> SFleb (S754_zero false) z = true.
Proof. by destruct z as [[]|[]| |[]]. Qed.

Lemma SFleb_inf_r (z : spec_float) : nonneg z -> SFleb z (S754_infinity false) = true.
Proof. by destruct z as [[]|[]| |[]]. Qed.

Lemma SFleb_not_ltb (x y : spec_float) : SFleb x y = true -> SFltb y x = false.
Proof.
  unfold SFleb, SFltb. rewrite (SFcompare_antisym x y).
  by destruct (SFcompare x y) as [[]|].
Qed.

(** The conversion of an integer to binary64 is monotone. *)
Lemma of_Z_mono (z z' : Z) :
  0 <= z <= z' -> z' < 2 ^ 63 ->
  nonneg (Prim2SF (Float64.of_Z z)) /\ nonneg (Prim2SF (Float64.of_Z z')) /\
  SFleb (Prim2SF (Float64.of_Z z)) (Prim2SF (Float64.of_Z z')) = true.
Proof.
  intros Hz Hz'.
  assert (Hnn : forall p, Zpos p < 2 ^ 63 -> nonneg (Prim2SF (Float64.of_Z (Zpos p)))).
  { intros p Hp. rewrite float_of_Z_spec by done.
    destruct (binary_round_located p) as (mz & ez & -> & Hl & He).
    by eapply binary_round_aux_nonneg. }
  destruct z as [|p|p]; [| |lia]; (destruct z' as [|p'|p']; [| |lia]); try lia.
  - done.
  - split; [done|]. split; [by apply Hnn|]. apply SFleb_zero_l. by apply Hnn.
  - split; [apply Hnn; lia|]. split; [by apply Hnn|].
    rewrite !float_of_Z_spec by lia.
    destruct (binary_round_located p) as (mz & ez & -> & Hl & He).
    destruct (binary_round_located p') as (mz' & ez' & -> & Hl' & He').
    eapply binary_round_aux_mono; try done. apply IZR_le. lia.
Qed.

(** *** Quotients and products of floats *)

Lemma float_div_mono (a b c : float) (mc : positive) (ec : Z) :
  Prim2SF c = S754_finite false mc ec ->
  nonneg (Prim2SF a) -> nonneg (Prim2SF b) ->
  SFleb (Prim2SF a) (Prim2SF b) = true ->
  nonneg (Prim2SF (a / c)) /\ nonneg (Prim2SF (b / c)) /\
  SFleb (Prim2SF (a / c)) (Prim2SF (b / c)) = true.
Proof.
  intros Hc Ha Hb Hle.
  pose proof (Prim2SF_valid a) as Hva. pose proof (Prim2SF_valid b) as Hvb.
  pose proof (Prim2SF_valid c) as Hvc. rewrite Hc in Hvc.
  rewrite !FloatAxioms.div_spec. unfold SF64div. rewrite Hc.
  destruct (Prim2SF a) as [[]|[]| |[] ma ea]; try done;
    destruct (Prim2SF b) as [[]|[]| |[] mb eb]; try done;
    cbn [valid_binary SpecFloat.valid_binary] in *;
    (split; [|split]);
    first [ done
          | by apply SFdiv_finite_nonneg
          | by apply SFdiv_finite_mono
          | apply SFleb_zero_l; by apply SFdiv_finite_nonneg
          | apply SFleb_inf_r; by apply SFdiv_finite_nonneg ].
Qed.

Lemma SFltb_nonneg_zero (z : spec_float) : nonneg z -> SFltb z (S754_zero false) = false.
Proof. by destruct z as [[]|[]| |[]]. Qed.

Lemma SFltb_inf_l (z : spec_float) : SFltb (S754_infinity false) z = false.
Proof. by destruct z as [[]|[]| |[]]. Qed.

Lemma float_mul_mono (a b f : float) :
  (0 <? f)%float = true ->
  nonneg (Prim2SF a) -> nonneg (Prim2SF b) ->
  SFleb (Prim2SF a) (Prim2SF b) = true ->
  (b * f <? a * f)%float = false.
Proof.
  intros Hf Ha Hb Hle.
  pose proof (Prim2SF_valid a) as Hva. pose proof (Prim2SF_valid b) as Hvb.
  pose proof (Prim2SF_valid f) as Hvf.
  rewrite FloatAxioms.ltb_spec in Hf. change (Prim2SF 0) with (S754_zero false) in Hf.
  rewrite FloatAxioms.ltb_spec, !FloatAxioms.mul_spec. unfold SF64mul.
  destruct (Prim2SF f) as [[]|[]| |[] mf ef]; try done;
    destruct (Prim2SF a) as [[]|[]| |[] ma ea]; try done;
    destruct (Prim2SF b) as [[]|[]| |[] mb eb]; try done;
    cbn [valid_binary SpecFloat.valid_binary] in *;
    first [ done
          | apply SFleb_not_ltb; by apply SFmul_finite_mono
          | apply SFltb_nonneg_zero; by apply SFmul_finite_nonneg
          | cbn [SFmul xorb]; first [done | apply SFltb_inf_l] ].
Qed.

(** The frequency stamp of a positive sampling frequency is sorted: a
    later entry is never below an earlier one. *)
Lemma float_stamp_sorted (f0 : float) (N0 i j : nat) :
  (0 <? f0)%float = true -> Z.of_nat N0 < 2 ^ 63 -> (i <= j)%nat -> (j < N0)%nat ->
  (of_nat j / of_nat N0 * f0 <? of_nat i / of_nat N0 * f0)%float = false.
Proof.
  intros Hf HN Hij Hj.
  destruct (Binary64Int.of_nat_finite N0 ltac:(lia) HN) as (mc & ec & Hc).
  destruct (of_Z_mono (Z.of_nat i) (Z.of_nat j) ltac:(lia) ltac:(lia)) as (Ha & Hb & Hle).
  destruct (float_div_mono (@of_nat float Float64.arith i) (@of_nat float Float64.arith j)
              (@of_nat float Float64.arith N0) mc ec Hc Ha Hb Hle)
    as (Hqa & Hqb & Hqle).
  by apply float_mul_mono.
Qed.
End Binary64Order.

(** ** The indices in a sorted stamp *)

Section IndexOrder.
Context {F : Type} `{Arith F}.
Variable f_stamp : list F.
Hypothesis feq_flt : forall x a y b : F,
  (x ≗ a) = true -> (y ≗ b) = true -> flt x y = flt a b.
Hypothesis feq_feq : forall a b x : F, (a ≗ b) = true -> (x ≗ a) = (x ≗ b).
Hypothesis sorted : forall i j x y,
  i <= j -> f_stamp !! i = Some x -> f_stamp !! j = Some y -> (x ≻ y) = false.

(** In a sorted stamp the first positions of two values are ordered as the
    values are. *)
Lemma get_freq_index_order (f_lo f_hi : F) (i_lo i_hi : nat) :
  get_freq_index (f_lo, f_hi) f_stamp = Ok (i_lo, i_hi) ->
  ((f_hi ≻ f_lo) = true -> i_lo < i_hi) /\
  ((f_lo ≗ f_hi) = true -> i_lo = i_hi) /\
  ((f_lo ≻ f_hi) = true -> i_hi < i_lo).
Proof.
  unfold get_freq_index. cbn [fst snd].
  destruct (getitem (np_where (map (fun x => x ≗ f_lo) f_stamp)) 0) as [lo| |] eqn:Hlo;
    cbn [mbind res_bind]; [|done..].
  destruct (getitem (np_where (map (fun x => x ≗ f_hi) f_stamp)) 0) as [hi| |] eqn:Hhi;
    cbn [mbind res_bind]; [|done..].
  intros [= <- <-].
  apply where_eq_found in Hlo as (x & Hx & Hxe & Hxfirst).
  apply where_eq_found in Hhi as (y & Hy & Hye & Hyfirst).
  split; [|split].
  - intros Hlt. destruct (decide (lo < hi)) as [|Hge]; [done|]. exfalso.
    pose proof (sorted hi lo y x ltac:(lia) Hy Hx) as Hs.
    rewrite (feq_flt x f_lo y f_hi Hxe Hye) in Hs. congruence.
  - intros Heq.
    destruct (Nat.lt_trichotomy lo hi) as [Hlt|[->|Hgt]]; [|done|]; exfalso.
    + pose proof (Hyfirst lo x Hlt Hx) as Hne.
      rewrite <- (feq_feq f_lo f_hi x Heq) in Hne. congruence.
    + pose proof (Hxfirst hi y Hgt Hy) as Hne.
      rewrite (feq_feq f_lo f_hi y Heq) in Hne. congruence.
  - intros Hgt. destruct (decide (hi < lo)) as [|Hge]; [done|]. exfalso.
    pose proof (sorted lo hi x y ltac:(lia) Hx Hy) as Hs.
    rewrite (feq_flt y f_hi x f_lo Hye Hxe) in Hs. congruence.
Qed.
End IndexOrder.

(** Equal numbers compare alike, in binary64. *)
Lemma SFcompare_Eq_inv (x a : spec_float) :
  SFcompare x a = Some Eq ->
  x = a \/ exists s s', x = S754_zero s /\ a = S754_zero s'.
Proof.
  destruct x as [sx|sx| |sx mx ex], a as [sa|sa| |sa ma ea]; cbn [SFcompare];
    try done; try (by destruct sx); try (by destruct sa).
  - intros _. right. eauto.
  - destruct sx, sa; try done; by left.
  - intros Hc. left.
    destruct sx, sa; try done;
      destruct (Z.compare_spec ex ea) as [->| |]; try done;
      change (Pos.compare_cont Eq mx ma) with (Pos.compare mx ma) in Hc;
      destruct (Pos.compare_spec mx ma) as [->| |]; done.
Qed.

Lemma SFcompare_Eq_l (x a y : spec_float) :
  SFcompare x a = Some Eq -> SFcompare x y = SFcompare a y.
Proof.
  intros Hc. apply SFcompare_Eq_inv in Hc as [->|(s & s' & -> & ->)]; [done|].
  by destruct y as [| | |[]].
Qed.

Lemma SFcompare_Eq_r (y b x : spec_float) :
  SFcompare y b = Some Eq -> SFcompare x y = SFcompare x b.
Proof.
  intros Hc. apply SFcompare_Eq_inv in Hc as [->|(s & s' & -> & ->)]; [done|].
  by destruct x as [| | |[]].
Qed.

Lemma float_feq_flt (x a y b : float) :
  (x ≗ a) = true -> (y ≗ b) = true -> flt x y = flt a b.
Proof.
  cbn [feq flt Float64.arith]. rewrite !FloatAxioms.eqb_spec, !FloatAxioms.ltb_spec.
  unfold SFeqb, SFltb. intros Hx Hy.
  destruct (SFcompare (Prim2SF x) (Prim2SF a)) as [[]|] eqn:Hxa; try done.
  destruct (SFcompare (Prim2SF y) (Prim2SF b)) as [[]|] eqn:Hyb; try done.
  by rewrite (SFcompare_Eq_l _ _ _ Hxa), (SFcompare_Eq_r _ _ _ Hyb).
Qed.

Lemma float_feq_feq (a b x : float) : (a ≗ b) = true -> (x ≗ a) = (x ≗ b).
Proof.
  cbn [feq Float64.arith]. rewrite !FloatAxioms.eqb_spec. unfold SFeqb. intros Hab.
  destruct (SFcompare (Prim2SF a) (Prim2SF b)) as [[]|] eqn:Hc; try done.
  by rewrite (SFcompare_Eq_r _ _ _ Hc).
Qed.

Lemma float_freq_stamp_sorted (f0 : float) (N0 : nat) :
  (f0 ≻ 0%float) = true -> (Z.of_nat N0 < 2 ^ 63)%Z ->
  forall i j x y,
    i <= j -> get_freq_stamp f0 N0 !! i = Some x -> get_freq_stamp f0 N0 !! j = Some y ->
    (x ≻ y) = false.
Proof.
  intros Hf HN i j x y Hij Hx Hy.
  assert (Hj : j < N0).
  { apply lookup_lt_Some in Hy. by rewrite length_get_freq_stamp in Hy. }
  destruct (stamps_lookup f0 N0 i ltac:(lia)) as [Hi' _].
  destruct (stamps_lookup f0 N0 j Hj) as [Hj' _].
  rewrite Hi' in Hx. rewrite Hj' in Hy. injection Hx as <-. injection Hy as <-.
  by apply Binary64Order.float_stamp_sorted.
Qed.

(** C9, as the code has it, in binary64.  After a successful construction
    both indices of the band lie in [[0, N)] and the frequency stamp holds
    values equal to [f_lo] and [f_hi] there.  Nothing compares the
    endpoints; but for a positive sampling frequency (and a size below
    [2^63]) the stamp [(i / N) * f] is sorted, and the indices come in the
    order of the endpoints: [idx_lo < idx_hi] when [f_lo < f_hi], equal
    indices for equal endpoints, [idx_hi < idx_lo] for a band given
    backwards. *)
Theorem init_idx_in_range (f_lo f_hi f0 : float) (N0 : nat) (amp0 eps0 : float)
    (self : ExcitationSignal float) :
  init (f_lo, f_hi) f0 N0 amp0 eps0 = Ok self ->
  (idx self).1 < N0 /\ (idx self).2 < N0 /\
  (exists x y, f_stamp self !! (idx self).1 = Some x /\ (x ≗ f_lo) = true /\
               f_stamp self !! (idx self).2 = Some y /\ (y ≗ f_hi) = true) /\
  ((f0 ≻ 0%float) = true -> (Z.of_nat N0 < 2 ^ 63)%Z ->
   ((f_hi ≻ f_lo) = true -> (idx self).1 < (idx self).2) /\
   ((f_lo ≗ f_hi) = true -> (idx self).1 = (idx self).2) /\
   ((f_lo ≻ f_hi) = true -> (idx self).2 < (idx self).1)).
Proof.
  intros Hinit.
  destruct (init_idx_bounds _ _ _ _ _ _ _ Hinit) as (Hlo & Hhi & Hfound).
  split; [done|]. split; [done|]. split; [done|].
  intros Hf HN.
  apply init_inv in Hinit as (_ & _ & _ & _ & _ & _ & _ & _ & _ & Hst & Hidx).
  destruct (idx self) as [lo hi]. cbn [fst snd].
  apply (get_freq_index_order (f_stamp self) float_feq_flt float_feq_feq); [|done].
  rewrite Hst. by apply float_freq_stamp_sorted.
Qed.

(** The statement of C9 for the default configuration: [f = 100],
    [N = 100], band [(0, 5)], found at [(0, 5)]. *)
Lemma init_idx_in_range_witness :
  exists self : ExcitationSignal float,
    init (0, 5)%float 100%float 100 100%float Float64.eps_default = Ok self /\
    (idx self).1 < 100 /\ (idx self).2 < 100 /\
    (exists x y, f_stamp self !! (idx self).1 = Some x /\ (x ≗ 0%float) = true /\
                 f_stamp self !! (idx self).2 = Some y /\ (y ≗ 5%float) = true) /\
    (idx self).1 < (idx self).2.
Proof.
  destruct (init (0, 5)%float 100%float 100 100%float Float64.eps_default)
    as [self| |] eqn:Hinit; [|vm_compute in Hinit; discriminate..].
  exists self. split; [reflexivity|].
  destruct (init_idx_in_range 0%float 5%float 100%float 100 100%float
              Float64.eps_default self Hinit) as (H1 & H2 & H3 & Hord).
  split; [exact H1|]. split; [exact H2|]. split; [exact H3|].
  apply (proj1 (Hord eq_refl ltac:(lia))). reflexivity.
Defined.

(** C9 as stated fails.  With the band given as [(5, 0)] the construction
    succeeds and stores [idx = (5, 0)]; and with the negative sampling
    frequency [f = -100] the stamp is [0, -1, -2, ...], so that the band
    [(-5, 0)], whose endpoints are in order, is stored as [idx = (5, 0)]
    too. *)
Lemma init_idx_reversed :
  (exists self : ExcitationSignal float,
     init (5, 0)%float 100%float 100 100%float Float64.eps_default = Ok self /\
     idx self = (5, 0) /\
     ~ ((idx self).1 < (idx self).2)) /\
  (exists self : ExcitationSignal float,
     init (-5, 0)%float (-100)%float 100 100%float Float64.eps_default = Ok self /\
     ((-5)%float <? 0%float)%float = true /\
     idx self = (5, 0) /\
     ~ ((idx self).1 < (idx self).2)).
Proof.
  split.
  - destruct (init (5, 0)%float 100%float 100 100%float Float64.eps_default)
      as [self| |] eqn:Hinit; [|vm_compute in Hinit; discriminate..].
    exists self. split; [reflexivity|].
    vm_compute in Hinit. injection Hinit as <-. simpl. split; [reflexivity|lia].
  - destruct (init (-5, 0)%float (-100)%float 100 100%float Float64.eps_default)
      as [self| |] eqn:Hinit; [|vm_compute in Hinit; discriminate..].
    exists self. split; [reflexivity|]. split; [reflexivity|].
    vm_compute in Hinit. injection Hinit as <-. simpl. split; [reflexivity|lia].
Qed.

(** In exact arithmetic the stamp [i * f / N] of a positive sampling
    frequency is strictly increasing, and the indices are ordered as the
    endpoints. *)
Lemma real_init_idx_order (f_lo f_hi f0 : R) (N0 : nat) (amp0 eps0 : R)
    (self : ExcitationSignal R) :
  init (f_lo, f_hi) f0 N0 amp0 eps0 = Ok self -> (0 < f0)%R ->
  ((f_lo < f_hi)%R -> (idx self).1 < (idx self).2) /\
  (f_lo = f_hi -> (idx self).1 = (idx self).2) /\
  ((f_hi < f_lo)%R -> (idx self).2 < (idx self).1).
Proof.
  intros Hinit Hf.
  pose proof (init_inv _ _ _ _ _ _ Hinit) as (_ & _ & _ & _ & _ & HN & _ & _ & _ & Hst & Hidx).
  destruct (idx self) as [lo hi]. cbn [fst snd].
  assert (Hord : ((f_hi ≻ f_lo) = true -> lo < hi) /\
                 ((f_lo ≗ f_hi) = true -> lo = hi) /\
                 ((f_lo ≻ f_hi) = true -> hi < lo)).
  { apply (get_freq_index_order (f_stamp self)); [| | |done].
    - intros x a y b. cbn [feq flt Real.arith]. unfold Real.eqb.
      destruct (Req_dec_T x a) as [->|]; [|done].
      destruct (Req_dec_T y b) as [->|]; done.
    - intros a b x. cbn [feq Real.arith]. unfold Real.eqb.
      destruct (Req_dec_T a b) as [->|]; done.
    - intros i j x y Hij Hx Hy. rewrite Hst in Hx, Hy.
      assert (Hj : j < N0).
      { apply lookup_lt_Some in Hy. by rewrite length_get_freq_stamp in Hy. }
      destruct (stamps_lookup f0 N0 i ltac:(lia)) as [Hi' _].
      destruct (stamps_lookup f0 N0 j Hj) as [Hj' _].
      rewrite Hi' in Hx. rewrite Hj' in Hy. injection Hx as <-. injection Hy as <-.
      cbn [flt fdiv fmul Real.arith]. unfold Real.ltb, of_nat. cbn [of_int Real.arith].
      destruct (Rlt_dec _ _) as [Hlt|]; [|done]. exfalso.
      assert (HN0 : (0 < IZR (Z.of_nat N0))%R) by (apply IZR_lt; lia).
      assert (Hle : (IZR (Z.of_nat i) <= IZR (Z.of_nat j))%R) by (apply IZR_le; lia).
      assert (Hq : (IZR (Z.of_nat i) / IZR (Z.of_nat N0)
                    <= IZR (Z.of_nat j) / IZR (Z.of_nat N0))%R).
      { unfold Rdiv. apply Rmult_le_compat_r; [|done].
        apply Rlt_le, Rinv_0_lt_compat. done. }
      nra. }
  destruct Hord as (H1 & H2 & H3). split; [|split].
  - intros Hlt. apply H1. cbn [flt Real.arith]. unfold Real.ltb.
    destruct (Rlt_dec f_lo f_hi); done.
  - intros Heq. apply H2. cbn [feq Real.arith]. unfold Real.eqb.
    destruct (Req_dec_T f_lo f_hi); done.
  - intros Hlt. apply H3. cbn [flt Real.arith]. unfold Real.ltb.
    destruct (Rlt_dec f_hi f_lo); done.
Qed.
